(** * Ant colony optimisation for the 3D travelling-salesman problem

    A shallow embedding of the heuristic of [Laba3/task 3_2.py] (the
    interactive variant) and [Laba3/task 3_3.py] (the headless variant),
    with the properties of its tours, tables and iteration state.

    Numbers.  Python floats are modelled in exact arithmetic: a float is a
    real number of [R], and a length, which [dict.get(..., float('inf'))]
    can make infinite, is a real number or [+inf] ([xreal]).  Rounding,
    underflow and NaN are outside the model.  A power [x ** y] whose exact
    value is beyond the largest float raises [OverflowError], as in Python,
    and the power of a negative base with a fractional exponent is a complex
    number ([pyval]).  The statements that a computation returns carry
    bounds that keep the numbers within the range of the floats.

    Effects.  Exceptions are the [Raise] outcome of a small error monad;
    the [while] loop of one ant runs on fuel, and [Timeout] is the outcome
    of a loop that the fuel did not let finish.  The random source is an
    explicit state, an infinite tape of draws. *)

From Stdlib Require Import Reals Lra Lia.
From stdpp Require Import gmap list strings.

(** ** Outcomes of a computation *)

Inductive exn : Set :=
  | KeyError
  | ZeroDivisionError
  | ValueError
  | IndexError
  | TypeError
  | OverflowError.

Inductive outcome (A : Type) : Type :=
  | Done (a : A)
  | Raise (e : exn)
  | Timeout.
Arguments Done {A} a.
Arguments Raise {A} e.
Arguments Timeout {A}.

#[global] Instance outcome_ret : MRet outcome := @Done.
#[global] Instance outcome_bind : MBind outcome := fun A B f m =>
  match m with
  | Done a => f a
  | Raise e => Raise e
  | Timeout => Timeout
  end.

(** ** Numbers *)

#[global] Instance R_inhabited : Inhabited R := populate 0%R.

(** A float that may be [float('inf')]. *)
Inductive xreal : Set :=
  | Fin (r : R)
  | PInf.

Definition xadd (x y : xreal) : xreal :=
  match x, y with
  | Fin a, Fin b => Fin (a + b)
  | _, _ => PInf
  end.

Definition xlt (x y : xreal) : Prop :=
  match x, y with
  | Fin a, Fin b => (a < b)%R
  | Fin _, PInf => True
  | PInf, _ => False
  end.

Definition xle (x y : xreal) : Prop :=
  match x, y with
  | Fin a, Fin b => (a <= b)%R
  | _, PInf => True
  | PInf, Fin _ => False
  end.

Definition xlt_dec (x y : xreal) : {xlt x y} + {¬ xlt x y} :=
  match x, y with
  | Fin a, Fin b => Rlt_dec a b
  | Fin _, PInf => left I
  | PInf, _ => right (fun H => H)
  end.

(** [q / length] for a finite [q]; a finite number over [inf] is [0.0].
    Both call sites guard the division by [length > 0]. *)
Definition div_by (q : R) (len : xreal) : R :=
  match len with
  | Fin l => (q / l)%R
  | PInf => 0%R
  end.

(** The largest finite float, [(2 - 2 ** -52) * 2 ** 1023]. *)
Definition DBL_MAX : R := ((2 ^ 53 - 1) * 2 ^ 971)%R.

(** A number that the arithmetic of a weight produces: a float, or the
    complex number that [**] returns for a negative base and a fractional
    exponent. *)
Inductive pyval : Type :=
  | Float (r : R)
  | Complex (re im : R).

Definition re_of (a : pyval) : R :=
  match a with Float r => r | Complex re _ => re end.

Definition im_of (a : pyval) : R :=
  match a with Float _ => 0%R | Complex _ im => im end.

(** [a + b]: a float for two floats, a complex number otherwise. *)
Definition py_add (a b : pyval) : pyval :=
  match a, b with
  | Float x, Float y => Float (x + y)
  | _, _ => Complex (re_of a + re_of b) (im_of a + im_of b)
  end.

(** [a * b] *)
Definition py_mul (a b : pyval) : pyval :=
  match a, b with
  | Float x, Float y => Float (x * y)
  | _, _ => Complex (re_of a * re_of b - im_of a * im_of b)
                    (re_of a * im_of b + im_of a * re_of b)
  end.

(** [a / b] for a divisor that is not zero; both call sites come after the
    test [total == 0]. *)
Definition py_div (a b : pyval) : pyval :=
  match a, b with
  | Float x, Float y => Float (x / y)
  | _, _ =>
      let m := (re_of b * re_of b + im_of b * im_of b)%R in
      Complex ((re_of a * re_of b + im_of a * im_of b) / m)
              ((im_of a * re_of b - re_of a * im_of b) / m)
  end.

(** [a == 0] *)
Definition py_eq0 (a : pyval) : bool :=
  match a with
  | Float r => if Req_dec_T r 0 then true else false
  | Complex re im =>
      if Req_dec_T re 0 then (if Req_dec_T im 0 then true else false) else false
  end.

(** The floats of a list of numbers, if they are all floats. *)
Fixpoint floats_of (l : list pyval) : option (list R) :=
  match l with
  | [] => Some []
  | Float r :: l' => cons r <$> floats_of l'
  | Complex _ _ :: _ => None
  end.

(** [x ** y] on floats.  A zero base with a negative exponent raises
    [ZeroDivisionError]; a result beyond the largest float raises
    [OverflowError]; a negative base with a fractional exponent gives the
    complex number [|x| ** y * (cos (pi * y) + i * sin (pi * y))]. *)
Definition float_pow (x y : R) : outcome pyval :=
  if Rlt_dec 0 x then
    if Rlt_dec DBL_MAX (Rpower x y) then Raise OverflowError
    else Done (Float (Rpower x y))
  else if Req_dec_T x 0 then
    if Rlt_dec 0 y then Done (Float 0)
    else if Req_dec_T y 0 then Done (Float 1)
    else Raise ZeroDivisionError
  else
    if Req_dec_T (IZR (Int_part y)) y then
      if Rlt_dec DBL_MAX (Rabs (powerRZ x (Int_part y))) then Raise OverflowError
      else Done (Float (powerRZ x (Int_part y)))
    else
      if Rlt_dec DBL_MAX (Rpower (- x) y) then Raise OverflowError
      else Done (Complex (Rpower (- x) y * cos (PI * y))
                         (Rpower (- x) y * sin (PI * y))).

(** [1.0 / d] *)
Definition float_inv (d : R) : outcome R :=
  if Req_dec_T d 0 then Raise ZeroDivisionError else Done (1 / d)%R.

(** ** The random source *)

(** The source is a tape of draws; a draw reads the head and moves on. *)
Definition rng : Type := nat → nat.

Definition draw (g : rng) : nat * rng := (g 0, fun k => g (S k)).

(** [random.randint(0, n - 1)]: [ValueError] on the empty range. *)
Definition randint0 (n : nat) (g : rng) : outcome (nat * rng) :=
  match n with
  | 0 => Raise ValueError
  | S _ => let (k, g') := draw g in Done (k mod n, g')
  end.

(** [random.choice(seq)]: [IndexError] on the empty sequence. *)
Definition choice (l : list nat) (g : rng) : outcome (nat * rng) :=
  match l with
  | [] => Raise IndexError
  | _ :: _ => let (k, g') := draw g in Done (l !!! (k mod length l), g')
  end.

(** [random.random()]: a float of [[0, 1)] with 53 bits. *)
Definition random (g : rng) : R * rng :=
  let (k, g') := draw g in
  ((INR (k mod 2 ^ 53) / INR (2 ^ 53))%R, g').

(** [itertools.accumulate(weights)]: the running sums. *)
Fixpoint accumulate_from (acc : R) (ws : list R) : list R :=
  match ws with
  | [] => []
  | w :: ws' => (acc + w)%R :: accumulate_from (acc + w)%R ws'
  end.

Definition accumulate (ws : list R) : list R := accumulate_from 0%R ws.

(** [bisect.bisect(a, x, lo, hi)]: the loop [while lo < hi] halves the
    interval, so [hi - lo] passes are enough. *)
Fixpoint bisect_loop (fuel : nat) (a : list R) (x : R) (lo hi : nat) : nat :=
  match fuel with
  | 0 => lo
  | S fuel' =>
      if decide (lo < hi) then
        let mid := (lo + hi) / 2 in
        if Rlt_dec x (a !!! mid) then bisect_loop fuel' a x lo mid
        else bisect_loop fuel' a x (mid + 1) hi
      else lo
  end.

Definition bisect (a : list R) (x : R) (lo hi : nat) : nat :=
  bisect_loop (hi - lo) a x lo hi.

(** [random.choices(population, weights=weights)[0]] on weights that are
    floats. *)
Definition choices_float (population : list nat) (weights : list R) (g : rng)
  : outcome (nat * rng) :=
  let n := length population in
  let cum_weights := accumulate weights in
  if decide (length cum_weights ≠ n) then Raise ValueError
  else match last cum_weights with
       | None => Raise IndexError
       | Some total =>
           if Rle_dec total 0 then Raise ValueError
           else
             let (r, g') := random g in
             match population !! bisect cum_weights (r * total)%R 0 (n - 1) with
             | Some x => Done (x, g')
             | None => Raise IndexError
             end
       end.

(** [random.choices(population, weights=weights)[0]]: with a complex
    number among the weights the running total is complex and the test
    [total <= 0.0] raises [TypeError]. *)
Definition choices (population : list nat) (weights : list pyval) (g : rng)
  : outcome (nat * rng) :=
  if decide (length weights ≠ length population) then Raise ValueError
  else match floats_of weights with
       | Some ws => choices_float population ws g
       | None => Raise TypeError
       end.

(** ** Tables and tours *)

(** A point of the 3D space, [(x, y, z)]. *)
Definition point : Type := R * R * R.

(** [math.sqrt(dx*dx + dy*dy + dz*dz)] between two points. *)
Definition euclid (p1 p2 : point) : R :=
  let '(x1, y1, z1) := p1 in
  let '(x2, y2, z2) := p2 in
  let dx := (x1 - x2)%R in
  let dy := (y1 - y2)%R in
  let dz := (z1 - z2)%R in
  sqrt (dx * dx + dy * dy + dz * dz).

(** The nested loop that fills a table:
<<
    for i in range(n):
        for j in range(n):
            if i != j:
                table[(i, j)] = f(i, j)
>> *)
Definition fill_row (f : nat → nat → R) (n i : nat) (t : gmap (nat * nat) R)
  : gmap (nat * nat) R :=
  foldl (fun t j => if decide (i ≠ j) then <[(i, j) := f i j]> t else t) t (seq 0 n).

Definition fill_table (f : nat → nat → R) (n : nat) : gmap (nat * nat) R :=
  foldl (fun t i => fill_row f n i t) ∅ (seq 0 n).

(** The ordered pairs [(path[i], path[(i + 1) % n])], [i] in [range(n)],
    of the closed tour. *)
Definition closed_edges (path : list nat) : list (nat * nat) :=
  let n := length path in
  (fun i => (path !!! i, path !!! ((i + 1) mod n))) <$> seq 0 n.

(** The length of the closed tour; an edge the table lacks counts [inf]. *)
Definition tour_length (distances : gmap (nat * nat) R) (path : list nat) : xreal :=
  foldl (fun total e => xadd total (from_option Fin PInf (distances !! e)))
        (Fin 0) (closed_edges path).

(** Evaporation: [for key in pheromone: pheromone[key] *= (1 - evaporation)]. *)
Definition evaporate (evaporation : R) (pheromone : gmap (nat * nat) R)
  : gmap (nat * nat) R :=
  (fun tau => tau * (1 - evaporation))%R <$> pheromone.

(** Reinforcement of one edge:
    [if (a, b) in pheromone: pheromone[(a, b)] += q / length]. *)
Definition deposit (amount : R) (pheromone : gmap (nat * nat) R) (e : nat * nat)
  : gmap (nat * nat) R :=
  match pheromone !! e with
  | Some tau => <[e := (tau + amount)%R]> pheromone
  | None => pheromone
  end.

(** Reinforcement along the closed tour, guarded by [length > 0]. *)
Definition reinforce (path : list nat) (q : R) (len : xreal)
  (pheromone : gmap (nat * nat) R) : gmap (nat * nat) R :=
  if xlt_dec (Fin 0) len then
    foldl (deposit (div_by q len)) pheromone (closed_edges path)
  else pheromone.

(** [min(paths, key=key)]: the first element of least key; [ValueError] on
    the empty list. *)
Fixpoint min_from {A : Type} (key : A → xreal) (best : A) (l : list A) : A :=
  match l with
  | [] => best
  | x :: l' =>
      if xlt_dec (key x) (key best) then min_from key x l'
      else min_from key best l'
  end.

Definition py_min {A : Type} (key : A → xreal) (l : list A) : outcome A :=
  match l with
  | [] => Raise ValueError
  | x :: l' => Done (min_from key x l')
  end.

(** [table[key]]: [KeyError] on a key the table lacks. *)
Definition getitem (table : gmap (nat * nat) R) (key : nat * nat) : outcome R :=
  match table !! key with
  | Some v => Done v
  | None => Raise KeyError
  end.

(** ** One ant

    The body that builds one tour is the same text in both variants
    ([construct_path] of the interactive one, the loop over [ant] of the
    headless one) except for the weight of a transition, which is the
    variable of this section. *)
Section ant.
(** [weight current node]: the unnormalised weight of a transition. *)
Variable weight : nat → nat → outcome pyval.
Variable n : nat.

(** The loop [for node in unvisited] that collects [probs] and [total]. *)
Fixpoint transition_weights (current : nat) (unvisited : list nat)
  (probs : list pyval) (total : pyval) : outcome (list pyval * pyval) :=
  match unvisited with
  | [] => Done (probs, total)
  | node :: rest =>
      prob ← weight current node;
      transition_weights current rest (probs ++ [prob]) (py_add total prob)
  end.

(** The choice of the next node: uniform when the weights sum to zero,
    weighted by the normalised weights otherwise. *)
Definition next_node (current : nat) (unvisited : list nat) (g : rng)
  : outcome (nat * rng) :=
  '(probs, total) ← transition_weights current unvisited [] (Float 0);
  if py_eq0 total then choice unvisited g
  else choices unvisited ((fun p => py_div p total) <$> probs) g.

(** [unvisited = [i for i in range(n) if i not in visited]] *)
Definition unvisited_of (visited : gset nat) : list nat :=
  filter (fun i => i ∉ visited) (seq 0 n).

(** The loop [while len(visited) < n]; one unit of fuel pays one pass. *)
Fixpoint walk (fuel : nat) (visited : gset nat) (path : list nat)
  (current : nat) (g : rng) : outcome (list nat * rng) :=
  if decide (size visited < n) then
    match unvisited_of visited with
    | [] => Done (path, g)
    | unvisited =>
        match fuel with
        | 0 => Timeout
        | S fuel' =>
            '(next, g') ← next_node current unvisited g;
            walk fuel' ({[next]} ∪ visited) (path ++ [next]) next g'
        end
    end
  else Done (path, g).

(** One tour, from a random start, within [fuel] passes of the loop. *)
Definition construct_within (fuel : nat) (g : rng) : outcome (list nat * rng) :=
  '(current, g') ← randint0 n g;
  walk fuel {[current]} [current] current g'.

(** One tour; [n] passes are more than the loop needs. *)
Definition construct (g : rng) : outcome (list nat * rng) :=
  construct_within n g.

(** [ants] tours, one after the other, on the same tables. *)
Fixpoint build_paths (ants : nat) (all_paths : list (list nat)) (g : rng)
  : outcome (list (list nat) * rng) :=
  match ants with
  | 0 => Done (all_paths, g)
  | S ants' =>
      '(path, g') ← construct g;
      build_paths ants' (all_paths ++ [path]) g'
  end.
End ant.

(** ** The interactive variant, [Laba3/task 3_2.py] *)
Module Interactive.

(** [generate_edges(points)]: the triples [(i, j, dist)], [i != j]. *)
Definition generate_edges (points : list point) : list (nat * nat * R) :=
  let n := length points in
  i ← seq 0 n;
  j ← seq 0 n;
  if decide (i ≠ j) then [(i, j, euclid (points !!! i) (points !!! j))] else [].

(** [{ (i, j): dist for i, j, dist in generate_edges(points) }] *)
Definition distance_table (points : list point) : gmap (nat * nat) R :=
  foldl (fun t '(i, j, dist) => <[(i, j) := dist]> t) ∅ (generate_edges points).

Definition initialize_pheromones (n : nat) : gmap (nat * nat) R :=
  fill_table (fun _ _ => 0.1%R) n.

(** The [try] block raises [KeyError] on a missing pair and the [except]
    clause turns it, and nothing else, into [0.0]. *)
Definition calculate_transition_prob (pheromone distances : gmap (nat * nat) R)
  (current next_node : nat) (alpha beta : R) : outcome pyval :=
  if decide (current = next_node) then Done (Float 0)
  else
    match
      tau ← getitem pheromone (current, next_node);
      d ← getitem distances (current, next_node);
      eta ← float_inv d;
      x ← float_pow tau alpha;
      y ← float_pow eta beta;
      mret (py_mul x y)
    with
    | Raise KeyError => Done (Float 0)
    | o => o
    end.

(** [construct_path] calls [calculate_transition_prob] with the default
    [alpha=1.0] and [beta=2.0]. *)
Definition construct_path (pheromone distances : gmap (nat * nat) R) (n : nat)
  (g : rng) : outcome (list nat * rng) :=
  construct
    (fun current node => calculate_transition_prob pheromone distances current node 1 2)
    n g.

Definition path_length (path : list nat) (distances : gmap (nat * nat) R) : xreal :=
  tour_length distances path.

Definition update_pheromones (pheromone : gmap (nat * nat) R) (best_path : list nat)
  (distances : gmap (nat * nat) R) (evaporation q : R) : gmap (nat * nat) R :=
  let pheromone := evaporate evaporation pheromone in
  let length := path_length best_path distances in
  reinforce best_path q length pheromone.

(** One pass of the loop [for it in range(iterations)] of
    [visualize_optimization], without the plot: the tours of the ants, the
    best of them, the update with the default [evaporation=0.1] and
    [q=100.0].  The result is the new table, the best tour of the pass
    and its length. *)
Definition iteration (distances : gmap (nat * nat) R) (n : nat) (ants : Z)
  (pheromone : gmap (nat * nat) R) (g : rng)
  : outcome (gmap (nat * nat) R * list nat * xreal * rng) :=
  '(paths, g') ← build_paths
     (fun current node => calculate_transition_prob pheromone distances current node 1 2)
     n (Z.to_nat ants) [] g;
  best_path ← py_min (fun p => path_length p distances) paths;
  let best_len := path_length best_path distances in
  let pheromone := update_pheromones pheromone best_path distances 0.1 100 in
  mret (pheromone, best_path, best_len, g').

End Interactive.

(** ** The headless variant, [Laba3/task 3_3.py] *)
Module Headless.

Definition build_distance_matrix_cached (points : list point) : gmap (nat * nat) R :=
  fill_table (fun i j => euclid (points !!! i) (points !!! j)) (length points).

(** The weight of a transition, written in the loop itself: a pair the
    pheromone table lacks counts [0.1], a pair the distance table lacks
    raises [KeyError]. *)
Definition transition_weight (pheromone distances : gmap (nat * nat) R)
  (alpha beta : R) (current node : nat) : outcome pyval :=
  if decide (current = node) then Done (Float 0)
  else
    let tau := default 0.1%R (pheromone !! (current, node)) in
    d ← getitem distances (current, node);
    eta ← float_inv d;
    x ← float_pow tau alpha;
    y ← float_pow eta beta;
    mret (py_mul x y).

(** The state that one pass of [for iteration in range(iterations)]
    reads and writes. *)
Record colony : Type := Colony {
  pheromone : gmap (nat * nat) R;
  best_path_overall : option (list nat);
  best_length_overall : xreal;
  source : rng
}.

Section run.
Variable distances : gmap (nat * nat) R.
Variable n : nat.
Variables (ants : Z) (alpha beta evaporation q : R).

Definition compute_path_length (path : list nat) : xreal :=
  tour_length distances path.

Definition iteration (st : colony) : outcome colony :=
  '(all_paths, g) ← build_paths
     (transition_weight (pheromone st) distances alpha beta)
     n (Z.to_nat ants) [] (source st);
  current_best_path ← py_min compute_path_length all_paths;
  let current_best_length := compute_path_length current_best_path in
  let '(best_length, best_path) :=
    if xlt_dec current_best_length (best_length_overall st)
    then (current_best_length, Some current_best_path)
    else (best_length_overall st, best_path_overall st) in
  let pheromone := evaporate evaporation (pheromone st) in
  let pheromone := reinforce current_best_path q current_best_length pheromone in
  mret (Colony pheromone best_path best_length g).

Fixpoint iterate (iterations : nat) (st : colony) : outcome colony :=
  match iterations with
  | 0 => Done st
  | S iterations' => st' ← iteration st; iterate iterations' st'
  end.
End run.

Definition initial (n : nat) (g : rng) : colony :=
  Colony (fill_table (fun _ _ => 0.1%R) n) None PInf g.

Definition ant_colony_optimization_simple (points : list point)
  (iterations ants : Z) (alpha beta evaporation q : R) (g : rng)
  : outcome (option (list nat) * xreal * rng) :=
  let n := length points in
  let distances := build_distance_matrix_cached points in
  st ← iterate distances n ants alpha beta evaporation q
       (Z.to_nat iterations) (initial n g);
  mret (best_path_overall st, best_length_overall st, source st).

End Headless.

(** [best] is the first element of the list of least key: the elements
    before it have a greater key, the elements after it a key that is not
    less. *)
Definition first_min {A : Type} (key : A → xreal) (l : list A) (best : A) : Prop :=
  ∃ l1 l2, l = l1 ++ best :: l2
           ∧ (∀ p, p ∈ l1 → xlt (key best) (key p))
           ∧ (∀ p, p ∈ l2 → xle (key best) (key p)).

(** ** Calls on the pheromone table

    The table is written by nothing but evaporation and reinforcement; a
    history of the table is a list of such calls. *)
Inductive trail_call : Type :=
  | Evaporate (rho : R)
  | Reinforce (path : list nat) (q : R) (len : xreal).

Definition run_call (pheromone : gmap (nat * nat) R) (c : trail_call)
  : gmap (nat * nat) R :=
  match c with
  | Evaporate rho => evaporate rho pheromone
  | Reinforce path q len => reinforce path q len pheromone
  end.

Definition run_calls (calls : list trail_call) (pheromone : gmap (nat * nat) R)
  : gmap (nat * nat) R :=
  foldl run_call pheromone calls.

(** The evaporation rate is in [[0, 1)] and the reinforcement amount [q]
    is not negative. *)
Definition valid_call (c : trail_call) : Prop :=
  match c with
  | Evaporate rho => (0 <= rho < 1)%R
  | Reinforce _ q _ => (0 <= q)%R
  end.

(** ** The rest of the two files *)

(** [random.uniform(a, b)] is [a + (b - a) * random()]. *)
Definition uniform (a b : R) (g : rng) : R * rng :=
  let (r, g') := random g in ((a + (b - a) * r)%R, g').

(** [generate_points(n, bounds)], a list in the headless variant and a
    generator that [run_session] turns into a list in the interactive one:
    [n] points, three draws each, [x] then [y] then [z]. *)
Fixpoint generate_points_from (n : nat) (bounds : R * R) (points : list point)
  (g : rng) : list point * rng :=
  match n with
  | 0 => (points, g)
  | S n' =>
      let (x, g1) := uniform bounds.1 bounds.2 g in
      let (y, g2) := uniform bounds.1 bounds.2 g1 in
      let (z, g3) := uniform bounds.1 bounds.2 g2 in
      generate_points_from n' bounds (points ++ [(x, y, z)]) g3
  end.

Definition generate_points (n : nat) (bounds : R * R) (g : rng) : list point * rng :=
  generate_points_from n bounds [] g.

(** [max(a, b)] and [min(a, b)] of two floats: the first argument unless
    the second is strictly greater, strictly less. *)
Definition float_max (a b : R) : R := if Rlt_dec a b then b else a.
Definition float_min (a b : R) : R := if Rlt_dec b a then b else a.

(** The flags of [ControlState]; [__init__] gives [control_start]. *)
Record ControlState : Type := Control {
  paused : bool;
  restart_requested : bool;
  quit_requested : bool;
  confirmed_quit : bool;
  delay : R
}.

Definition control_start : ControlState :=
  Control false false false false 0.05%R.

(** [on_key(event)] on the global [control], given [event.key]; the
    messages it prints are not part of the state. *)
Definition on_key (key : string) (control : ControlState) : ControlState :=
  if decide (key = "p" ∨ key = "P") then
    Control (negb (paused control)) (restart_requested control)
      (quit_requested control) (confirmed_quit control) (delay control)
  else if decide (key = "r" ∨ key = "R") then
    Control (paused control) true
      (quit_requested control) (confirmed_quit control) (delay control)
  else if decide (key = "q" ∨ key = "Q") then
    Control (paused control) (restart_requested control)
      true (confirmed_quit control) (delay control)
  else if decide (key = "up") then
    Control (paused control) (restart_requested control)
      (quit_requested control) (confirmed_quit control)
      (float_max 0.001 (delay control * 0.7))
  else if decide (key = "down") then
    Control (paused control) (restart_requested control)
      (quit_requested control) (confirmed_quit control)
      (float_min 1.0 (delay control / 0.7))
  else control.

(** The keys of a session, in the order of their events. *)
Definition on_keys (keys : list string) (control : ControlState) : ControlState :=
  foldl (fun c key => on_key key c) control keys.

(** [functools.reduce(function, sequence)] without an initial value:
    [TypeError] on the empty sequence. *)
Definition reduce {T : Type} (function : T → T → T) (sequence : list T) : outcome T :=
  match sequence with
  | [] => Raise TypeError
  | x :: rest => Done (foldl function x rest)
  end.

(** [compose] of a tuple of functions:
    [reduce(lambda f, g: lambda x: f(g(x)), functions)]. *)
Definition compose {A : Type} (functions : list (A → A)) : outcome (A → A) :=
  reduce (fun f g => fun x => f (g x)) functions.

(** [points[i]]: [IndexError] past the end. *)
Definition point_at (points : list point) (i : nat) : outcome point :=
  match points !! i with
  | Some p => Done p
  | None => Raise IndexError
  end.

(** The loop of [main] of the headless variant that sums the edges of the
    best tour from the coordinates. *)
Fixpoint total_distance_from (points : list point) (best_path : list nat)
  (indices : list nat) (total_distance : R) : outcome R :=
  match indices with
  | [] => Done total_distance
  | i :: rest =>
      let n := length best_path in
      let a_index := best_path !!! i in
      let b_index := best_path !!! ((i + 1) mod n) in
      p_a ← point_at points a_index;
      p_b ← point_at points b_index;
      total_distance_from points best_path rest (total_distance + euclid p_a p_b)%R
  end.

(** [avg_edge_length] of [main]: [0.0] for [None] and for the empty tour,
    the sum of the edges over their number otherwise. *)
Definition avg_edge_length (points : list point) (best_path : option (list nat))
  : outcome R :=
  match best_path with
  | None => Done 0%R
  | Some [] => Done 0%R
  | Some path =>
      total_distance ← total_distance_from points path (seq 0 (length path)) 0%R;
      mret (total_distance / INR (length path))%R
  end.

(** ** Predicates of the statements *)

(** Every entry of the table is strictly positive. *)
Definition positive_table (ph : gmap (nat * nat) R) : Prop :=
  ∀ k tau, ph !! k = Some tau → (0 < tau)%R.

(** The product [(tau ** alpha) * (eta ** beta)], [eta = 1.0 / d], that
    both variants compute once they have [tau] and a distance [d] that is
    not zero. *)
Definition weight_formula (tau d alpha beta : R) : outcome pyval :=
  x ← float_pow tau alpha;
  y ← float_pow (1 / d) beta;
  mret (py_mul x y).

(** A weight within the range of the floats: the computation returns a
    float that is not negative, and [n] times that float is no more than
    the largest float, so that the sum of the weights of one step does not
    overflow. *)
Definition float_weight (n : nat) (o : outcome pyval) : Prop :=
  ∃ w, o = Done (Float w) ∧ (0 <= w)%R ∧ (INR n * w <= DBL_MAX)%R.

(** Every entry of the table is positive and at most [T]. *)
Definition bounded_table (T : R) (ph : gmap (nat * nat) R) : Prop :=
  ∀ k tau, ph !! k = Some tau → (0 < tau <= T)%R.

(** A positive number [x] with [1 / DBL_MAX <= x <= DBL_MAX]: neither [x]
    nor its inverse overflows, and [x] does not underflow to zero. *)
Definition float_range (x : R) : Prop := (/ DBL_MAX <= x <= DBL_MAX)%R.

(** What the loop of one ant keeps true: [visited] is the set of the
    nodes of [path], which are nodes of [range(n)] without a repeat. *)
Definition walk_inv (n : nat) (visited : gset nat) (path : list nat) : Prop :=
  visited = list_to_set path ∧ NoDup path ∧ ∀ x, x ∈ path → x < n.

(** The sum of the loop of [path_length] over a list of edges. *)
Definition edges_length (distances : gmap (nat * nat) R) (total : xreal)
  (edges : list (nat * nat)) : xreal :=
  foldl (fun total e => xadd total (from_option Fin PInf (distances !! e))) total edges.

(** The keys that the nested loop writes, in its order. *)
Definition table_keys (n : nat) : list (nat * nat) :=
  i ← seq 0 n; j ← seq 0 n; if decide (i ≠ j) then [(i, j)] else [].

(** The coordinates of a point are between the two bounds. *)
Definition in_bounds (bounds : R * R) (p : point) : Prop :=
  let '(x, y, z) := p in
  (Rmin bounds.1 bounds.2 <= x <= Rmax bounds.1 bounds.2)%R
  ∧ (Rmin bounds.1 bounds.2 <= y <= Rmax bounds.1 bounds.2)%R
  ∧ (Rmin bounds.1 bounds.2 <= z <= Rmax bounds.1 bounds.2)%R.

(** The best tour overall and its length go together: either there is
    none yet and the length is [inf], or the tour is a permutation of
    [range(n)] and the length is its own, a finite one. *)
Definition best_consistent (distances : gmap (nat * nat) R) (n : nat)
  (best_path : option (list nat)) (best_length : xreal) : Prop :=
  (best_path = None ∧ best_length = PInf)
  ∨ ∃ p L, best_path = Some p ∧ best_length = Fin L
           ∧ tour_length distances p = Fin L ∧ p ≡ₚ seq 0 n.

(** * Properties *)

(** ** The tables *)

Section fill.
Variable f : nat → nat → R.

Lemma fill_cols_lookup (i : nat) (l : list nat) (t : gmap (nat * nat) R) (a b : nat) :
  foldl (fun t j => if decide (i ≠ j) then <[(i, j) := f i j]> t else t) t l !! (a, b)
  = if decide (a = i ∧ b ∈ l ∧ a ≠ b) then Some (f a b) else t !! (a, b).
Proof.
  revert t. induction l as [|j l IH]; intros t; simpl.
  - case_decide as H; [|done]. destruct H as (_ & H & _). by apply elem_of_nil in H.
  - rewrite IH. clear IH.
    destruct (decide (a = i ∧ b ∈ l ∧ a ≠ b)) as [(-> & Hb & Hne)|Hn].
    + rewrite decide_True; [done|]. split_and!; [done| |done]. by right.
    + destruct (decide (i ≠ j)) as [Hij|Hij].
      * destruct (decide ((i, j) = (a, b))) as [[= <- <-]|Hk].
        -- rewrite lookup_insert_eq. rewrite decide_True; [done|].
           split_and!; [done| |done]. by left.
        -- rewrite lookup_insert_ne by done.
           case_decide as H; [|done]. destruct H as (-> & Hb & Hne).
           apply elem_of_cons in Hb as [->|Hb]; [done|]. by destruct Hn.
      * apply dec_stable in Hij. subst j.
        case_decide as H; [|done]. destruct H as (-> & Hb & Hne).
        apply elem_of_cons in Hb as [->|Hb]; [done|]. by destruct Hn.
Qed.

Lemma fill_row_lookup (n i : nat) (t : gmap (nat * nat) R) (a b : nat) :
  fill_row f n i t !! (a, b)
  = if decide (a = i ∧ b < n ∧ a ≠ b) then Some (f a b) else t !! (a, b).
Proof.
  unfold fill_row. rewrite fill_cols_lookup.
  apply decide_ext. rewrite elem_of_seq. intuition lia.
Qed.

Lemma fill_rows_lookup (n : nat) (l : list nat) (t : gmap (nat * nat) R) (a b : nat) :
  foldl (fun t i => fill_row f n i t) t l !! (a, b)
  = if decide (a ∈ l ∧ b < n ∧ a ≠ b) then Some (f a b) else t !! (a, b).
Proof.
  revert t. induction l as [|i l IH]; intros t; cbn [foldl].
  - case_decide as H; [|done]. destruct H as (H & _). by apply elem_of_nil in H.
  - rewrite IH, fill_row_lookup. clear IH.
    destruct (decide (a ∈ l ∧ b < n ∧ a ≠ b)) as [(Ha & Hb & Hne)|Hn].
    + rewrite decide_True; [done|]. split_and!; [by right|done|done].
    + destruct (decide (a = i ∧ b < n ∧ a ≠ b)) as [(-> & Hb & Hne)|Hi].
      * rewrite decide_True; [done|]. split_and!; [by left|done|done].
      * case_decide as H; [|done]. destruct H as (Ha & Hb & Hne).
        apply elem_of_cons in Ha as [->|Ha]; [by destruct Hi|by destruct Hn].
Qed.

Lemma fill_table_lookup (n a b : nat) :
  fill_table f n !! (a, b)
  = if decide (a < n ∧ b < n ∧ a ≠ b) then Some (f a b) else None.
Proof.
  unfold fill_table. rewrite fill_rows_lookup, lookup_empty.
  apply decide_ext. rewrite elem_of_seq. intuition lia.
Qed.
End fill.

Lemma foldl_bind {A B C : Type} (g : A → B → A) (h : C → list B) (l : list C) (t : A) :
  foldl g t (l ≫= h) = foldl (fun t x => foldl g t (h x)) t l.
Proof.
  revert t. induction l as [|x l IH]; intros t; [done|].
  rewrite bind_cons, foldl_app. apply IH.
Qed.

Lemma foldl_ext_in {A B : Type} (g1 g2 : A → B → A) (l : list B) (t : A) :
  (∀ t x, g1 t x = g2 t x) → foldl g1 t l = foldl g2 t l.
Proof.
  intros Hg. revert t. induction l as [|x l IH]; intros t; [done|].
  simpl. rewrite Hg. apply IH.
Qed.

(** The dictionary comprehension over [generate_edges] builds the table
    that the nested loop of the headless variant builds. *)
Lemma distance_table_fill (points : list point) :
  Interactive.distance_table points = Headless.build_distance_matrix_cached points.
Proof.
  unfold Interactive.distance_table, Interactive.generate_edges,
    Headless.build_distance_matrix_cached, fill_table, fill_row.
  rewrite foldl_bind. apply foldl_ext_in. intros t i.
  rewrite foldl_bind. apply foldl_ext_in. intros t' j.
  by case_decide.
Qed.

Lemma euclid_sym (p1 p2 : point) : euclid p1 p2 = euclid p2 p1.
Proof.
  destruct p1 as [[x1 y1] z1], p2 as [[x2 y2] z2]. unfold euclid.
  f_equal. ring.
Qed.

Lemma build_distance_matrix_cached_lookup (points : list point) (a b : nat) :
  Headless.build_distance_matrix_cached points !! (a, b)
  = if decide (a < length points ∧ b < length points ∧ a ≠ b)
    then Some (euclid (points !!! a) (points !!! b)) else None.
Proof. apply fill_table_lookup. Qed.

(** C9.  The distance table built from the points, by the nested loop of
    [build_distance_matrix_cached] and by the comprehension over
    [generate_edges] alike, has for every two distinct indices [i], [j] of
    the [N >= 2] points an entry, the Euclidean distance of the two points,
    the same for [(i, j)] and [(j, i)], and has no entry [(k, k)]. *)
Theorem distance_table_symmetric (points : list point) (i j : nat) :
  2 ≤ length points → i < length points → j < length points → i ≠ j →
  let headless := Headless.build_distance_matrix_cached points in
  let interactive := Interactive.distance_table points in
  (headless !! (i, j) = Some (euclid (points !!! i) (points !!! j))
   ∧ headless !! (j, i) = headless !! (i, j)
   ∧ ∀ k, headless !! (k, k) = None)
  ∧ (interactive !! (i, j) = Some (euclid (points !!! i) (points !!! j))
     ∧ interactive !! (j, i) = interactive !! (i, j)
     ∧ ∀ k, interactive !! (k, k) = None).
Proof.
  intros _ Hi Hj Hne. cbv zeta. rewrite distance_table_fill.
  assert (Headless.build_distance_matrix_cached points !! (i, j)
          = Some (euclid (points !!! i) (points !!! j))) as Hij.
  { rewrite build_distance_matrix_cached_lookup. by rewrite decide_True. }
  assert (Headless.build_distance_matrix_cached points !! (j, i)
          = Headless.build_distance_matrix_cached points !! (i, j)) as Hji.
  { rewrite Hij, build_distance_matrix_cached_lookup.
    rewrite decide_True by done. by rewrite euclid_sym. }
  assert (∀ k, Headless.build_distance_matrix_cached points !! (k, k) = None) as Hkk.
  { intros k. rewrite build_distance_matrix_cached_lookup.
    rewrite decide_False; [done|]. intros (_ & _ & H). by apply H. }
  done.
Qed.

Lemma distance_table_symmetric_witness :
  let points : list point := [(0, 0, 0); (3, 4, 0)]%R in
  Headless.build_distance_matrix_cached points !! (1, 0)
  = Headless.build_distance_matrix_cached points !! (0, 1).
Proof.
  intros points.
  apply (distance_table_symmetric points 0 1); simpl; lia.
Defined.

(** ** Evaporation and reinforcement *)

Lemma deposit_lookup (amount : R) (ph : gmap (nat * nat) R) (e k : nat * nat) :
  deposit amount ph e !! k
  = if decide (k = e) then (fun tau => tau + amount)%R <$> ph !! k else ph !! k.
Proof.
  unfold deposit. destruct (decide (k = e)) as [->|Hne].
  - destruct (ph !! e) as [tau|] eqn:He; [|by rewrite He].
    by rewrite lookup_insert_eq.
  - destruct (ph !! e) as [tau|] eqn:He; [|done].
    by rewrite lookup_insert_ne.
Qed.

Lemma deposits_lookup (amount : R) (es : list (nat * nat)) (ph : gmap (nat * nat) R)
  (k : nat * nat) :
  NoDup es →
  foldl (deposit amount) ph es !! k
  = if decide (k ∈ es) then (fun tau => tau + amount)%R <$> ph !! k else ph !! k.
Proof.
  intros Hnd. revert ph. induction Hnd as [|e es Hne Hnd IH]; intros ph; cbn [foldl].
  - rewrite decide_False; [done|]. apply not_elem_of_nil.
  - rewrite IH, deposit_lookup. clear IH.
    destruct (decide (k = e)) as [->|Hk].
    + rewrite decide_False by done. rewrite decide_True; [done|]. by left.
    + destruct (decide (k ∈ es)) as [Hin|Hin].
      * rewrite decide_True; [done|]. by right.
      * rewrite decide_False; [done|].
        intros [?|?]%elem_of_cons; done.
Qed.

Lemma lookup_total_lt (path : list nat) (i : nat) :
  i < length path → path !! i = Some (path !!! i).
Proof. intros Hi. by apply list_lookup_lookup_total_lt. Qed.

Lemma closed_edges_elem (path : list nat) (a b : nat) :
  (a, b) ∈ closed_edges path
  ↔ ∃ i, i < length path ∧ path !!! i = a ∧ path !!! ((i + 1) mod length path) = b.
Proof.
  unfold closed_edges. rewrite list_elem_of_fmap. split.
  - intros (i & [= -> ->] & Hi). apply elem_of_seq in Hi. exists i. split_and!; [lia|done..].
  - intros (i & Hi & <- & <-). exists i. split; [done|]. apply elem_of_seq. lia.
Qed.

Lemma closed_edges_fst (path : list nat) : fst <$> closed_edges path = path.
Proof.
  unfold closed_edges. rewrite <- list_fmap_compose.
  apply list_eq. intros i. rewrite list_lookup_fmap.
  destruct (decide (i < length path)) as [Hi|Hi].
  - rewrite lookup_seq_lt by done. simpl. by rewrite lookup_total_lt.
  - rewrite lookup_seq_ge by lia. simpl. symmetry. apply lookup_ge_None. lia.
Qed.

Lemma closed_edges_NoDup (path : list nat) : NoDup path → NoDup (closed_edges path).
Proof.
  intros Hnd. apply (NoDup_fmap_1 fst). by rewrite closed_edges_fst.
Qed.

Lemma NoDup_lookup_total (path : list nat) (i j : nat) :
  NoDup path → i < length path → j < length path →
  path !!! i = path !!! j → i = j.
Proof.
  intros Hnd Hi Hj Heq.
  eapply NoDup_lookup; [done|by apply lookup_total_lt|].
  rewrite Heq. by apply lookup_total_lt.
Qed.

(** On a tour of three nodes or more without a repeated node, the
    reverse of an edge is not an edge. *)
Lemma closed_edges_reverse (path : list nat) (a b : nat) :
  NoDup path → 3 ≤ length path →
  (a, b) ∈ closed_edges path → (b, a) ∉ closed_edges path.
Proof.
  intros Hnd Hlen Hab Hba.
  apply closed_edges_elem in Hab as (i & Hi & Hia & Hib).
  apply closed_edges_elem in Hba as (k & Hk & Hkb & Hka).
  assert ((i + 1) mod length path < length path) as Hi' by (apply Nat.mod_upper_bound; lia).
  assert ((k + 1) mod length path < length path) as Hk' by (apply Nat.mod_upper_bound; lia).
  assert (k = (i + 1) mod length path) as Hk1.
  { apply (NoDup_lookup_total path); [done..|]. by rewrite Hkb, Hib. }
  assert (i = (k + 1) mod length path) as Hi1.
  { apply (NoDup_lookup_total path); [done..|]. by rewrite Hia, Hka. }
  destruct (decide (i + 1 < length path)) as [Hs|Hs].
  - rewrite (Nat.mod_small (i + 1)) in Hk1 by done. subst k.
    destruct (decide (i + 1 + 1 < length path)) as [Hs'|Hs'].
    + rewrite Nat.mod_small in Hi1 by done. lia.
    + assert (i + 1 + 1 = length path) as Hn by lia.
      rewrite Hn, Nat.Div0.mod_same in Hi1. lia.
  - assert (i + 1 = length path) as Hn by lia.
    rewrite Hn, Nat.Div0.mod_same in Hk1. subst k.
    rewrite Nat.mod_small in Hi1 by lia. lia.
Qed.

Lemma reinforce_lookup (path : list nat) (q : R) (len : xreal)
  (ph : gmap (nat * nat) R) (k : nat * nat) :
  NoDup path → xlt (Fin 0) len →
  reinforce path q len ph !! k
  = if decide (k ∈ closed_edges path)
    then (fun tau => tau + div_by q len)%R <$> ph !! k else ph !! k.
Proof.
  intros Hnd Hlen. unfold reinforce.
  destruct (xlt_dec (Fin 0) len) as [_|Hn]; [|done].
  by apply deposits_lookup, closed_edges_NoDup.
Qed.

(** C4 as the specification words it, on the two-node tour [[0; 1]]: the
    wrap-around edge [(1, 0)] is the reverse of the edge [(0, 1)], and its
    entry is reinforced like any other edge of the tour. *)
Lemma reinforce_reverse_two_nodes :
  (0, 1) ∈ closed_edges [0; 1]
  ∧ xlt (Fin 0) (Fin 10)
  ∧ Interactive.initialize_pheromones 2 !! (1, 0) = Some 0.1%R
  ∧ reinforce [0; 1] 100 (Fin 10) (Interactive.initialize_pheromones 2) !! (1, 0)
    = Some (0.1 + 100 / 10)%R
  ∧ reinforce [0; 1] 100 (Fin 10) (Interactive.initialize_pheromones 2) !! (1, 0)
    ≠ Interactive.initialize_pheromones 2 !! (1, 0).
Proof.
  assert (NoDup [0; 1]) as Hnd by apply (NoDup_seq 0 2).
  assert (xlt (Fin 0) (Fin 10)) as Hlen by (simpl; lra).
  assert (Interactive.initialize_pheromones 2 !! (1, 0) = Some 0.1%R) as Hinit.
  { unfold Interactive.initialize_pheromones. rewrite fill_table_lookup.
    rewrite decide_True; [done|lia]. }
  assert (reinforce [0; 1] 100 (Fin 10) (Interactive.initialize_pheromones 2) !! (1, 0)
          = Some (0.1 + 100 / 10)%R) as Hnew.
  { rewrite reinforce_lookup by done. rewrite decide_True.
    - by rewrite Hinit.
    - apply closed_edges_elem. exists 1. simpl. split_and!; [lia|done..]. }
  split_and!; [|done|done|done|].
  - apply closed_edges_elem. exists 0. simpl. split_and!; [lia|done..].
  - rewrite Hnew, Hinit. intros [= H]. lra.
Qed.

(** C4, amended.  One reinforcement with a tour without a repeated node,
    an amount [q] and a length [L > 0] (finite or infinite, [q / inf]
    being [0]): for every edge [(a, b)] of the closed tour, wrap-around
    edge included, the entry [(a, b)], when the table has one, is its
    former value plus [q / L]; the reverse entry [(b, a)] is unchanged as
    soon as the tour has three nodes; and every entry whose ordered pair is
    not an edge of the tour is unchanged. *)
Theorem reinforce_targets_tour (path : list nat) (q : R) (len : xreal)
  (ph : gmap (nat * nat) R) (a b : nat) :
  NoDup path → xlt (Fin 0) len → (a, b) ∈ closed_edges path →
  reinforce path q len ph !! (a, b) = (fun tau => tau + div_by q len)%R <$> ph !! (a, b)
  ∧ (3 ≤ length path → reinforce path q len ph !! (b, a) = ph !! (b, a))
  ∧ (∀ e, e ∉ closed_edges path → reinforce path q len ph !! e = ph !! e).
Proof.
  intros Hnd Hlen Hab. split_and!.
  - rewrite reinforce_lookup by done. by rewrite decide_True.
  - intros H3. rewrite reinforce_lookup by done.
    rewrite decide_False; [done|]. by apply closed_edges_reverse.
  - intros e He. rewrite reinforce_lookup by done. by rewrite decide_False.
Qed.

Lemma reinforce_targets_tour_witness :
  reinforce [0; 1; 2] 100 (Fin 10) (Interactive.initialize_pheromones 3) !! (0, 1)
  = (fun tau => tau + div_by 100 (Fin 10))%R <$> Interactive.initialize_pheromones 3 !! (0, 1).
Proof.
  apply (reinforce_targets_tour [0; 1; 2] 100 (Fin 10)
           (Interactive.initialize_pheromones 3) 0 1).
  - apply (NoDup_seq 0 3).
  - simpl. lra.
  - apply closed_edges_elem. exists 0. simpl. split_and!; [lia|done..].
Defined.

(** *** Positivity *)

Lemma evaporate_lookup (rho : R) (ph : gmap (nat * nat) R) (k : nat * nat) :
  evaporate rho ph !! k = (fun tau => tau * (1 - rho))%R <$> ph !! k.
Proof. unfold evaporate. apply lookup_fmap. Qed.

Lemma evaporate_positive (rho : R) (ph : gmap (nat * nat) R) :
  (0 <= rho < 1)%R → positive_table ph → positive_table (evaporate rho ph).
Proof.
  intros Hrho Hph k tau. rewrite evaporate_lookup.
  destruct (ph !! k) as [tau0|] eqn:Hk; [|done].
  intros [= <-]. apply Hph in Hk. apply Rmult_lt_0_compat; lra.
Qed.

Lemma deposit_positive (amount : R) (ph : gmap (nat * nat) R) (e : nat * nat) :
  (0 <= amount)%R → positive_table ph → positive_table (deposit amount ph e).
Proof.
  intros Ha Hph k tau. rewrite deposit_lookup.
  case_decide; [|apply Hph].
  destruct (ph !! k) as [tau0|] eqn:Hk; [|done].
  intros [= <-]. apply Hph in Hk. lra.
Qed.

Lemma deposit_is_Some (amount : R) (ph : gmap (nat * nat) R) (e k : nat * nat) :
  is_Some (deposit amount ph e !! k) ↔ is_Some (ph !! k).
Proof.
  rewrite deposit_lookup. case_decide; [|done]. apply fmap_is_Some.
Qed.

Lemma div_by_nonneg (q : R) (len : xreal) :
  (0 <= q)%R → xlt (Fin 0) len → (0 <= div_by q len)%R.
Proof.
  intros Hq Hlen. destruct len as [l|]; simpl in *; [|lra].
  apply Rmult_le_pos; [done|]. apply Rlt_le, Rinv_0_lt_compat, Hlen.
Qed.

Lemma reinforce_positive (path : list nat) (q : R) (len : xreal)
  (ph : gmap (nat * nat) R) :
  (0 <= q)%R → positive_table ph → positive_table (reinforce path q len ph).
Proof.
  intros Hq. unfold reinforce. destruct (xlt_dec (Fin 0) len) as [Hlen|_]; [|done].
  pose proof (div_by_nonneg q len Hq Hlen) as Ha.
  generalize (closed_edges path) as es. intros es. revert ph.
  induction es as [|e es IH]; intros ph Hph; [done|].
  cbn [foldl]. apply IH. by apply deposit_positive.
Qed.

Lemma reinforce_is_Some (path : list nat) (q : R) (len : xreal)
  (ph : gmap (nat * nat) R) (k : nat * nat) :
  is_Some (reinforce path q len ph !! k) ↔ is_Some (ph !! k).
Proof.
  unfold reinforce. destruct (xlt_dec (Fin 0) len) as [_|_]; [|done].
  generalize (closed_edges path) as es. intros es. revert ph.
  induction es as [|e es IH]; intros ph; [done|].
  cbn [foldl]. rewrite IH. apply deposit_is_Some.
Qed.

Lemma run_call_positive (c : trail_call) (ph : gmap (nat * nat) R) :
  valid_call c → positive_table ph → positive_table (run_call ph c).
Proof.
  destruct c as [rho|path q len]; simpl.
  - apply evaporate_positive.
  - apply reinforce_positive.
Qed.

Lemma run_call_is_Some (c : trail_call) (ph : gmap (nat * nat) R) (k : nat * nat) :
  is_Some (run_call ph c !! k) ↔ is_Some (ph !! k).
Proof.
  destruct c as [rho|path q len]; simpl.
  - rewrite evaporate_lookup. apply fmap_is_Some.
  - apply reinforce_is_Some.
Qed.

Lemma initialize_pheromones_lookup (n a b : nat) :
  Interactive.initialize_pheromones n !! (a, b)
  = if decide (a < n ∧ b < n ∧ a ≠ b) then Some 0.1%R else None.
Proof. apply fill_table_lookup. Qed.

Lemma initialize_pheromones_positive (n : nat) :
  positive_table (Interactive.initialize_pheromones n).
Proof.
  intros [a b] tau. rewrite initialize_pheromones_lookup.
  case_decide; [|done]. intros [= <-]. lra.
Qed.

(** C5.  The table starts with [0.1] at every ordered pair [(i, j)],
    [i <> j], of the [n] nodes, and after any list of evaporations with a
    rate in [[0, 1)] and reinforcements with an amount [q >= 0], in exact
    arithmetic, it has the entries it started with, no less and no more,
    and every one of them is strictly positive. *)
Theorem pheromone_stays_positive (n : nat) (calls : list trail_call) :
  Forall valid_call calls →
  let start := Interactive.initialize_pheromones n in
  let final := run_calls calls start in
  (∀ i j, i < n → j < n → i ≠ j → start !! (i, j) = Some 0.1%R)
  ∧ (∀ k, is_Some (final !! k) ↔ is_Some (start !! k))
  ∧ (∀ k tau, final !! k = Some tau → (0 < tau)%R).
Proof.
  intros Hcalls. cbv zeta. split_and!.
  - intros i j Hi Hj Hne. rewrite initialize_pheromones_lookup. by rewrite decide_True.
  - unfold run_calls. generalize (Interactive.initialize_pheromones n) as ph.
    clear Hcalls. induction calls as [|c calls IH]; intros ph k; [done|].
    cbn [foldl]. rewrite IH. apply run_call_is_Some.
  - unfold run_calls.
    pose proof (initialize_pheromones_positive n) as Hpos. revert Hpos.
    generalize (Interactive.initialize_pheromones n) as ph.
    induction Hcalls as [|c calls Hc Hcalls IH]; intros ph Hpos; [done|].
    cbn [foldl]. apply IH. by apply run_call_positive.
Qed.

Lemma pheromone_stays_positive_witness :
  Forall valid_call [Evaporate 0.1; Reinforce [0; 1; 2] 100 (Fin 10); Evaporate 0.5]
  ∧ is_Some
      (run_calls [Evaporate 0.1; Reinforce [0; 1; 2] 100 (Fin 10); Evaporate 0.5]
         (Interactive.initialize_pheromones 3) !! (0, 1)).
Proof.
  assert (Forall valid_call
            [Evaporate 0.1; Reinforce [0; 1; 2] 100 (Fin 10); Evaporate 0.5]) as Hv.
  { repeat apply Forall_cons_2; [simpl; lra..|apply Forall_nil_2]. }
  split; [done|].
  destruct (pheromone_stays_positive 3 _ Hv) as (Hstart & Hdom & _).
  apply Hdom. rewrite Hstart by lia. by eexists.
Defined.

(** ** The random choices *)

Lemma choice_elem (l : list nat) (g : rng) (x : nat) (g' : rng) :
  choice l g = Done (x, g') → x ∈ l.
Proof.
  unfold choice. destruct l as [|y l]; [done|].
  destruct (draw g) as [k g1]. generalize (y :: l) (k mod length (y :: l))
    (Nat.mod_upper_bound k (length (y :: l)) (Nat.neq_succ_0 _)).
  intros l0 i Hi [= <- _]. by apply list_elem_of_lookup_total_2.
Qed.

Lemma choice_done (l : list nat) (g : rng) :
  l ≠ [] → ∃ x g', choice l g = Done (x, g').
Proof.
  intros Hl. unfold choice. destruct l as [|y l]; [done|].
  destruct (draw g) as [k g1]. eauto.
Qed.

Lemma choices_float_elem (population : list nat) (weights : list R) (g : rng)
  (x : nat) (g' : rng) :
  choices_float population weights g = Done (x, g') → x ∈ population.
Proof.
  unfold choices_float. case_decide; [done|].
  destruct (last (accumulate weights)) as [total|]; [|done].
  destruct (Rle_dec total 0); [done|].
  destruct (random g) as [r g1].
  destruct (population !! _) as [y|] eqn:Hy; [|done].
  intros [= <- _]. by eapply list_elem_of_lookup_2.
Qed.

Lemma choices_elem (population : list nat) (weights : list pyval) (g : rng)
  (x : nat) (g' : rng) :
  choices population weights g = Done (x, g') → x ∈ population.
Proof.
  unfold choices. case_decide; [done|].
  destruct (floats_of weights) as [ws|]; [|done]. apply choices_float_elem.
Qed.

Lemma floats_of_fmap (ws : list R) : floats_of (Float <$> ws) = Some ws.
Proof.
  induction ws as [|w ws IH]; [done|].
  cbn [fmap list_fmap floats_of]. fold (Float <$> ws). by rewrite IH.
Qed.

Lemma bisect_loop_le (fuel : nat) (a : list R) (x : R) (lo hi : nat) :
  lo ≤ hi → bisect_loop fuel a x lo hi ≤ hi.
Proof.
  revert lo hi. induction fuel as [|fuel IH]; intros lo hi Hle;
    cbn [bisect_loop]; [done|].
  case_decide as Hlt; [|done]. cbv zeta.
  assert (lo ≤ (lo + hi) / 2 ∧ (lo + hi) / 2 < hi) as [Hl Hh].
  { split.
    - apply Nat.div_le_lower_bound; lia.
    - apply Nat.Div0.div_lt_upper_bound; lia. }
  destruct (Rlt_dec x (a !!! ((lo + hi) / 2))).
  - etrans; [apply IH; lia|lia].
  - apply IH. lia.
Qed.

Lemma length_accumulate_from (acc : R) (ws : list R) :
  length (accumulate_from acc ws) = length ws.
Proof.
  revert acc. induction ws as [|w ws IH]; intros acc; simpl; [done|].
  by rewrite IH.
Qed.

Lemma last_accumulate_from (acc w : R) (ws : list R) :
  last (accumulate_from acc (w :: ws)) = Some (fold_left Rplus (w :: ws) acc).
Proof.
  revert acc w. induction ws as [|w' ws IH]; intros acc w; [done|].
  change (accumulate_from acc (w :: w' :: ws))
    with ((acc + w)%R :: accumulate_from (acc + w)%R (w' :: ws)).
  rewrite last_cons, IH. done.
Qed.

Lemma fold_left_normalized (total acc : R) (ps : list R) :
  fold_left Rplus ((fun p => p / total)%R <$> ps) (acc / total)%R
  = (fold_left Rplus ps acc / total)%R.
Proof.
  revert acc. induction ps as [|p ps IH]; intros acc; [done|].
  cbn [fmap list_fmap fold_left].
  replace (acc / total + p / total)%R with ((acc + p) / total)%R
    by (unfold Rdiv; ring).
  apply IH.
Qed.

Lemma last_accumulate_normalized (total : R) (probs : list R) :
  probs ≠ [] →
  last (accumulate ((fun p => p / total)%R <$> probs))
  = Some (fold_left Rplus probs 0 / total)%R.
Proof.
  destruct probs as [|p ps]; [done|]. intros _. unfold accumulate.
  rewrite fmap_cons, last_accumulate_from. f_equal. cbn [fold_left].
  replace (0 + p / total)%R with ((0 + p) / total)%R by (unfold Rdiv; ring).
  apply fold_left_normalized.
Qed.

(** The weighted choice of the builder does not raise: the normalised
    weights sum to one. *)
Lemma choices_normalized_done (population : list nat) (probs : list R) (g : rng) :
  population ≠ [] → length probs = length population →
  fold_left Rplus probs 0%R ≠ 0%R →
  ∃ x g', choices_float population
            ((fun p => p / fold_left Rplus probs 0)%R <$> probs) g = Done (x, g').
Proof.
  intros Hpop Hlen Htotal. unfold choices_float.
  rewrite last_accumulate_normalized by (intros ->; by destruct population).
  rewrite decide_False.
  2:{ intros H. apply H. unfold accumulate.
      by rewrite length_accumulate_from, length_fmap. }
  destruct (Rle_dec _ 0) as [Hle|_].
  { exfalso. unfold Rdiv in Hle. rewrite Rinv_r in Hle by done. lra. }
  destruct (random g) as [r g1].
  match goal with |- context [population !! ?i] =>
    destruct (lookup_lt_is_Some_2 population i) as [x Hx] end.
  { eapply Nat.le_lt_trans; [apply bisect_loop_le; lia|].
    destruct population; [done|]. simpl. lia. }
  rewrite Hx. eauto.
Qed.

(** ** One ant *)

Lemma bind_Done {A B : Type} (m : outcome A) (f : A → outcome B) (b : B) :
  m ≫= f = Done b → ∃ a, m = Done a ∧ f a = Done b.
Proof. destruct m as [a| |]; [|done..]. intros H. by exists a. Qed.

Lemma bind_Timeout {A B : Type} (m : outcome A) (f : A → outcome B) :
  m ≫= f = Timeout → m = Timeout ∨ ∃ a, m = Done a ∧ f a = Timeout.
Proof. destruct m as [a| |]; [|done|by left]. intros H. right. by exists a. Qed.

Lemma fmap_div_floats (total : R) (ws : list R) :
  (fun p => py_div p (Float total)) <$> (Float <$> ws)
  = Float <$> ((fun p => p / total)%R <$> ws).
Proof. induction ws as [|w ws IH]; [done|]. cbn [fmap list_fmap]. by f_equal. Qed.

Section ant_facts.
Variable weight : nat → nat → outcome pyval.
Variable n : nat.

Lemma transition_weights_inv (current : nat) (unvisited : list nat)
  (probs : list pyval) (total : pyval) (probs' : list pyval) (total' : pyval) :
  transition_weights weight current unvisited probs total = Done (probs', total') →
  ∃ ws, probs' = probs ++ ws ∧ length ws = length unvisited
        ∧ total' = foldl py_add total ws.
Proof.
  revert probs total. induction unvisited as [|node rest IH]; intros probs total.
  - intros [= <- <-]. exists []. by rewrite app_nil_r.
  - cbn [transition_weights]. intros (prob & Hw & H)%bind_Done.
    apply IH in H as (ws & -> & Hlen & ->).
    exists (prob :: ws). rewrite <- app_assoc. split_and!; [done|simpl; lia|done].
Qed.

Lemma transition_weights_done (current : nat) (unvisited : list nat)
  (probs : list pyval) (total : pyval) :
  (∀ v, v ∈ unvisited → ∃ w, weight current v = Done w) →
  ∃ r, transition_weights weight current unvisited probs total = Done r.
Proof.
  revert probs total. induction unvisited as [|node rest IH]; intros probs total Hw.
  - by eexists.
  - cbn [transition_weights].
    destruct (Hw node) as [w ->]; [by left|]. cbn.
    apply IH. intros v Hv. apply Hw. by right.
Qed.

(** Weights that are floats give floats: their list and their sum. *)
Lemma transition_weights_floats (current : nat) (unvisited : list nat)
  (probs : list R) (total : R) :
  (∀ v, v ∈ unvisited → ∃ w, weight current v = Done (Float w)) →
  ∃ ws, length ws = length unvisited
        ∧ transition_weights weight current unvisited (Float <$> probs) (Float total)
          = Done (Float <$> (probs ++ ws), Float (fold_left Rplus ws total)).
Proof.
  revert probs total. induction unvisited as [|node rest IH]; intros probs total Hw.
  - exists []. by rewrite app_nil_r.
  - cbn [transition_weights].
    destruct (Hw node) as [w ->]; [by left|]. cbn.
    destruct (IH (probs ++ [w]) (total + w)%R) as (ws & Hlen & Ht).
    { intros v Hv. apply Hw. by right. }
    exists (w :: ws). split; [simpl; lia|].
    rewrite fmap_app in Ht. cbn [fmap list_fmap] in Ht.
    rewrite Ht. by rewrite <- app_assoc.
Qed.

Lemma transition_weights_no_timeout (current : nat) (unvisited : list nat)
  (probs : list pyval) (total : pyval) :
  (∀ c v, weight c v ≠ Timeout) →
  transition_weights weight current unvisited probs total ≠ Timeout.
Proof.
  intros Hw. revert probs total.
  induction unvisited as [|node rest IH]; intros probs total; [done|].
  cbn [transition_weights]. intros [H|(a & _ & H)]%bind_Timeout.
  - by apply Hw in H.
  - by apply IH in H.
Qed.

Lemma next_node_elem (current : nat) (unvisited : list nat) (g : rng)
  (x : nat) (g' : rng) :
  next_node weight current unvisited g = Done (x, g') → x ∈ unvisited.
Proof.
  unfold next_node. intros ([probs total] & _ & H)%bind_Done.
  destruct (py_eq0 total).
  - by apply choice_elem in H.
  - by apply choices_elem in H.
Qed.

(** With weights that are floats the choice of the next node does not
    raise, in exact arithmetic. *)
Lemma next_node_done (current : nat) (unvisited : list nat) (g : rng) :
  unvisited ≠ [] →
  (∀ v, v ∈ unvisited → ∃ w, weight current v = Done (Float w)) →
  ∃ x g', next_node weight current unvisited g = Done (x, g').
Proof.
  intros Hne Hw. unfold next_node.
  destruct (transition_weights_floats current unvisited [] 0%R Hw) as (ws & Hlen & Ht).
  cbn [fmap list_fmap app] in Ht. rewrite Ht. cbn.
  destruct (Req_dec_T (fold_left Rplus ws 0%R) 0%R) as [_|Hnz].
  - by apply choice_done.
  - unfold choices. rewrite fmap_div_floats.
    rewrite decide_False by (rewrite !length_fmap; lia).
    rewrite floats_of_fmap. by apply choices_normalized_done.
Qed.

Lemma choice_no_timeout (l : list nat) (g : rng) : choice l g ≠ Timeout.
Proof. unfold choice. destruct l; [done|]. by destruct (draw g). Qed.

Lemma choices_float_no_timeout (population : list nat) (weights : list R) (g : rng) :
  choices_float population weights g ≠ Timeout.
Proof.
  unfold choices_float. case_decide; [done|].
  destruct (last (accumulate weights)); [|done].
  destruct (Rle_dec _ 0); [done|]. destruct (random g).
  by destruct (population !! _).
Qed.

Lemma choices_no_timeout (population : list nat) (weights : list pyval) (g : rng) :
  choices population weights g ≠ Timeout.
Proof.
  unfold choices. case_decide; [done|].
  destruct (floats_of weights); [|done]. apply choices_float_no_timeout.
Qed.

Lemma next_node_no_timeout (current : nat) (unvisited : list nat) (g : rng) :
  (∀ c v, weight c v ≠ Timeout) →
  next_node weight current unvisited g ≠ Timeout.
Proof.
  intros Hw. unfold next_node. intros [H|([probs total] & _ & H)]%bind_Timeout.
  - by apply transition_weights_no_timeout in H.
  - destruct (py_eq0 total).
    + by apply choice_no_timeout in H.
    + by apply choices_no_timeout in H.
Qed.

End ant_facts.

Section loop_invariant.
Variable n : nat.

Lemma unvisited_of_elem (visited : gset nat) (x : nat) :
  x ∈ unvisited_of n visited ↔ x < n ∧ x ∉ visited.
Proof.
  unfold unvisited_of. rewrite list_elem_of_filter, elem_of_seq. intuition lia.
Qed.

Lemma walk_inv_size (visited : gset nat) (path : list nat) :
  walk_inv n visited path → size visited = length path.
Proof. intros (-> & Hnd & _). by apply size_list_to_set. Qed.

Lemma walk_inv_step (visited : gset nat) (path : list nat) (next : nat) :
  walk_inv n visited path → next ∈ unvisited_of n visited →
  walk_inv n ({[next]} ∪ visited) (path ++ [next]).
Proof.
  intros (-> & Hnd & Hlt) [Hn Hnv]%unvisited_of_elem. split_and!.
  - rewrite list_to_set_app_L, (comm_L (∪)). simpl. by rewrite (right_id_L ∅ (∪)).
  - apply NoDup_app. split_and!; [done| |apply NoDup_singleton].
    intros x Hx ->%list_elem_of_singleton. apply Hnv. by apply elem_of_list_to_set.
  - intros x [Hx| ->%list_elem_of_singleton]%elem_of_app; [by apply Hlt|done].
Qed.

Lemma walk_inv_start (current : nat) :
  current < n → walk_inv n {[current]} [current].
Proof.
  intros Hc. split_and!.
  - simpl. by rewrite (right_id_L ∅ (∪)).
  - apply NoDup_singleton.
  - by intros x ->%list_elem_of_singleton.
Qed.

(** A path that passes the test of the loop, or its [break], has every
    node. *)
Lemma walk_inv_full (visited : gset nat) (path : list nat) :
  walk_inv n visited path →
  ¬ size visited < n ∨ unvisited_of n visited = [] →
  path ≡ₚ seq 0 n.
Proof.
  intros Hinv Hexit. pose proof (walk_inv_size _ _ Hinv) as Hsize.
  destruct Hinv as (-> & Hnd & Hlt).
  apply NoDup_Permutation; [done|apply NoDup_seq|].
  intros x. rewrite elem_of_seq. split; [intros Hx; apply Hlt in Hx; lia|].
  intros [_ Hx]. simpl in Hx.
  destruct Hexit as [Hfull|Hempty].
  - assert (path ⊆+ seq 0 n) as Hsub.
    { apply NoDup_submseteq; [done|]. intros y Hy. apply elem_of_seq.
      apply Hlt in Hy. lia. }
    apply submseteq_length_Permutation in Hsub; [|rewrite length_seq; lia].
    rewrite Hsub. apply elem_of_seq. lia.
  - destruct (decide (x ∈ path)) as [|Hnx]; [done|]. exfalso.
    assert (x ∈ unvisited_of n (list_to_set path)) as Hin.
    { apply unvisited_of_elem. split; [done|]. by rewrite elem_of_list_to_set. }
    rewrite Hempty in Hin. by apply elem_of_nil in Hin.
Qed.

(** While the test of the loop holds, a node is left to visit. *)
Lemma unvisited_of_nonempty (visited : gset nat) (path : list nat) :
  walk_inv n visited path → size visited < n → unvisited_of n visited ≠ [].
Proof.
  intros Hinv Hsize Hempty.
  pose proof (walk_inv_size _ _ Hinv) as Hlen.
  assert (path ≡ₚ seq 0 n) as Hperm by (apply (walk_inv_full visited); auto).
  apply Permutation_length in Hperm. rewrite length_seq in Hperm. lia.
Qed.
End loop_invariant.

Section walk_facts.
Variable weight : nat → nat → outcome pyval.
Variable n : nat.

Lemma walk_unfold (fuel : nat) (visited : gset nat) (path : list nat)
  (current : nat) (g : rng) :
  walk weight n fuel visited path current g
  = if decide (size visited < n) then
      match unvisited_of n visited with
      | [] => Done (path, g)
      | unvisited =>
          match fuel with
          | 0 => Timeout
          | S fuel' =>
              '(next, g') ← next_node weight current unvisited g;
              walk weight n fuel' ({[next]} ∪ visited) (path ++ [next]) next g'
          end
      end
    else Done (path, g).
Proof. by destruct fuel. Qed.

(** A tour that the loop returns is a permutation of [range(n)]. *)
Lemma walk_permutation (fuel : nat) (visited : gset nat) (path : list nat)
  (current : nat) (g : rng) (p : list nat) (g' : rng) :
  walk_inv n visited path →
  walk weight n fuel visited path current g = Done (p, g') →
  p ≡ₚ seq 0 n.
Proof.
  revert visited path current g.
  induction fuel as [|fuel IH]; intros visited path current g Hinv;
    rewrite walk_unfold.
  - case_decide as Hsize.
    + destruct (unvisited_of n visited) eqn:Hu; [|done].
      intros [= <- _]. apply (walk_inv_full n visited); auto.
    + intros [= <- _]. apply (walk_inv_full n visited); auto.
  - case_decide as Hsize.
    + destruct (unvisited_of n visited) as [|u us] eqn:Hu.
      * intros [= <- _]. apply (walk_inv_full n visited); auto.
      * intros ([next g1] & Hnext & Hwalk)%bind_Done.
        apply next_node_elem in Hnext. rewrite <- Hu in Hnext.
        eapply IH; [|done]. by apply walk_inv_step.
    + intros [= <- _]. apply (walk_inv_full n visited); auto.
Qed.

(** A tour that the loop returns has taken a pass for every node that
    was left to visit. *)
Lemma walk_passes (fuel : nat) (visited : gset nat) (path : list nat)
  (current : nat) (g : rng) (p : list nat) (g' : rng) :
  walk_inv n visited path →
  walk weight n fuel visited path current g = Done (p, g') →
  n - size visited ≤ fuel.
Proof.
  revert visited path current g.
  induction fuel as [|fuel IH]; intros visited path current g Hinv;
    rewrite walk_unfold.
  - case_decide as Hsize; [|lia].
    pose proof (unvisited_of_nonempty n visited path Hinv Hsize) as Hne.
    by destruct (unvisited_of n visited).
  - case_decide as Hsize; [|lia].
    pose proof (unvisited_of_nonempty n visited path Hinv Hsize) as Hne.
    destruct (unvisited_of n visited) as [|u us] eqn:Hu; [done|].
    intros ([next g1] & Hnext & Hwalk)%bind_Done.
    apply next_node_elem in Hnext. rewrite <- Hu in Hnext.
    pose proof (walk_inv_step n visited path next Hinv Hnext) as Hinv'.
    apply IH in Hwalk; [|done].
    rewrite (walk_inv_size n _ _ Hinv') in Hwalk.
    rewrite (walk_inv_size n _ _ Hinv). rewrite length_app in Hwalk.
    simpl in Hwalk. lia.
Qed.

(** A pass for every node that is left to visit is enough. *)
Lemma walk_no_timeout (fuel : nat) (visited : gset nat) (path : list nat)
  (current : nat) (g : rng) :
  (∀ c v, weight c v ≠ Timeout) →
  walk_inv n visited path → n - size visited ≤ fuel →
  walk weight n fuel visited path current g ≠ Timeout.
Proof.
  intros Hw. revert visited path current g.
  induction fuel as [|fuel IH]; intros visited path current g Hinv Hfuel;
    rewrite walk_unfold.
  - rewrite decide_False by lia. done.
  - case_decide as Hsize; [|done].
    destruct (unvisited_of n visited) as [|u us] eqn:Hu; [done|].
    intros [H|([next g1] & Hnext & Hwalk)]%bind_Timeout.
    + by apply next_node_no_timeout in H.
    + apply next_node_elem in Hnext. rewrite <- Hu in Hnext.
      pose proof (walk_inv_step n visited path next Hinv Hnext) as Hinv'.
      apply IH in Hwalk; [done|done|].
      rewrite (walk_inv_size n _ _ Hinv'), length_app.
      rewrite (walk_inv_size n _ _ Hinv) in Hfuel. simpl. lia.
Qed.

(** More fuel than the loop needs does not change what it returns. *)
Lemma walk_fuel_mono (fuel fuel' : nat) (visited : gset nat) (path : list nat)
  (current : nat) (g : rng) :
  fuel ≤ fuel' →
  walk weight n fuel visited path current g ≠ Timeout →
  walk weight n fuel' visited path current g
  = walk weight n fuel visited path current g.
Proof.
  revert fuel' visited path current g.
  induction fuel as [|fuel IH]; intros fuel' visited path current g Hle;
    rewrite !(walk_unfold _ visited).
  - case_decide; [|done]. by destruct (unvisited_of n visited).
  - destruct fuel' as [|fuel']; [lia|].
    case_decide; [|done]. destruct (unvisited_of n visited) as [|u us]; [done|].
    destruct (next_node weight current (u :: us) g) as [[next g1]| |]; [|done..].
    cbn. apply IH. lia.
Qed.

(** When no weight raises, the loop returns. *)
Lemma walk_done (fuel : nat) (visited : gset nat) (path : list nat)
  (current : nat) (g : rng) :
  (∀ c v, c < n → v < n → ∃ w, weight c v = Done (Float w)) →
  walk_inv n visited path → current < n → n - size visited ≤ fuel →
  ∃ p g', walk weight n fuel visited path current g = Done (p, g').
Proof.
  intros Hw. revert visited path current g.
  induction fuel as [|fuel IH]; intros visited path current g Hinv Hc Hfuel;
    rewrite walk_unfold.
  - rewrite decide_False by lia. eauto.
  - case_decide as Hsize; [|eauto].
    destruct (unvisited_of n visited) as [|u us] eqn:Hu; [eauto|].
    destruct (next_node_done weight current (u :: us) g) as (next & g1 & Hnext);
      [done| |].
    { intros v Hv. rewrite <- Hu in Hv. apply unvisited_of_elem in Hv as [Hv _].
      by apply Hw. }
    rewrite Hnext. cbn.
    apply next_node_elem in Hnext. rewrite <- Hu in Hnext.
    pose proof (walk_inv_step n visited path next Hinv Hnext) as Hinv'.
    apply IH; [done| |].
    + by apply unvisited_of_elem in Hnext as [? _].
    + rewrite (walk_inv_size n _ _ Hinv'), length_app.
      rewrite (walk_inv_size n _ _ Hinv) in Hfuel. simpl. lia.
Qed.

Lemma randint0_lt (g : rng) (current : nat) (g' : rng) :
  randint0 n g = Done (current, g') → current < n.
Proof.
  unfold randint0. destruct n as [|m]; [done|].
  destruct (draw g) as [k g1]. intros [= <- _].
  exact (Nat.mod_upper_bound k (S m) (Nat.neq_succ_0 m)).
Qed.

Lemma randint0_done (g : rng) :
  1 ≤ n → ∃ current g', randint0 n g = Done (current, g').
Proof.
  intros Hn. unfold randint0. destruct n as [|m]; [lia|].
  destruct (draw g) as [k g1]. eauto.
Qed.

Lemma size_start (current : nat) : size ({[current]} : gset nat) = 1.
Proof. apply size_singleton. Qed.

Lemma construct_within_permutation (fuel : nat) (g : rng) (p : list nat) (g' : rng) :
  construct_within weight n fuel g = Done (p, g') → p ≡ₚ seq 0 n.
Proof.
  unfold construct_within. intros ([current g1] & Hr & Hwalk)%bind_Done.
  apply randint0_lt in Hr.
  eapply walk_permutation; [|done]. by apply walk_inv_start.
Qed.

Lemma construct_within_passes (fuel : nat) (g : rng) (p : list nat) (g' : rng) :
  construct_within weight n fuel g = Done (p, g') → n - 1 ≤ fuel.
Proof.
  unfold construct_within. intros ([current g1] & Hr & Hwalk)%bind_Done.
  apply randint0_lt in Hr.
  apply walk_passes in Hwalk; [|by apply walk_inv_start].
  by rewrite size_start in Hwalk.
Qed.

Lemma construct_within_no_timeout (fuel : nat) (g : rng) :
  (∀ c v, weight c v ≠ Timeout) → n - 1 ≤ fuel →
  construct_within weight n fuel g ≠ Timeout.
Proof.
  intros Hw Hfuel. unfold construct_within.
  intros [H|([current g1] & Hr & Hwalk)]%bind_Timeout.
  - unfold randint0 in H. destruct n; [done|]. by destruct (draw g).
  - apply randint0_lt in Hr.
    apply walk_no_timeout in Hwalk; [done|done|by apply walk_inv_start|].
    by rewrite size_start.
Qed.

Lemma construct_within_mono (fuel fuel' : nat) (g : rng) :
  fuel ≤ fuel' →
  construct_within weight n fuel g ≠ Timeout →
  construct_within weight n fuel' g = construct_within weight n fuel g.
Proof.
  intros Hle. unfold construct_within.
  destruct (randint0 n g) as [[current g1]| |]; [|done..].
  cbn. by apply walk_fuel_mono.
Qed.

Lemma construct_within_done (fuel : nat) (g : rng) :
  (∀ c v, c < n → v < n → ∃ w, weight c v = Done (Float w)) →
  1 ≤ n → n - 1 ≤ fuel →
  ∃ p g', construct_within weight n fuel g = Done (p, g').
Proof.
  intros Hw Hn Hfuel. unfold construct_within.
  destruct (randint0_done g Hn) as (current & g1 & Hr). rewrite Hr. cbn.
  apply randint0_lt in Hr.
  apply walk_done; [done|by apply walk_inv_start|done|].
  by rewrite size_start.
Qed.
End walk_facts.

(** ** The weight of a transition *)

Lemma Int_part_IZR (k : Z) : Int_part (IZR k) = k.
Proof. symmetry. apply Int_part_spec. lra. Qed.

Lemma DBL_MAX_large : (1000000 <= DBL_MAX)%R.
Proof.
  unfold DBL_MAX.
  assert (1 <= 2 ^ 971)%R as H1 by (apply pow_R1_Rle; lra).
  assert (1000000 <= 2 ^ 53 - 1)%R as H2 by (simpl; lra).
  nra.
Qed.

Lemma DBL_MAX_pos : (0 < DBL_MAX)%R.
Proof. pose proof DBL_MAX_large. lra. Qed.

(** A positive base gives a float, unless the power overflows. *)
Lemma float_pow_pos_done (x y : R) :
  (0 < x)%R → (Rpower x y <= DBL_MAX)%R →
  float_pow x y = Done (Float (Rpower x y)).
Proof.
  intros Hx Hmax. unfold float_pow. destruct (Rlt_dec 0 x); [|done].
  destruct (Rlt_dec DBL_MAX (Rpower x y)); [lra|done].
Qed.

Lemma float_pow_pos_overflow (x y : R) :
  (0 < x)%R → (DBL_MAX < Rpower x y)%R →
  float_pow x y = Raise OverflowError.
Proof.
  intros Hx Hmax. unfold float_pow. destruct (Rlt_dec 0 x); [|done].
  destruct (Rlt_dec DBL_MAX (Rpower x y)); [done|lra].
Qed.

Lemma float_pow_zero (y : R) : (0 < y)%R → float_pow 0 y = Done (Float 0).
Proof.
  intros Hy. unfold float_pow. destruct (Rlt_dec 0 0); [lra|].
  destruct (Req_dec_T 0 0); [|done]. by destruct (Rlt_dec 0 y).
Qed.

Lemma float_pow_not_KeyError (x y : R) : float_pow x y ≠ Raise KeyError.
Proof.
  unfold float_pow.
  repeat match goal with |- context [if ?c then _ else _] => destruct c end; done.
Qed.

Lemma float_pow_no_timeout (x y : R) : float_pow x y ≠ Timeout.
Proof.
  unfold float_pow.
  repeat match goal with |- context [if ?c then _ else _] => destruct c end; done.
Qed.

Lemma float_inv_done (d : R) : d ≠ 0%R → float_inv d = Done (1 / d)%R.
Proof. intros Hd. unfold float_inv. by destruct (Req_dec_T d 0). Qed.

Lemma float_inv_zero : float_inv 0 = Raise ZeroDivisionError.
Proof. unfold float_inv. by destruct (Req_dec_T 0 0). Qed.

Lemma weight_formula_not_KeyError (tau d alpha beta : R) :
  weight_formula tau d alpha beta ≠ Raise KeyError.
Proof.
  unfold weight_formula.
  pose proof (float_pow_not_KeyError tau alpha) as Hx.
  pose proof (float_pow_not_KeyError (1 / d) beta) as Hy.
  destruct (float_pow tau alpha) as [x|e|]; cbn; [|congruence|done].
  destruct (float_pow (1 / d) beta) as [y|e|]; cbn; [done|congruence|done].
Qed.

Lemma weight_formula_no_timeout (tau d alpha beta : R) :
  weight_formula tau d alpha beta ≠ Timeout.
Proof.
  unfold weight_formula.
  pose proof (float_pow_no_timeout tau alpha) as Hx.
  pose proof (float_pow_no_timeout (1 / d) beta) as Hy.
  destruct (float_pow tau alpha) as [x|e|]; cbn; [|done..].
  by destruct (float_pow (1 / d) beta) as [y|e|].
Qed.

Lemma calculate_transition_prob_same (ph dist : gmap (nat * nat) R) (c : nat)
  (alpha beta : R) :
  Interactive.calculate_transition_prob ph dist c c alpha beta = Done (Float 0).
Proof. unfold Interactive.calculate_transition_prob. by rewrite decide_True. Qed.

Lemma calculate_transition_prob_present (ph dist : gmap (nat * nat) R) (c v : nat)
  (alpha beta tau d : R) :
  c ≠ v → ph !! (c, v) = Some tau → dist !! (c, v) = Some d → d ≠ 0%R →
  Interactive.calculate_transition_prob ph dist c v alpha beta
  = weight_formula tau d alpha beta.
Proof.
  intros Hne Hph Hd Hnz. unfold Interactive.calculate_transition_prob, getitem.
  rewrite decide_False by done. rewrite Hph, Hd. cbn.
  rewrite float_inv_done by done. cbn.
  pose proof (weight_formula_not_KeyError tau d alpha beta) as Hk.
  unfold weight_formula in *.
  destruct (float_pow tau alpha) as [x|e|]; cbn in *; [|by destruct e|done].
  destruct (float_pow (1 / d) beta) as [y|e|]; cbn in *; [done|by destruct e|done].
Qed.

Lemma calculate_transition_prob_absent (ph dist : gmap (nat * nat) R) (c v : nat)
  (alpha beta : R) :
  ph !! (c, v) = None ∨ dist !! (c, v) = None →
  Interactive.calculate_transition_prob ph dist c v alpha beta = Done (Float 0).
Proof.
  intros Habs. unfold Interactive.calculate_transition_prob, getitem.
  case_decide; [done|].
  destruct (ph !! (c, v)) as [tau|]; [|done]. cbn.
  destruct Habs as [Ha|Ha]; [done|by rewrite Ha].
Qed.

Lemma calculate_transition_prob_zero (ph dist : gmap (nat * nat) R) (c v : nat)
  (alpha beta tau : R) :
  c ≠ v → ph !! (c, v) = Some tau → dist !! (c, v) = Some 0%R →
  Interactive.calculate_transition_prob ph dist c v alpha beta
  = Raise ZeroDivisionError.
Proof.
  intros Hne Hph Hd. unfold Interactive.calculate_transition_prob, getitem.
  rewrite decide_False by done. rewrite Hph, Hd. cbn.
  by rewrite float_inv_zero.
Qed.

Lemma calculate_transition_prob_no_timeout (ph dist : gmap (nat * nat) R)
  (c v : nat) (alpha beta : R) :
  Interactive.calculate_transition_prob ph dist c v alpha beta ≠ Timeout.
Proof.
  destruct (decide (c = v)) as [->|Hne].
  { by rewrite calculate_transition_prob_same. }
  destruct (ph !! (c, v)) as [tau|] eqn:Hph;
    [|rewrite calculate_transition_prob_absent by auto; done].
  destruct (dist !! (c, v)) as [d|] eqn:Hd;
    [|rewrite calculate_transition_prob_absent by auto; done].
  destruct (Req_dec_T d 0) as [->|Hnz].
  - by erewrite calculate_transition_prob_zero.
  - erewrite calculate_transition_prob_present by done.
    apply weight_formula_no_timeout.
Qed.

Lemma transition_weight_same (ph dist : gmap (nat * nat) R) (alpha beta : R) (c : nat) :
  Headless.transition_weight ph dist alpha beta c c = Done (Float 0).
Proof. unfold Headless.transition_weight. by rewrite decide_True. Qed.

Lemma transition_weight_present (ph dist : gmap (nat * nat) R) (alpha beta : R)
  (c v : nat) (d : R) :
  c ≠ v → dist !! (c, v) = Some d → d ≠ 0%R →
  Headless.transition_weight ph dist alpha beta c v
  = weight_formula (default 0.1%R (ph !! (c, v))) d alpha beta.
Proof.
  intros Hne Hd Hnz. unfold Headless.transition_weight, getitem.
  rewrite decide_False by done. rewrite Hd. cbn.
  by rewrite float_inv_done.
Qed.

Lemma transition_weight_absent (ph dist : gmap (nat * nat) R) (alpha beta : R)
  (c v : nat) :
  c ≠ v → dist !! (c, v) = None →
  Headless.transition_weight ph dist alpha beta c v = Raise KeyError.
Proof.
  intros Hne Hd. unfold Headless.transition_weight, getitem.
  rewrite decide_False by done. by rewrite Hd.
Qed.

Lemma transition_weight_zero (ph dist : gmap (nat * nat) R) (alpha beta : R)
  (c v : nat) :
  c ≠ v → dist !! (c, v) = Some 0%R →
  Headless.transition_weight ph dist alpha beta c v = Raise ZeroDivisionError.
Proof.
  intros Hne Hd. unfold Headless.transition_weight, getitem.
  rewrite decide_False by done. rewrite Hd. cbn. by rewrite float_inv_zero.
Qed.

Lemma transition_weight_no_timeout (ph dist : gmap (nat * nat) R) (alpha beta : R)
  (c v : nat) :
  Headless.transition_weight ph dist alpha beta c v ≠ Timeout.
Proof.
  destruct (decide (c = v)) as [->|Hne].
  { by rewrite transition_weight_same. }
  destruct (dist !! (c, v)) as [d|] eqn:Hd;
    [|by rewrite transition_weight_absent].
  destruct (Req_dec_T d 0) as [->|Hnz].
  - by rewrite transition_weight_zero.
  - erewrite transition_weight_present by done.
    apply weight_formula_no_timeout.
Qed.

(** ** Coincident points *)

Section raising_weight.
Variable weight : nat → nat → outcome pyval.
Variable n : nat.
Variable e : exn.
Hypothesis weight_raises : ∀ c v, c < n → v < n → c ≠ v → weight c v = Raise e.

Lemma walk_raises (fuel : nat) (current : nat) (g : rng) :
  2 ≤ n → current < n → 1 ≤ fuel →
  walk weight n fuel {[current]} [current] current g = Raise e.
Proof.
  intros Hn Hc Hfuel. destruct fuel as [|fuel]; [lia|]. rewrite walk_unfold.
  rewrite decide_True by (rewrite size_singleton; lia).
  pose proof (unvisited_of_nonempty n {[current]} [current]
                (walk_inv_start n current Hc)) as Hne.
  rewrite size_singleton in Hne.
  destruct (unvisited_of n {[current]}) as [|u us] eqn:Hu; [by destruct Hne; [lia|]|].
  assert (u ∈ unvisited_of n {[current]}) as Hin by (rewrite Hu; by left).
  apply unvisited_of_elem in Hin as [Hlt Hnot].
  unfold next_node. cbn [transition_weights].
  rewrite weight_raises; [done|done|done|].
  intros ->. apply Hnot. by apply elem_of_singleton.
Qed.

Lemma construct_raises (g : rng) : 2 ≤ n → construct weight n g = Raise e.
Proof.
  intros Hn. unfold construct, construct_within.
  destruct (randint0_done n g) as (current & g1 & Hr); [lia|].
  rewrite Hr. cbn. apply randint0_lt in Hr.
  apply walk_raises; [done|done|lia].
Qed.
End raising_weight.

Lemma euclid_same (p : point) : euclid p p = 0%R.
Proof.
  destruct p as [[x y] z]. unfold euclid.
  replace ((x - x) * (x - x) + (y - y) * (y - y) + (z - z) * (z - z))%R
    with 0%R by ring.
  apply sqrt_0.
Qed.

Lemma coincident_distance (c v : nat) :
  c < 2 → v < 2 → c ≠ v →
  Headless.build_distance_matrix_cached [(0, 0, 0); (0, 0, 0)]%R !! (c, v)
  = Some 0%R.
Proof.
  intros Hc Hv Hne. rewrite build_distance_matrix_cached_lookup.
  rewrite decide_True by done. f_equal.
  destruct c as [|[|c]], v as [|[|v]]; try lia; apply euclid_same.
Qed.

Lemma build_paths_raises (weight : nat → nat → outcome pyval) (n ants : nat)
  (all_paths : list (list nat)) (g : rng) (e : exn) :
  construct weight n g = Raise e → 1 ≤ ants →
  build_paths weight n ants all_paths g = Raise e.
Proof.
  intros Hc Hants. destruct ants as [|ants]; [lia|].
  cbn [build_paths]. by rewrite Hc.
Qed.

Lemma iteration_raises (distances : gmap (nat * nat) R) (n : nat) (ants : Z)
  (alpha beta evaporation q : R) (st : Headless.colony) (e : exn) :
  construct (Headless.transition_weight (Headless.pheromone st) distances alpha beta)
    n (Headless.source st) = Raise e →
  (1 ≤ ants)%Z →
  Headless.iteration distances n ants alpha beta evaporation q st = Raise e.
Proof.
  intros Hc Hants. unfold Headless.iteration.
  rewrite (build_paths_raises _ _ _ _ _ e); [done|done|lia].
Qed.

Lemma iterate_raises (distances : gmap (nat * nat) R) (n : nat) (ants : Z)
  (alpha beta evaporation q : R) (iterations : nat) (st : Headless.colony) (e : exn) :
  Headless.iteration distances n ants alpha beta evaporation q st = Raise e →
  1 ≤ iterations →
  Headless.iterate distances n ants alpha beta evaporation q iterations st = Raise e.
Proof.
  intros Hi Hit. destruct iterations as [|k]; [lia|].
  cbn [Headless.iterate]. by rewrite Hi.
Qed.

(** C8, on two points at the same coordinates: the distance between the
    two distinct indices is [0.0], the weight of the transition divides by
    it and raises [ZeroDivisionError], which nothing catches: the tour
    construction of the interactive variant and the optimizer of the
    headless variant, on any configuration with an iteration and an ant,
    raise it, whatever the random source draws. *)
Theorem coincident_points_raise (g : rng) (iterations ants : Z)
  (alpha beta evaporation q : R) :
  Interactive.distance_table [(0, 0, 0); (0, 0, 0)]%R !! (0, 1) = Some 0%R
  ∧ Interactive.calculate_transition_prob (Interactive.initialize_pheromones 2)
      (Interactive.distance_table [(0, 0, 0); (0, 0, 0)]%R) 0 1 1 2
    = Raise ZeroDivisionError
  ∧ Interactive.construct_path (Interactive.initialize_pheromones 2)
      (Interactive.distance_table [(0, 0, 0); (0, 0, 0)]%R) 2 g
    = Raise ZeroDivisionError
  ∧ ((1 ≤ iterations)%Z → (1 ≤ ants)%Z →
     Headless.ant_colony_optimization_simple [(0, 0, 0); (0, 0, 0)]%R
       iterations ants alpha beta evaporation q g
     = Raise ZeroDivisionError).
Proof.
  rewrite distance_table_fill.
  assert (∀ c v, c < 2 → v < 2 → c ≠ v →
            Interactive.initialize_pheromones 2 !! (c, v) = Some 0.1%R) as Hph.
  { intros c v Hc Hv Hne. rewrite initialize_pheromones_lookup.
    by rewrite decide_True. }
  split_and!.
  - apply coincident_distance; lia.
  - eapply calculate_transition_prob_zero; [done|apply Hph; lia|].
    apply coincident_distance; lia.
  - unfold Interactive.construct_path. apply construct_raises; [|lia].
    intros c v Hc Hv Hne.
    eapply calculate_transition_prob_zero; [done|by apply Hph|].
    by apply coincident_distance.
  - intros Hit Hants. unfold Headless.ant_colony_optimization_simple.
    rewrite (iterate_raises _ _ _ _ _ _ _ _ _ ZeroDivisionError); [done| |lia].
    apply iteration_raises; [|done].
    apply construct_raises; [|simpl; lia].
    intros c v Hc Hv Hne. apply transition_weight_zero; [done|].
    by apply coincident_distance.
Qed.

(** ** Tours *)

(** The product of two powers of positive numbers that do not overflow. *)
Lemma weight_formula_pos (tau d alpha beta : R) :
  (0 < tau)%R → (0 < d)%R →
  (Rpower tau alpha <= DBL_MAX)%R → (Rpower (1 / d) beta <= DBL_MAX)%R →
  weight_formula tau d alpha beta
  = Done (Float (Rpower tau alpha * Rpower (1 / d) beta)).
Proof.
  intros Htau Hd Ha Hb. unfold weight_formula.
  rewrite (float_pow_pos_done tau alpha) by done. cbn.
  rewrite (float_pow_pos_done (1 / d) beta); [done| |done].
  apply Rdiv_lt_0_compat; lra.
Qed.

Lemma float_weight_zero (n : nat) : float_weight n (Done (Float 0)).
Proof.
  exists 0%R. split_and!; [done|lra|].
  rewrite Rmult_0_r. pose proof DBL_MAX_pos. lra.
Qed.

(** C1.  For [N >= 2] and any pheromone and distance tables, a tour that
    one construction returns, in [construct_path] and in the loop over the
    ants of the headless variant alike, is a permutation of [0..N-1].  The
    construction does return one when every weight between two nodes is
    within the range of the floats ([float_weight]: a float that is not
    negative, [N] of which do not overflow), and so in particular when the
    tables make every weight zero and every step falls back to the uniform
    choice; for the headless loop, whose exponents are free, the squares of
    the distances are to be within the range of the floats as well, so that
    their inverses are floats. *)
Theorem tour_is_permutation (pheromone distances : gmap (nat * nat) R)
  (n : nat) (g : rng) :
  2 ≤ n →
  (∀ path g',
     Interactive.construct_path pheromone distances n g = Done (path, g') →
     path ≡ₚ seq 0 n)
  ∧ (∀ alpha beta path g',
       construct (Headless.transition_weight pheromone distances alpha beta) n g
       = Done (path, g') →
       path ≡ₚ seq 0 n)
  ∧ ((∀ c v, c < n → v < n →
        float_weight n
          (Interactive.calculate_transition_prob pheromone distances c v 1 2)) →
     ∃ path g',
       Interactive.construct_path pheromone distances n g = Done (path, g')
       ∧ path ≡ₚ seq 0 n)
  ∧ ((∀ c v, c < n → v < n →
        Interactive.calculate_transition_prob pheromone distances c v 1 2
        = Done (Float 0)) →
     ∃ path g',
       Interactive.construct_path pheromone distances n g = Done (path, g')
       ∧ path ≡ₚ seq 0 n)
  ∧ (∀ alpha beta,
       (∀ c v d, distances !! (c, v) = Some d → float_range (d * d)) →
       (∀ c v, c < n → v < n →
          float_weight n
            (Headless.transition_weight pheromone distances alpha beta c v)) →
       ∃ path g',
         construct (Headless.transition_weight pheromone distances alpha beta) n g
         = Done (path, g')
         ∧ path ≡ₚ seq 0 n).
Proof.
  intros Hn.
  assert (∀ weight path g', construct weight n g = Done (path, g') →
                            path ≡ₚ seq 0 n) as Hperm.
  { intros weight path g'. apply construct_within_permutation. }
  assert (∀ weight, (∀ c v, c < n → v < n → float_weight n (weight c v)) →
            ∃ path g', construct weight n g = Done (path, g')
                       ∧ path ≡ₚ seq 0 n) as Hdone.
  { intros weight Hw.
    destruct (construct_within_done weight n n g) as (path & g' & Hc); [|lia..|].
    { intros c v Hc Hv. destruct (Hw c v Hc Hv) as (w & Hw' & _). eauto. }
    exists path, g'. split; [done|]. by eapply Hperm. }
  split_and!.
  - intros path g'. apply Hperm.
  - intros alpha beta path g'. apply Hperm.
  - intros Hw. by apply Hdone.
  - intros Hzero. apply Hdone. intros c v Hc Hv. rewrite Hzero by done.
    apply float_weight_zero.
  - intros alpha beta _ Hw. by apply Hdone.
Qed.

Lemma tour_is_permutation_witness :
  ∃ path g',
    Interactive.construct_path ∅ ∅ 3 (fun _ => 0) = Done (path, g')
    ∧ path ≡ₚ seq 0 3.
Proof.
  destruct (tour_is_permutation ∅ ∅ 3 (fun _ => 0)) as (_ & _ & H & _); [lia|].
  apply H. intros c v Hc Hv.
  rewrite calculate_transition_prob_absent by (left; apply lookup_empty).
  apply float_weight_zero.
Defined.

Lemma unvisited_decreases (n : nat) (visited : gset nat) (next : nat) :
  next ∈ unvisited_of n visited →
  length (unvisited_of n ({[next]} ∪ visited)) < length (unvisited_of n visited).
Proof.
  intros Hin. pose proof Hin as [Hlt Hnot]%unvisited_of_elem.
  assert (unvisited_of n ({[next]} ∪ visited)
          = filter (fun i => i ≠ next) (unvisited_of n visited)) as ->.
  { unfold unvisited_of. rewrite list_filter_filter. apply list_filter_iff.
    intros x. rewrite elem_of_union, elem_of_singleton. tauto. }
  apply (length_filter_lt _ _ next); [done|]. by intros H.
Qed.

Lemma construct_within_one (weight : nat → nat → outcome pyval) (g : rng) :
  construct_within weight 1 0 g = Done ([0], (draw g).2).
Proof.
  unfold construct_within, randint0. destruct (draw g) as [k g1].
  rewrite Nat.mod_1_r. unfold mbind, outcome_bind. rewrite walk_unfold.
  by rewrite decide_False by (rewrite size_singleton; lia).
Qed.

(** C10.  For [n >= 1] and any tables, the loop of one construction, in
    either variant, stops within [n - 1] passes, more fuel changing
    nothing; a path that it returns has taken exactly [n - 1] passes, no
    fewer, and has length [n]; for [n = 1] no pass runs and the path is the
    start node alone; and the node that a pass selects is one of the
    unvisited nodes, of which one fewer is left after the pass. *)
Theorem construction_terminates (pheromone distances : gmap (nat * nat) R)
  (alpha beta : R) (n fuel : nat) (g : rng) :
  1 ≤ n →
  let interactive :=
    construct_within
      (fun c v => Interactive.calculate_transition_prob pheromone distances c v 1 2) n in
  let headless :=
    construct_within (Headless.transition_weight pheromone distances alpha beta) n in
  (n - 1 ≤ fuel →
     interactive fuel g ≠ Timeout
     ∧ interactive fuel g = Interactive.construct_path pheromone distances n g
     ∧ headless fuel g ≠ Timeout
     ∧ headless fuel g
       = construct (Headless.transition_weight pheromone distances alpha beta) n g)
  ∧ (∀ path g',
       interactive fuel g = Done (path, g') ∨ headless fuel g = Done (path, g') →
       n - 1 ≤ fuel ∧ length path = n)
  ∧ (n = 1 →
     interactive 0 g = Done ([0], (draw g).2)
     ∧ headless 0 g = Done ([0], (draw g).2))
  ∧ (∀ visited current g0 next g',
       next_node
         (fun c v => Interactive.calculate_transition_prob pheromone distances c v 1 2)
         current (unvisited_of n visited) g0 = Done (next, g')
       ∨ next_node (Headless.transition_weight pheromone distances alpha beta)
           current (unvisited_of n visited) g0 = Done (next, g') →
       next ∈ unvisited_of n visited
       ∧ length (unvisited_of n ({[next]} ∪ visited))
         < length (unvisited_of n visited)).
Proof.
  intros Hn. cbv zeta.
  assert (∀ weight, (∀ c v, weight c v ≠ Timeout) → n - 1 ≤ fuel →
            construct_within weight n fuel g ≠ Timeout
            ∧ construct_within weight n fuel g = construct weight n g) as Hstop.
  { intros weight Hw Hfuel.
    pose proof (construct_within_no_timeout weight n (n - 1) g Hw (le_n _)) as Hmin.
    split.
    - rewrite (construct_within_mono weight n (n - 1) fuel) by done. done.
    - unfold construct.
      rewrite (construct_within_mono weight n (n - 1) fuel) by done.
      rewrite (construct_within_mono weight n (n - 1) n) by (done || lia). done. }
  assert (∀ weight path g', construct_within weight n fuel g = Done (path, g') →
            n - 1 ≤ fuel ∧ length path = n) as Hexact.
  { intros weight path g' Hc. split.
    - by eapply construct_within_passes.
    - apply construct_within_permutation in Hc.
      apply Permutation_length in Hc. by rewrite length_seq in Hc. }
  assert (∀ weight, n = 1 →
            construct_within weight n 0 g = Done ([0], (draw g).2)) as Hone.
  { intros weight ->. apply construct_within_one. }
  split_and!.
  - intros Hfuel.
    destruct (Hstop _ (fun c v => calculate_transition_prob_no_timeout
                                    pheromone distances c v 1 2) Hfuel) as [H1 H2].
    destruct (Hstop _ (transition_weight_no_timeout
                         pheromone distances alpha beta) Hfuel) as [H3 H4].
    done.
  - intros path g' [H|H]; by eapply Hexact.
  - intros H1. split; by apply Hone.
  - intros visited current g0 next g' [H|H]; apply next_node_elem in H;
      (split; [done|by apply unvisited_decreases]).
Qed.

Lemma construction_terminates_witness :
  construct_within
    (fun c v => Interactive.calculate_transition_prob ∅ ∅ c v 1 2) 3 2 (fun _ => 0)
  ≠ Timeout.
Proof.
  destruct (construction_terminates ∅ ∅ 1 2 3 2 (fun _ => 0)) as (H & _); [lia|].
  apply H. simpl. lia.
Defined.

(** ** The iterations of the optimizer *)

Lemma xle_refl (x : xreal) : xle x x.
Proof. destruct x; simpl; [lra|done]. Qed.

Lemma xle_trans (x y z : xreal) : xle x y → xle y z → xle x z.
Proof. destruct x, y, z; simpl; try done; lra. Qed.

Lemma xlt_xle (x y : xreal) : xlt x y → xle x y.
Proof. destruct x, y; simpl; try done; lra. Qed.

Lemma not_xlt_xle (x y : xreal) : ¬ xlt x y → xle y x.
Proof. destruct x, y; simpl; first [done | lra | tauto]. Qed.

Lemma xlt_xlt_trans (x y z : xreal) : xlt x y → xlt y z → xlt x z.
Proof. destruct x, y, z; simpl; try done; lra. Qed.

Lemma xlt_xle_trans (x y z : xreal) : xlt x y → xle y z → xlt x z.
Proof. destruct x, y, z; simpl; try done; lra. Qed.

Lemma min_from_first_min {A : Type} (key : A → xreal) (l1 l2 l : list A) (best : A) :
  (∀ p, p ∈ l1 → xlt (key best) (key p)) →
  (∀ p, p ∈ l2 → xle (key best) (key p)) →
  first_min key (l1 ++ best :: l2 ++ l) (min_from key best l).
Proof.
  revert l1 l2 best. induction l as [|x l IH]; intros l1 l2 best H1 H2.
  - exists l1, l2. by rewrite app_nil_r.
  - cbn [min_from]. destruct (xlt_dec (key x) (key best)) as [Hlt|Hge].
    + replace (l1 ++ best :: l2 ++ x :: l)
        with ((l1 ++ best :: l2) ++ x :: [] ++ l)
        by (by rewrite <- app_assoc).
      apply IH.
      * intros p [Hp|Hp]%elem_of_app.
        -- eapply xlt_xlt_trans; [done|by apply H1].
        -- apply elem_of_cons in Hp as [->|Hp]; [done|].
           eapply xlt_xle_trans; [done|by apply H2].
      * intros p Hp. by apply elem_of_nil in Hp.
    + replace (l1 ++ best :: l2 ++ x :: l)
        with (l1 ++ best :: (l2 ++ [x]) ++ l)
        by (by rewrite <- app_assoc).
      apply IH; [done|].
      intros p [Hp| ->%list_elem_of_singleton]%elem_of_app; [by apply H2|].
      by apply not_xlt_xle.
Qed.

Lemma py_min_first_min {A : Type} (key : A → xreal) (l : list A) (best : A) :
  py_min key l = Done best → first_min key l best.
Proof.
  destruct l as [|x l]; [done|]. intros [= <-].
  apply (min_from_first_min key [] [] l x); intros p Hp; by apply elem_of_nil in Hp.
Qed.

Section run_facts.
Variable distances : gmap (nat * nat) R.
Variable n : nat.
Variables (ants : Z) (alpha beta evaporation q : R).

Abbreviation iteration := (Headless.iteration distances n ants alpha beta evaporation q).
Abbreviation iterate := (Headless.iterate distances n ants alpha beta evaporation q).
Abbreviation len := (Headless.compute_path_length distances).

(** What one pass of the loop over the iterations does to the state. *)
Lemma iteration_inv (st st' : Headless.colony) :
  iteration st = Done st' →
  ∃ all_paths best,
    build_paths (Headless.transition_weight (Headless.pheromone st) distances alpha beta)
      n (Z.to_nat ants) [] (Headless.source st)
    = Done (all_paths, Headless.source st')
    ∧ first_min len all_paths best
    ∧ Headless.pheromone st'
      = reinforce best q (len best) (evaporate evaporation (Headless.pheromone st))
    ∧ (xlt (len best) (Headless.best_length_overall st) →
       Headless.best_length_overall st' = len best
       ∧ Headless.best_path_overall st' = Some best)
    ∧ (¬ xlt (len best) (Headless.best_length_overall st) →
       Headless.best_length_overall st' = Headless.best_length_overall st
       ∧ Headless.best_path_overall st' = Headless.best_path_overall st).
Proof.
  unfold Headless.iteration.
  intros ([all_paths g] & Hb & (best & Hmin & H)%bind_Done)%bind_Done.
  exists all_paths, best.
  apply py_min_first_min in Hmin.
  destruct (xlt_dec (len best) (Headless.best_length_overall st)) as [Hlt|Hge];
    injection H as <-; simpl; split_and!; done.
Qed.

Lemma iteration_monotone (st st' : Headless.colony) :
  iteration st = Done st' →
  xle (Headless.best_length_overall st') (Headless.best_length_overall st).
Proof.
  intros (all_paths & best & _ & _ & _ & Hyes & Hno)%iteration_inv.
  destruct (xlt_dec (len best) (Headless.best_length_overall st)) as [Hlt|Hge].
  - destruct (Hyes Hlt) as [-> _]. by apply xlt_xle.
  - destruct (Hno Hge) as [-> _]. apply xle_refl.
Qed.

Lemma iterate_monotone (k : nat) (st st' : Headless.colony) :
  iterate k st = Done st' →
  xle (Headless.best_length_overall st') (Headless.best_length_overall st).
Proof.
  revert st. induction k as [|k IH]; intros st.
  - intros [= <-]. apply xle_refl.
  - cbn [Headless.iterate]. intros (st1 & H1 & Hk)%bind_Done.
    eapply xle_trans; [by apply IH|by apply iteration_monotone].
Qed.

Lemma iterate_add (i k : nat) (st : Headless.colony) :
  iterate (i + k) st = iterate i st ≫= iterate k.
Proof.
  revert st. induction i as [|i IH]; intros st; [done|].
  cbn [Nat.add Headless.iterate].
  destruct (iteration st) as [st1| |]; [|done..]. cbn. apply IH.
Qed.
End run_facts.

Lemma build_paths_done (weight : nat → nat → outcome pyval) (n ants : nat)
  (all_paths : list (list nat)) (g : rng) :
  (∀ g0, ∃ p g', construct weight n g0 = Done (p, g')) →
  ∃ paths g', build_paths weight n ants all_paths g = Done (paths, g')
              ∧ length paths = length all_paths + ants.
Proof.
  intros Hc. revert all_paths g.
  induction ants as [|ants IH]; intros all_paths g.
  - exists all_paths, g. split; [done|lia].
  - cbn [build_paths]. destruct (Hc g) as (p & g1 & ->). cbn.
    destruct (IH (all_paths ++ [p]) g1) as (paths & g' & -> & Hlen).
    exists paths, g'. split; [done|]. rewrite length_app in Hlen. simpl in Hlen. lia.
Qed.

Lemma build_paths_zero (weight : nat → nat → outcome pyval) (n : nat)
  (all_paths : list (list nat)) (g : rng) :
  build_paths weight n 0 all_paths g = Done (all_paths, g).
Proof. done. Qed.

Section run_done.
Variable distances : gmap (nat * nat) R.
Variable n : nat.
Variables (ants : Z) (alpha beta evaporation q : R).
Hypothesis nodes : 1 ≤ n.
Hypothesis some_ant : (1 ≤ ants)%Z.

(** When the weights between the nodes are floats, one pass of the loop
    over the iterations raises nothing, in exact arithmetic. *)
Lemma iteration_done (st : Headless.colony) :
  (∀ c v, c < n → v < n →
     ∃ w, Headless.transition_weight (Headless.pheromone st) distances alpha beta c v
          = Done (Float w)) →
  ∃ st', Headless.iteration distances n ants alpha beta evaporation q st = Done st'.
Proof.
  intros Hw. unfold Headless.iteration.
  destruct (build_paths_done
              (Headless.transition_weight (Headless.pheromone st) distances alpha beta)
              n (Z.to_nat ants) [] (Headless.source st))
    as (paths & g' & -> & Hlen).
  { intros g0. apply construct_within_done; [done|done|lia]. }
  cbn. destruct paths as [|p paths]; [simpl in Hlen; lia|]. cbn.
  destruct (xlt_dec _ _); eauto.
Qed.

Lemma iteration_positive (st st' : Headless.colony) :
  (0 <= evaporation < 1)%R → (0 <= q)%R →
  Headless.iteration distances n ants alpha beta evaporation q st = Done st' →
  positive_table (Headless.pheromone st) →
  positive_table (Headless.pheromone st').
Proof.
  intros Hrho Hq (all_paths & best & _ & _ & -> & _)%iteration_inv Hpos.
  apply reinforce_positive; [done|]. by apply evaporate_positive.
Qed.
End run_done.

Lemma Rpower_base_1 (y : R) : Rpower 1 y = 1%R.
Proof. unfold Rpower. by rewrite ln_1, Rmult_0_r, exp_0. Qed.

Lemma euclid_unit : euclid (0, 0, 0)%R (1, 0, 0)%R = 1%R.
Proof.
  unfold euclid.
  replace ((0 - 1) * (0 - 1) + (0 - 0) * (0 - 0) + (0 - 0) * (0 - 0))%R
    with 1%R by ring.
  apply sqrt_1.
Qed.

(** The table of the two points [(0, 0, 0)] and [(1, 0, 0)]. *)
Lemma unit_pair_distance (c v : nat) :
  c < 2 → v < 2 → c ≠ v →
  Headless.build_distance_matrix_cached [(0, 0, 0); (1, 0, 0)]%R !! (c, v)
  = Some 1%R.
Proof.
  intros Hc Hv Hne. rewrite build_distance_matrix_cached_lookup.
  rewrite decide_True by done. f_equal.
  destruct c as [|[|c]], v as [|[|v]]; try lia.
  - exact euclid_unit.
  - etrans; [apply euclid_sym|exact euclid_unit].
Qed.

Lemma initial_lookup (n : nat) (g : rng) (c v : nat) :
  c < n → v < n → c ≠ v →
  Headless.pheromone (Headless.initial n g) !! (c, v) = Some 0.1%R.
Proof.
  intros Hc Hv Hne. unfold Headless.initial. cbn [Headless.pheromone].
  rewrite fill_table_lookup. by rewrite decide_True.
Qed.

(** The first iteration on the two points, with the default parameters,
    computes weights that are floats. *)
Lemma unit_pair_initial_weight (g : rng) (c v : nat) :
  c < 2 → v < 2 →
  ∃ w, Headless.transition_weight (Headless.pheromone (Headless.initial 2 g))
         (Headless.build_distance_matrix_cached [(0, 0, 0); (1, 0, 0)]%R) 1 2 c v
       = Done (Float w).
Proof.
  intros Hc Hv. destruct (decide (c = v)) as [->|Hne].
  { rewrite transition_weight_same. eauto. }
  rewrite (transition_weight_present _ _ _ _ _ _ 1%R);
    [|done|by apply unit_pair_distance|lra].
  rewrite initial_lookup by done.
  change (default 0.1%R (Some 0.1%R)) with 0.1%R.
  pose proof DBL_MAX_large.
  rewrite weight_formula_pos; [eauto|lra|lra| |].
  - rewrite Rpower_1 by lra. lra.
  - replace (1 / 1)%R with 1%R by lra. rewrite Rpower_base_1. lra.
Qed.

Lemma iteration_keys (distances : gmap (nat * nat) R) (n : nat) (ants : Z)
  (alpha beta evaporation q : R) (st st' : Headless.colony) (k : nat * nat) :
  Headless.iteration distances n ants alpha beta evaporation q st = Done st' →
  is_Some (Headless.pheromone st' !! k) ↔ is_Some (Headless.pheromone st !! k).
Proof.
  unfold Headless.iteration.
  intros ([all_paths g] & _ & (best & _ & H)%bind_Done)%bind_Done.
  destruct (xlt_dec _ _); injection H as <-; cbn [Headless.pheromone];
    rewrite reinforce_is_Some, evaporate_lookup; apply fmap_is_Some.
Qed.

Lemma iterate_keys (distances : gmap (nat * nat) R) (n : nat) (ants : Z)
  (alpha beta evaporation q : R) (i : nat) (st st' : Headless.colony) (k : nat * nat) :
  Headless.iterate distances n ants alpha beta evaporation q i st = Done st' →
  is_Some (Headless.pheromone st' !! k) ↔ is_Some (Headless.pheromone st !! k).
Proof.
  revert st. induction i as [|i IH]; intros st.
  - by intros [= <-].
  - cbn [Headless.iterate]. intros (st1 & H1 & Hi)%bind_Done.
    rewrite (IH st1 Hi). by eapply iteration_keys.
Qed.

(** C7.  In [calculate_transition_prob], whatever the tables and the
    nodes, the weight is [0] when the two nodes are the same; it is [0],
    and no exception, when either table lacks the pair; and for a pair that
    both tables have, with a distance that is not zero and has a square
    within the range of the floats, it is the value of
    [tau ** alpha * (1 / distance) ** beta] ([weight_formula]), which for a
    positive [tau] and distance is the float [tau^alpha * (1/d)^beta] when
    the two powers are floats.  The loop of the headless optimizer gives
    [0] for the same node and computes the same value for a pair that both
    tables have; and its tables have every pair of distinct nodes at every
    iteration of a run, so that a missing pair does not arise there. *)
Theorem transition_weight_contract (pheromone distances : gmap (nat * nat) R)
  (current candidate : nat) (alpha beta : R) :
  (current = candidate →
     Interactive.calculate_transition_prob pheromone distances
       current candidate alpha beta = Done (Float 0)
     ∧ Headless.transition_weight pheromone distances alpha beta
         current candidate = Done (Float 0))
  ∧ (pheromone !! (current, candidate) = None
     ∨ distances !! (current, candidate) = None →
     Interactive.calculate_transition_prob pheromone distances
       current candidate alpha beta = Done (Float 0))
  ∧ (∀ tau d,
       current ≠ candidate →
       pheromone !! (current, candidate) = Some tau →
       distances !! (current, candidate) = Some d → d ≠ 0%R →
       float_range (d * d) →
       Interactive.calculate_transition_prob pheromone distances
         current candidate alpha beta = weight_formula tau d alpha beta
       ∧ Headless.transition_weight pheromone distances alpha beta
           current candidate = weight_formula tau d alpha beta
       ∧ ((0 < tau)%R → (0 < d)%R →
          (Rpower tau alpha <= DBL_MAX)%R → (Rpower (1 / d) beta <= DBL_MAX)%R →
          weight_formula tau d alpha beta
          = Done (Float (Rpower tau alpha * Rpower (1 / d) beta))))
  ∧ (∀ points ants evaporation q i g st,
       Headless.iterate (Headless.build_distance_matrix_cached points)
         (length points) ants alpha beta evaporation q i
         (Headless.initial (length points) g) = Done st →
       current < length points → candidate < length points →
       current ≠ candidate →
       is_Some (Headless.pheromone st !! (current, candidate))
       ∧ is_Some (Headless.build_distance_matrix_cached points
                    !! (current, candidate))).
Proof.
  split_and!.
  - intros ->. split.
    + apply calculate_transition_prob_same.
    + apply transition_weight_same.
  - apply calculate_transition_prob_absent.
  - intros tau d Hne Hph Hd Hnz _. split_and!.
    + by apply calculate_transition_prob_present.
    + rewrite (transition_weight_present _ _ _ _ _ _ d) by done.
      by rewrite Hph.
    + apply weight_formula_pos.
  - intros points ants evaporation q i g st Hit Hc Hv Hne. split.
    + rewrite (iterate_keys _ _ _ _ _ _ _ _ _ _ _ Hit).
      rewrite initial_lookup by done. by eexists.
    + rewrite build_distance_matrix_cached_lookup.
      rewrite decide_True by done. by eexists.
Qed.

(** A pheromone of [0.1] over a distance of [1], with the default
    exponents. *)
Lemma transition_weight_contract_witness :
  Interactive.calculate_transition_prob
    {[ (0, 1) := 0.1%R ]} {[ (0, 1) := 1%R ]} 0 1 1 2
  = Done (Float (Rpower 0.1 1 * Rpower (1 / 1) 2)).
Proof.
  pose proof DBL_MAX_large as Hmax.
  destruct (transition_weight_contract
              {[ (0, 1) := 0.1%R ]} {[ (0, 1) := 1%R ]} 0 1 1 2)
    as (_ & _ & H & _).
  destruct (H 0.1%R 1%R) as (H1 & _ & H3);
    [done|apply lookup_singleton_eq|apply lookup_singleton_eq|lra| |].
  { unfold float_range. split; [|lra].
    rewrite Rmult_1_r. rewrite <- Rinv_1. apply Rinv_le_contravar; lra. }
  rewrite H1. apply H3; [lra|lra| |].
  - rewrite Rpower_1 by lra. lra.
  - replace (1 / 1)%R with 1%R by lra. rewrite Rpower_base_1. lra.
Defined.

Lemma initial_positive (n : nat) (g : rng) :
  positive_table (Headless.pheromone (Headless.initial n g)).
Proof. apply initialize_pheromones_positive. Qed.

Lemma euclid_positive (p1 p2 : point) : p1 ≠ p2 → (0 < euclid p1 p2)%R.
Proof.
  destruct p1 as [[x1 y1] z1], p2 as [[x2 y2] z2]. intros Hne. unfold euclid.
  apply sqrt_lt_R0.
  assert (∀ a b : R, (0 <= (a - b) * (a - b))%R) as Hsq
    by (intros a b; apply Rle_0_sqr).
  assert (∀ a b : R, a ≠ b → (0 < (a - b) * (a - b))%R) as Hpos
    by (intros a b H; apply Rsqr_pos_lt; lra).
  pose proof (Hsq x1 x2). pose proof (Hsq y1 y2). pose proof (Hsq z1 z2).
  destruct (Req_dec_T x1 x2) as [->|Hx]; [|pose proof (Hpos x1 x2 Hx); lra].
  destruct (Req_dec_T y1 y2) as [->|Hy]; [|pose proof (Hpos y1 y2 Hy); lra].
  destruct (Req_dec_T z1 z2) as [->|Hz]; [done|pose proof (Hpos z1 z2 Hz); lra].
Qed.

Lemma distinct_points_distances (points : list point) (c v : nat) :
  (∀ i j, i < length points → j < length points → i ≠ j →
     points !!! i ≠ points !!! j) →
  c < length points → v < length points → c ≠ v →
  ∃ d, Headless.build_distance_matrix_cached points !! (c, v) = Some d ∧ (0 < d)%R.
Proof.
  intros Hdistinct Hc Hv Hne. eexists. split.
  - rewrite build_distance_matrix_cached_lookup. by rewrite decide_True.
  - apply euclid_positive. by apply Hdistinct.
Qed.

(** C2.  In a run of the headless optimizer the best length overall
    starts at [+inf]; one iteration leaves it as it was or replaces it by
    the length of the best tour of the iteration, which is then strictly
    smaller; and its value after [j] iterations is less than or equal to
    its value after [i <= j] iterations. *)
Theorem best_length_monotone (distances : gmap (nat * nat) R) (n : nat) (ants : Z)
  (alpha beta evaporation q : R) (g : rng) (i j : nat) (si sj : Headless.colony) :
  i ≤ j →
  Headless.iterate distances n ants alpha beta evaporation q i (Headless.initial n g)
  = Done si →
  Headless.iterate distances n ants alpha beta evaporation q j (Headless.initial n g)
  = Done sj →
  Headless.best_length_overall (Headless.initial n g) = PInf
  ∧ xle (Headless.best_length_overall sj) (Headless.best_length_overall si)
  ∧ (∀ st st',
       Headless.iteration distances n ants alpha beta evaporation q st = Done st' →
       Headless.best_length_overall st' = Headless.best_length_overall st
       ∨ xlt (Headless.best_length_overall st') (Headless.best_length_overall st)).
Proof.
  intros Hij Hi Hj. split_and!.
  - done.
  - replace j with (i + (j - i)) in Hj by lia.
    rewrite iterate_add, Hi in Hj. cbn in Hj.
    by eapply iterate_monotone.
  - intros st st' (all_paths & best & _ & _ & _ & Hyes & Hno)%iteration_inv.
    destruct (xlt_dec (Headless.compute_path_length distances best)
                (Headless.best_length_overall st)) as [Hlt|Hge].
    + right. by destruct (Hyes Hlt) as [-> _].
    + left. by destruct (Hno Hge) as [-> _].
Qed.

Lemma two_points_distinct (i j : nat) :
  i < 2 → j < 2 → i ≠ j →
  ([(0, 0, 0); (1, 0, 0)]%R : list point) !!! i
  ≠ ([(0, 0, 0); (1, 0, 0)]%R : list point) !!! j.
Proof.
  intros Hi Hj Hne. destruct i as [|[|i]], j as [|[|j]]; try lia; simpl;
    intros [= H]; lra.
Qed.



(** C3 as the specification words it, at [iterations=0]: the optimizer
    raises nothing and returns [(None, inf)]. *)
Lemma zero_iterations_returns :
  Headless.ant_colony_optimization_simple [(0, 0, 0); (1, 0, 0)]%R
    0 20 1 2 0.1 100 (fun _ => 0)
  = Done (None, PInf, fun _ => 0).
Proof. reflexivity. Qed.

(** C3, amended.  The optimizer checks none of its parameters.  With
    [iterations <= 0] it runs no iteration and constructs no tour, the
    random source is left as it was, and it returns [(None, inf)] without
    raising, whatever the points and the other parameters.  With an
    iteration to run and [ants <= 0] the first iteration raises the
    [ValueError] of [min] on the empty list of tours.  A negative [alpha]
    or [beta], an evaporation rate outside [[0, 1)] and [q <= 0] raise
    nothing of themselves: whatever the four values, one iteration returns
    a result when the squares of the distances between the points and the
    weights computed from them with the initial pheromone are within the
    range of the floats. *)
Theorem optimizer_validates_nothing (points : list point) (iterations ants : Z)
  (alpha beta evaporation q : R) (g : rng) :
  ((iterations ≤ 0)%Z →
     Headless.ant_colony_optimization_simple points
       iterations ants alpha beta evaporation q g
     = Done (None, PInf, g))
  ∧ ((1 ≤ iterations)%Z → (ants ≤ 0)%Z →
     Headless.ant_colony_optimization_simple points
       iterations ants alpha beta evaporation q g
     = Raise ValueError)
  ∧ (1 ≤ length points → (1 ≤ ants)%Z →
     (∀ i j, i < length points → j < length points → i ≠ j →
        float_range (euclid (points !!! i) (points !!! j)
                     * euclid (points !!! i) (points !!! j))
        ∧ float_weight (length points)
            (Headless.transition_weight
               (Headless.pheromone (Headless.initial (length points) g))
               (Headless.build_distance_matrix_cached points) alpha beta i j)) →
     ∃ r, Headless.ant_colony_optimization_simple points
            1 ants alpha beta evaporation q g
          = Done r).
Proof.
  split_and!.
  - intros Hit. unfold Headless.ant_colony_optimization_simple.
    replace (Z.to_nat iterations) with 0 by lia. done.
  - intros Hit Hants. unfold Headless.ant_colony_optimization_simple.
    rewrite (iterate_raises _ _ _ _ _ _ _ _ _ ValueError); [done| |lia].
    unfold Headless.iteration. replace (Z.to_nat ants) with 0 by lia.
    by rewrite build_paths_zero.
  - intros Hn Hants Hsafe. unfold Headless.ant_colony_optimization_simple.
    change (Z.to_nat 1) with 1. cbn [Headless.iterate].
    destruct (iteration_done (Headless.build_distance_matrix_cached points)
                (length points) ants alpha beta evaporation q Hn Hants)
      with (st := Headless.initial (length points) g) as [st' ->].
    + intros c v Hc Hv. destruct (decide (c = v)) as [->|Hne].
      { rewrite transition_weight_same. eauto. }
      destruct (Hsafe c v Hc Hv Hne) as (_ & w & Hw & _). eauto.
    + cbn. eauto.
Qed.

(** One iteration with a negative [alpha] and [beta], an evaporation rate
    of [2] and a negative [q] returns a result. *)
Lemma optimizer_validates_nothing_witness :
  ∃ r, Headless.ant_colony_optimization_simple [(0, 0, 0); (1, 0, 0)]%R
         1 20 (-1) (-1) 2 (-5) (fun _ => 0)
       = Done r.
Proof.
  destruct (optimizer_validates_nothing [(0, 0, 0); (1, 0, 0)]%R 1 20 (-1) (-1) 2 (-5)
              (fun _ => 0)) as (_ & _ & H).
  apply H; [simpl; lia|lia|].
  intros i j Hi Hj Hne. pose proof DBL_MAX_large as Hmax.
  assert (euclid (([(0, 0, 0); (1, 0, 0)]%R : list point) !!! i)
            (([(0, 0, 0); (1, 0, 0)]%R : list point) !!! j) = 1%R) as ->.
  { simpl in Hi, Hj. destruct i as [|[|i]], j as [|[|j]]; try lia.
    - exact euclid_unit.
    - etrans; [apply euclid_sym|exact euclid_unit]. }
  split.
  - unfold float_range. split; [|lra].
    rewrite Rmult_1_r. rewrite <- Rinv_1. apply Rinv_le_contravar; lra.
  - exists 10%R.
    rewrite (transition_weight_present _ _ _ _ _ _ 1%R);
      [|done|by apply unit_pair_distance|lra].
    change (length [(0, 0, 0); (1, 0, 0)]%R) with 2.
    rewrite initial_lookup by done.
  change (default 0.1%R (Some 0.1%R)) with 0.1%R.
    assert (Rpower 0.1 (-1) = 10%R) as Hp.
    { replace (-1)%R with (Ropp 1) by lra.
      rewrite Rpower_Ropp, Rpower_1 by lra. lra. }
    assert (Rpower (1 / 1) (-1) = 1%R) as Hq.
    { replace (1 / 1)%R with 1%R by lra. apply Rpower_base_1. }
    rewrite weight_formula_pos; [|lra|lra|rewrite Hp; lra|rewrite Hq; lra].
    rewrite Hp, Hq. split_and!; [do 2 f_equal; lra|lra|simpl; lra].
Defined.

(** * More of the two files *)

(** ** The length of a tour *)

Lemma xadd_comm (x y : xreal) : xadd x y = xadd y x.
Proof. destruct x, y; simpl; try done. f_equal. ring. Qed.

Lemma xadd_assoc (x y z : xreal) : xadd (xadd x y) z = xadd x (xadd y z).
Proof. destruct x, y, z; simpl; try done. f_equal. ring. Qed.

Lemma edges_length_start (distances : gmap (nat * nat) R) (total : xreal)
  (edges : list (nat * nat)) :
  edges_length distances total edges
  = xadd total (edges_length distances (Fin 0) edges).
Proof.
  revert total. induction edges as [|e edges IH]; intros total; cbn [edges_length foldl].
  - destruct total; simpl; [|done]. f_equal. ring.
  - fold (edges_length distances
            (xadd total (from_option Fin PInf (distances !! e))) edges).
    fold (edges_length distances
            (xadd (Fin 0) (from_option Fin PInf (distances !! e))) edges).
    rewrite IH. rewrite (IH (xadd (Fin 0) _)). rewrite <- !xadd_assoc.
    f_equal. f_equal. destruct total; simpl; [|done]. f_equal. ring.
Qed.

Lemma edges_length_cons (distances : gmap (nat * nat) R) (e : nat * nat)
  (edges : list (nat * nat)) :
  edges_length distances (Fin 0) (e :: edges)
  = xadd (from_option Fin PInf (distances !! e))
      (edges_length distances (Fin 0) edges).
Proof.
  cbn [edges_length foldl].
  fold (edges_length distances
          (xadd (Fin 0) (from_option Fin PInf (distances !! e))) edges).
  rewrite edges_length_start. f_equal.
  destruct (from_option Fin PInf (distances !! e)); simpl; [|done]. f_equal. ring.
Qed.

Lemma edges_length_perm (distances : gmap (nat * nat) R) (es1 es2 : list (nat * nat)) :
  es1 ≡ₚ es2 →
  edges_length distances (Fin 0) es1 = edges_length distances (Fin 0) es2.
Proof.
  induction 1 as [|e es1 es2 _ IH|e1 e2 es|es1 es2 es3 _ IH1 _ IH2].
  - done.
  - rewrite !edges_length_cons. by rewrite IH.
  - rewrite !edges_length_cons. rewrite <- !xadd_assoc.
    f_equal. apply xadd_comm.
  - by rewrite IH1.
Qed.

Lemma tour_length_edges (distances : gmap (nat * nat) R) (path : list nat) :
  tour_length distances path = edges_length distances (Fin 0) (closed_edges path).
Proof. done. Qed.

Lemma edges_length_finite (distances : gmap (nat * nat) R) (edges : list (nat * nat)) :
  (∃ L, edges_length distances (Fin 0) edges = Fin L)
  ↔ ∀ e, e ∈ edges → is_Some (distances !! e).
Proof.
  induction edges as [|e edges IH].
  - split; [|by eexists]. intros _ e He. by apply elem_of_nil in He.
  - rewrite edges_length_cons. split.
    + intros [L HL] e' He'.
      destruct (distances !! e) as [d|] eqn:Hd; [|done]. simpl in HL.
      destruct (edges_length distances (Fin 0) edges) as [L'|] eqn:HL'; [|done].
      apply elem_of_cons in He' as [->|He']; [by rewrite Hd|].
      apply IH; [by eexists|done].
    + intros Hall.
      destruct (Hall e) as [d ->]; [by left|].
      destruct IH as [_ [L' ->]]; [intros e' He'; apply Hall; by right|].
      simpl. by eexists.
Qed.

Lemma edges_length_nonneg (distances : gmap (nat * nat) R) (edges : list (nat * nat)) :
  (∀ e d, e ∈ edges → distances !! e = Some d → (0 <= d)%R) →
  xle (Fin 0) (edges_length distances (Fin 0) edges).
Proof.
  induction edges as [|e edges IH]; intros Hpos.
  - simpl. lra.
  - rewrite edges_length_cons.
    assert (xle (Fin 0) (edges_length distances (Fin 0) edges)) as Hrest.
    { apply IH. intros e' d He'. apply Hpos. by right. }
    destruct (distances !! e) as [d|] eqn:Hd; simpl; [|done].
    destruct (edges_length distances (Fin 0) edges) as [L|]; simpl in *; [|done].
    pose proof (Hpos e d (list_elem_of_here _ _) Hd). lra.
Qed.

(** X1.  The length of a closed tour is finite exactly when the distance
    table has every edge of the tour, wrap-around edge included, and is
    [inf] as soon as one is missing; on a table without a negative
    distance it is not negative. *)
Theorem path_length_finite_iff (distances : gmap (nat * nat) R) (path : list nat) :
  ((∃ L, Interactive.path_length path distances = Fin L)
   ↔ ∀ e, e ∈ closed_edges path → is_Some (distances !! e))
  ∧ (Interactive.path_length path distances = PInf
     ↔ ∃ e, e ∈ closed_edges path ∧ distances !! e = None)
  ∧ ((∀ e d, distances !! e = Some d → (0 <= d)%R) →
     xle (Fin 0) (Interactive.path_length path distances))
  ∧ Headless.compute_path_length distances path
    = Interactive.path_length path distances.
Proof.
  unfold Interactive.path_length, Headless.compute_path_length.
  rewrite tour_length_edges.
  pose proof (edges_length_finite distances (closed_edges path)) as Hfin.
  split_and!; [done| | |done].
  - split.
    + intros Hinf.
      destruct (decide (Forall (fun e => is_Some (distances !! e)) (closed_edges path)))
        as [Hall|Hnot].
      * rewrite Forall_forall in Hall. apply Hfin in Hall as [L HL]. congruence.
      * apply not_Forall_Exists in Hnot; [|apply _].
        apply Exists_exists in Hnot as (e & He & Hn).
        exists e. split; [done|]. by apply eq_None_not_Some.
    + intros (e & He & Hnone).
      destruct (edges_length distances (Fin 0) (closed_edges path)) as [L|] eqn:HL;
        [|done].
      destruct (proj1 Hfin (ex_intro _ L eq_refl) e He) as [d Hd]. congruence.
  - intros Hpos. apply edges_length_nonneg. intros e d _. apply Hpos.
Qed.

Lemma closed_edges_zip (x : nat) (l : list nat) :
  closed_edges (x :: l) = zip (x :: l) (l ++ [x]).
Proof.
  unfold closed_edges. apply list_eq. intros i.
  rewrite list_lookup_fmap, lookup_zip_with.
  destruct (decide (i < length (x :: l))) as [Hi|Hi].
  - rewrite lookup_seq_lt by done. cbn [fmap option_fmap option_map Nat.add].
    rewrite (lookup_total_lt (x :: l) i Hi). cbn [mbind option_bind].
    destruct (decide (i < length l)) as [Hl|Hl].
    + rewrite lookup_app_l by done.
      rewrite Nat.mod_small by (simpl in *; lia).
      replace (i + 1) with (S i) by lia. cbn [lookup_total list_lookup_total].
      rewrite (lookup_total_lt l i Hl). done.
    + assert (i = length l) as -> by (simpl in Hi; lia).
      rewrite lookup_app_r by done. rewrite Nat.sub_diag.
      replace (length l + 1) with (length (x :: l)) by (simpl; lia).
      rewrite Nat.Div0.mod_same. done.
  - rewrite lookup_seq_ge by lia. cbn [fmap option_fmap option_map].
    rewrite (proj2 (lookup_ge_None (x :: l) i)) by lia. done.
Qed.

Lemma closed_edges_rotate_one (x : nat) (l : list nat) :
  closed_edges (l ++ [x]) ≡ₚ closed_edges (x :: l).
Proof.
  destruct l as [|y l]; [done|].
  change ((y :: l) ++ [x]) with (y :: (l ++ [x])).
  rewrite !closed_edges_zip.
  change (y :: l ++ [x]) with ((y :: l) ++ [x]).
  rewrite (zip_with_app pair (y :: l) [x] (l ++ [x]) [y])
    by (rewrite length_app; simpl; lia).
  change (zip (x :: y :: l) ((y :: l) ++ [x]))
    with ((x, y) :: zip (y :: l) (l ++ [x])).
  symmetry. apply Permutation_cons_append.
Qed.

Lemma tour_length_rotate_one (distances : gmap (nat * nat) R) (x : nat) (l : list nat) :
  tour_length distances (l ++ [x]) = tour_length distances (x :: l).
Proof. rewrite !tour_length_edges. apply edges_length_perm, closed_edges_rotate_one. Qed.

(** X2.  The length of a closed tour does not depend on the node at
    which the cycle is written to start: a tour and its rotations have the
    same length, in exact arithmetic. *)
Theorem path_length_rotation (distances : gmap (nat * nat) R) (l1 l2 : list nat) :
  Interactive.path_length (l1 ++ l2) distances
  = Interactive.path_length (l2 ++ l1) distances.
Proof.
  unfold Interactive.path_length. revert l2.
  induction l1 as [|x l1 IH]; intros l2.
  - by rewrite app_nil_r.
  - change ((x :: l1) ++ l2) with (x :: (l1 ++ l2)).
    rewrite <- tour_length_rotate_one, <- app_assoc, IH.
    by rewrite <- app_assoc.
Qed.

(** ** The size of the tables *)

Lemma table_row_elem (n i : nat) (k : nat * nat) :
  k ∈ (seq 0 n ≫= fun j => if decide (i ≠ j) then [(i, j)] else [])
  ↔ k.1 = i ∧ k.2 < n ∧ k.1 ≠ k.2.
Proof.
  rewrite list_elem_of_bind. split.
  - intros (j & Hk & Hj%elem_of_seq). case_decide; [|by apply elem_of_nil in Hk].
    apply list_elem_of_singleton in Hk as ->. simpl. split_and!; [done|lia|done].
  - intros (<- & Hlt & Hne). exists k.2. split; [|apply elem_of_seq; lia].
    rewrite decide_True by done. destruct k. by apply list_elem_of_singleton.
Qed.

Lemma table_keys_elem (n : nat) (k : nat * nat) :
  k ∈ table_keys n ↔ k.1 < n ∧ k.2 < n ∧ k.1 ≠ k.2.
Proof.
  unfold table_keys. rewrite list_elem_of_bind. split.
  - intros (i & (<- & Hj & Hne)%table_row_elem & Hi%elem_of_seq).
    split_and!; [lia|done|done].
  - intros (Hi & Hj & Hne). exists k.1. split; [by apply table_row_elem|].
    apply elem_of_seq. lia.
Qed.

Lemma table_row_NoDup (n i : nat) :
  NoDup (seq 0 n ≫= fun j => if decide (i ≠ j) then [(i, j)] else []).
Proof.
  apply NoDup_bind; [| |apply NoDup_seq].
  - intros j1 j2 k _ _ H1 H2.
    destruct (decide (i ≠ j1)); [|by apply elem_of_nil in H1].
    destruct (decide (i ≠ j2)); [|by apply elem_of_nil in H2].
    apply list_elem_of_singleton in H1, H2. congruence.
  - intros j _. case_decide; [apply NoDup_singleton|apply NoDup_nil_2].
Qed.

Lemma table_keys_NoDup (n : nat) : NoDup (table_keys n).
Proof.
  apply NoDup_bind; [| |apply NoDup_seq].
  - intros i1 i2 k _ _ [H1 _]%table_row_elem [H2 _]%table_row_elem. congruence.
  - intros i _. apply table_row_NoDup.
Qed.

Lemma bind_filter {A B : Type} (P : A → Prop) `{!∀ x, Decision (P x)}
  (f : A → B) (l : list A) :
  l ≫= (fun x => if decide (P x) then [f x] else []) = f <$> filter P l.
Proof.
  induction l as [|x l IH]; [done|].
  rewrite bind_cons, filter_cons, IH. by case_decide.
Qed.

Lemma filter_keeps_all {A : Type} (P : A → Prop) `{!∀ x, Decision (P x)}
  (l : list A) :
  (∀ x, x ∈ l → P x) → filter P l = l.
Proof.
  induction l as [|x l IH]; intros HP; [done|].
  rewrite filter_cons, decide_True by (apply HP; by left).
  f_equal. apply IH. intros y Hy. apply HP. by right.
Qed.

Lemma length_filter_ne (x : nat) (l : list nat) :
  NoDup l → x ∈ l → length (filter (fun j => x ≠ j) l) = length l - 1.
Proof.
  induction 1 as [|y l Hy Hnd IH]; intros Hx; [by apply elem_of_nil in Hx|].
  rewrite filter_cons. destruct (decide (x = y)) as [->|Hne].
  - rewrite decide_False by (intros H; by apply H).
    rewrite filter_keeps_all; [simpl; lia|]. by intros j Hj ->.
  - rewrite decide_True by done. simpl.
    apply elem_of_cons in Hx as [->|Hx]; [done|].
    rewrite IH by done. destruct l; [by apply elem_of_nil in Hx|simpl; lia].
Qed.

Lemma length_bind_const {A B : Type} (f : A → list B) (l : list A) (k : nat) :
  (∀ x, x ∈ l → length (f x) = k) → length (l ≫= f) = length l * k.
Proof.
  induction l as [|x l IH]; intros Hk; [done|].
  rewrite bind_cons, length_app, Hk by (by left).
  rewrite IH by (intros y Hy; apply Hk; by right). simpl. lia.
Qed.

Lemma table_keys_length (n : nat) : length (table_keys n) = n * (n - 1).
Proof.
  unfold table_keys. rewrite (length_bind_const _ _ (n - 1)).
  - by rewrite length_seq.
  - intros i Hi. rewrite (bind_filter (fun j => i ≠ j) (fun j => (i, j))).
    rewrite length_fmap, length_filter_ne; [by rewrite length_seq|apply NoDup_seq|done].
Qed.

Lemma fill_table_dom (f : nat → nat → R) (n : nat) :
  dom (fill_table f n) = list_to_set (table_keys n).
Proof.
  apply set_eq. intros [a b].
  rewrite elem_of_dom, elem_of_list_to_set, table_keys_elem, fill_table_lookup.
  simpl. case_decide as H.
  - split; [done|]. intros _. by eexists.
  - split; [|done]. by intros [? [=]].
Qed.

Lemma fill_table_size (f : nat → nat → R) (n : nat) :
  size (fill_table f n) = n * (n - 1).
Proof.
  rewrite <- size_dom, fill_table_dom.
  rewrite size_list_to_set by apply table_keys_NoDup.
  apply table_keys_length.
Qed.

Lemma fmap_of_bind {A B C : Type} (f : B → C) (g : A → list B) (l : list A) :
  f <$> (l ≫= g) = l ≫= fun x => f <$> g x.
Proof.
  induction l as [|x l IH]; [done|].
  by rewrite !bind_cons, fmap_app, IH.
Qed.

Lemma bind_ext_all {A B : Type} (g1 g2 : A → list B) (l : list A) :
  (∀ x, g1 x = g2 x) → l ≫= g1 = l ≫= g2.
Proof.
  intros Hg. induction l as [|x l IH]; [done|].
  by rewrite !bind_cons, Hg, IH.
Qed.

Lemma generate_edges_keys (points : list point) :
  (Interactive.generate_edges points).*1 = table_keys (length points).
Proof.
  unfold Interactive.generate_edges, table_keys.
  rewrite fmap_of_bind. apply bind_ext_all. intros i.
  rewrite fmap_of_bind. apply bind_ext_all. intros j.
  by case_decide.
Qed.

(** X3.  Over [N] points, [generate_edges] yields [N * (N - 1)] triples,
    one for every ordered pair of distinct indices and none twice, each
    with the Euclidean distance of its two points; the distance table of
    either variant and the initial pheromone table have [N * (N - 1)]
    entries. *)
Theorem tables_have_all_pairs (points : list point) :
  let n := length points in
  length (Interactive.generate_edges points) = n * (n - 1)
  ∧ NoDup (Interactive.generate_edges points).*1
  ∧ (∀ i j d, (i, j, d) ∈ Interactive.generate_edges points
              ↔ i < n ∧ j < n ∧ i ≠ j ∧ d = euclid (points !!! i) (points !!! j))
  ∧ size (Interactive.distance_table points) = n * (n - 1)
  ∧ size (Headless.build_distance_matrix_cached points) = n * (n - 1)
  ∧ size (Interactive.initialize_pheromones n) = n * (n - 1).
Proof.
  cbv zeta. split_and!.
  - rewrite <- (length_fmap fst), generate_edges_keys. apply table_keys_length.
  - rewrite generate_edges_keys. apply table_keys_NoDup.
  - intros i j d. unfold Interactive.generate_edges.
    rewrite list_elem_of_bind. split.
    + intros (i' & (j' & Hk & Hj%elem_of_seq)%list_elem_of_bind & Hi%elem_of_seq).
      case_decide; [|by apply elem_of_nil in Hk].
      apply list_elem_of_singleton in Hk as [= -> -> ->].
      split_and!; [lia|lia|done|done].
    + intros (Hi & Hj & Hne & ->). exists i. split; [|apply elem_of_seq; lia].
      apply list_elem_of_bind. exists j. split; [|apply elem_of_seq; lia].
      rewrite decide_True by done. by apply list_elem_of_singleton.
  - rewrite distance_table_fill. apply fill_table_size.
  - apply fill_table_size.
  - apply fill_table_size.
Qed.

(** ** One update of the pheromone table *)

Lemma deposit_nothing (ph : gmap (nat * nat) R) (e : nat * nat) :
  deposit 0 ph e = ph.
Proof.
  unfold deposit. destruct (ph !! e) as [tau|] eqn:He; [|done].
  replace (tau + 0)%R with tau by ring. by apply insert_id.
Qed.

Lemma reinforce_infinite (path : list nat) (q : R) (ph : gmap (nat * nat) R) :
  reinforce path q PInf ph = ph.
Proof.
  unfold reinforce. simpl. induction (closed_edges path) as [|e es IH]; [done|].
  cbn [foldl]. by rewrite deposit_nothing.
Qed.

(** X4.  [update_pheromones] keeps the keys of the table, whatever the
    tour.  With a best tour without a repeated node and of positive length
    [L], it turns an entry [tau] of an edge of the closed tour into
    [tau * (1 - evaporation) + q / L] and any other entry into
    [tau * (1 - evaporation)].  With a length that is not positive, as for
    the empty tour, or infinite, as for a tour with an edge that the
    distance table lacks, it is the evaporation alone. *)
Theorem update_pheromones_entries (pheromone : gmap (nat * nat) R)
  (best_path : list nat) (distances : gmap (nat * nat) R) (evaporation q : R) :
  let updated :=
    Interactive.update_pheromones pheromone best_path distances evaporation q in
  let length := Interactive.path_length best_path distances in
  dom updated = dom pheromone
  ∧ (NoDup best_path → xlt (Fin 0) length →
     ∀ k, updated !! k
          = if decide (k ∈ closed_edges best_path)
            then (fun tau => tau * (1 - evaporation) + div_by q length)%R
                   <$> pheromone !! k
            else (fun tau => tau * (1 - evaporation))%R <$> pheromone !! k)
  ∧ (¬ xlt (Fin 0) length ∨ length = PInf →
     updated = evaporate evaporation pheromone).
Proof.
  cbv zeta. unfold Interactive.update_pheromones. cbv zeta.
  split_and!.
  - apply set_eq. intros k. rewrite !elem_of_dom.
    rewrite reinforce_is_Some, evaporate_lookup. apply fmap_is_Some.
  - intros Hnd Hlen k. rewrite reinforce_lookup by done.
    rewrite evaporate_lookup. case_decide; [|done].
    by destruct (pheromone !! k).
  - intros [Hlen| ->]; [|apply reinforce_infinite].
    unfold reinforce. by destruct (xlt_dec _ _).
Qed.

(** The tour [[0; 1]] over two points at distance [1] has length [2]: the
    two entries go from [0.1] to [0.1 * 0.9 + 100 / 2]. *)
Lemma update_pheromones_entries_witness :
  Interactive.update_pheromones (Interactive.initialize_pheromones 2) [0; 1]
    (Interactive.distance_table [(0, 0, 0); (1, 0, 0)]%R) 0.1 100 !! (0, 1)
  = Some (0.1 * (1 - 0.1) + 100 / (0 + 1 + 1))%R.
Proof.
  assert (Interactive.path_length [0; 1]
            (Interactive.distance_table [(0, 0, 0); (1, 0, 0)]%R)
          = Fin (0 + 1 + 1)) as Hlen.
  { unfold Interactive.path_length. rewrite distance_table_fill, tour_length_edges.
    change (closed_edges [0; 1]) with [(0, 1); (1, 0)].
    unfold edges_length. cbn [foldl].
    by rewrite !unit_pair_distance by lia. }
  destruct (update_pheromones_entries (Interactive.initialize_pheromones 2) [0; 1]
              (Interactive.distance_table [(0, 0, 0); (1, 0, 0)]%R) 0.1 100)
    as (_ & H & _).
  rewrite H.
  - rewrite Hlen. change (closed_edges [0; 1]) with [(0, 1); (1, 0)].
    rewrite decide_True by (by left).
    rewrite initialize_pheromones_lookup. by rewrite decide_True by lia.
  - apply NoDup_cons. split; [|apply NoDup_singleton].
    by intros ?%list_elem_of_singleton.
  - rewrite Hlen. simpl. lra.
Defined.

(** ** The points *)

Lemma random_spec (g : rng) :
  ∃ r, (0 <= r < 1)%R ∧ random g = (r, fun k => g (S k)).
Proof.
  unfold random, draw. eexists. split; [|reflexivity].
  assert (2 ^ 53 ≠ 0) as Hnz by (apply Nat.pow_nonzero; lia).
  pose proof (Nat.mod_upper_bound (g 0) (2 ^ 53) Hnz) as Hlt.
  apply lt_INR in Hlt.
  pose proof (pos_INR (g 0 mod 2 ^ 53)) as Hpos.
  assert (0 < INR (2 ^ 53))%R as Hden by lra.
  split.
  - apply Rmult_le_pos; [done|]. by apply Rlt_le, Rinv_0_lt_compat.
  - apply (Rmult_lt_reg_r (INR (2 ^ 53))); [done|].
    unfold Rdiv. rewrite Rmult_assoc, Rinv_l by lra. lra.
Qed.

Lemma uniform_spec (a b : R) (g : rng) :
  ∃ x, (Rmin a b <= x <= Rmax a b)%R ∧ uniform a b g = (x, fun k => g (S k)).
Proof.
  unfold uniform. destruct (random_spec g) as (r & Hr & ->).
  eexists. split; [|reflexivity].
  unfold Rmin, Rmax. destruct (Rle_dec a b); split; nra.
Qed.

Lemma generate_points_from_step (n : nat) (bounds : R * R) (points : list point)
  (g : rng) :
  ∃ p, in_bounds bounds p
       ∧ generate_points_from (S n) bounds points g
         = generate_points_from n bounds (points ++ [p]) (fun k => g (S (S (S k)))).
Proof.
  cbn [generate_points_from].
  destruct (uniform_spec bounds.1 bounds.2 g) as (x & Hx & ->).
  destruct (uniform_spec bounds.1 bounds.2 (fun k => g (S k))) as (y & Hy & ->).
  destruct (uniform_spec bounds.1 bounds.2 (fun k => g (S (S k)))) as (z & Hz & ->).
  exists (x, y, z). split; [|done]. done.
Qed.

Lemma generate_points_from_spec (n : nat) (bounds : R * R) (points : list point)
  (g : rng) :
  ∃ new,
    (generate_points_from n bounds points g).1 = points ++ new
    ∧ length new = n
    ∧ Forall (in_bounds bounds) new
    ∧ ∀ k, (generate_points_from n bounds points g).2 k = g (3 * n + k).
Proof.
  revert points g. induction n as [|n IH]; intros points g.
  - exists []. cbn [generate_points_from]. rewrite app_nil_r. by split_and!.
  - destruct (generate_points_from_step n bounds points g) as (p & Hp & ->).
    destruct (IH (points ++ [p]) (fun k => g (S (S (S k)))))
      as (new & Hnew & Hlen & Hall & Hg).
    exists (p :: new). split_and!.
    + rewrite Hnew. by rewrite <- app_assoc.
    + simpl. lia.
    + by apply Forall_cons_2.
    + intros k. rewrite Hg. f_equal. lia.
Qed.

(** X5.  [generate_points(n, bounds)] returns [n] points whose three
    coordinates lie between the two bounds, whichever of the two is the
    greater, and takes [3 * n] draws from the random source. *)
Theorem generate_points_in_bounds (n : nat) (bounds : R * R) (g : rng) :
  length (generate_points n bounds g).1 = n
  ∧ Forall (in_bounds bounds) (generate_points n bounds g).1
  ∧ ∀ k, (generate_points n bounds g).2 k = g (3 * n + k).
Proof.
  unfold generate_points.
  destruct (generate_points_from_spec n bounds [] g) as (new & -> & Hlen & Hall & Hg).
  done.
Qed.

(** ** The pipeline *)

Lemma foldl_compose {A : Type} (h : A → A) (functions : list (A → A)) (x : A) :
  foldl (fun f g => fun x => f (g x)) h functions x
  = h (foldr (fun f y => f y) x functions).
Proof.
  revert h. induction functions as [|f functions IH]; intros h; [done|].
  cbn [foldl foldr]. by rewrite IH.
Qed.

(** X6.  [compose] of no function raises the [TypeError] of [reduce] on
    an empty sequence.  [compose] of one function or more returns the
    function that applies them from the last to the first, as its
    docstring says: [compose(f, g, h)(x) = f(g(h(x)))]; and the
    composition of a sequence cut in two is the composition of the two
    parts. *)
Theorem compose_applies_right_to_left {A : Type} :
  compose (A := A) [] = Raise TypeError
  ∧ (∀ (f : A → A) functions,
       ∃ c, compose (f :: functions) = Done c
            ∧ ∀ x, c x = foldr (fun f y => f y) x (f :: functions))
  ∧ (∀ (f g h : A → A),
       ∃ c, compose [f; g; h] = Done c ∧ ∀ x, c x = f (g (h x)))
  ∧ (∀ (f g : A → A) fs gs c1 c2 c,
       compose (f :: fs) = Done c1 → compose (g :: gs) = Done c2 →
       compose ((f :: fs) ++ g :: gs) = Done c →
       ∀ x, c x = c1 (c2 x)).
Proof.
  assert (∀ (f : A → A) functions,
            ∃ c, compose (f :: functions) = Done c
                 ∧ ∀ x, c x = foldr (fun f y => f y) x (f :: functions)) as Hc.
  { intros f functions. eexists. split; [reflexivity|].
    intros x. by rewrite foldl_compose. }
  split_and!; [done|done| |].
  - intros f g h. destruct (Hc f [g; h]) as (c & Hdone & Hx). eauto.
  - intros f g fs gs c1 c2 c H1 H2 H.
    destruct (Hc f fs) as (c1' & H1' & Hx1).
    destruct (Hc g gs) as (c2' & H2' & Hx2).
    destruct (Hc f (fs ++ g :: gs)) as (c' & H' & Hx).
    assert (c1' = c1) as <- by congruence.
    assert (c2' = c2) as <- by congruence.
    change ((f :: fs) ++ g :: gs) with (f :: (fs ++ g :: gs)) in H.
    assert (c' = c) as <- by congruence.
    intros x. rewrite Hx, Hx1, Hx2. cbn [foldr]. by rewrite foldr_app.
Qed.

(** ** The keys of the interactive variant *)

Lemma on_keys_cons (key : string) (keys : list string) (control : ControlState) :
  on_keys (key :: keys) control = on_keys keys (on_key key control).
Proof. done. Qed.

Lemma on_key_delay_range (key : string) (control : ControlState) :
  (0.001 <= delay control <= 1)%R →
  (0.001 <= delay (on_key key control) <= 1)%R.
Proof.
  intros Hd. unfold on_key.
  destruct (decide (key = "p" ∨ key = "P")); [done|].
  destruct (decide (key = "r" ∨ key = "R")); [done|].
  destruct (decide (key = "q" ∨ key = "Q")); [done|].
  destruct (decide (key = "up")).
  { cbn [delay]. unfold float_max. destruct (Rlt_dec _ _); lra. }
  destruct (decide (key = "down")); [|done].
  cbn [delay]. unfold float_min. destruct (Rlt_dec _ _); lra.
Qed.

(** X7.  The delay between two frames starts at [0.05] and, whatever
    keys are pressed, stays between [0.001] and [1.0]; and while no bound
    is hit, that is for a delay of [0.001 / 0.7] at least, slowing down
    after speeding up gives the delay back, in exact arithmetic. *)
Theorem delay_stays_in_range (keys : list string) (control : ControlState) :
  (0.001 <= delay control <= 1)%R →
  (0.001 <= delay (on_keys keys control) <= 1)%R
  ∧ (0.001 <= delay control_start <= 1)%R
  ∧ ((0.001 / 0.7 <= delay control)%R →
     delay (on_key "down" (on_key "up" control)) = delay control).
Proof.
  intros Hd. split; [|split].
  - revert control Hd. induction keys as [|key keys IH]; intros control Hd;
      [exact Hd|].
    rewrite on_keys_cons. apply IH. by apply on_key_delay_range.
  - simpl. lra.
  - intros Hlow.
    assert (delay control * 0.7 / 0.7 = delay control)%R as Heq by (field; lra).
    assert (0.001 <= delay control * 0.7)%R as Hup.
    { replace 0.001%R with (0.001 / 0.7 * 0.7)%R at 1 by (field; lra).
      apply Rmult_le_compat_r; lra. }
    assert (float_max 0.001 (delay control * 0.7) = delay control * 0.7)%R as Hmax.
    { unfold float_max. destruct (Rlt_dec _ _); lra. }
    assert (float_min 1.0 (delay control * 0.7 / 0.7) = delay control) as Hmin.
    { unfold float_min. rewrite Heq. destruct (Rlt_dec _ _); lra. }
    unfold on_key. simpl. by rewrite Hmax, Hmin.
Qed.

Lemma delay_stays_in_range_witness :
  (0.001 <= delay (on_keys ["up"; "up"; "down"; "p"] control_start) <= 1)%R.
Proof.
  apply (delay_stays_in_range ["up"; "up"; "down"; "p"] control_start).
  simpl. lra.
Defined.

Lemma on_key_paused (key : string) (control : ControlState) :
  paused (on_key key control)
  = if decide (key = "p" ∨ key = "P") then negb (paused control)
    else paused control.
Proof. unfold on_key. repeat case_decide; done. Qed.

Lemma on_key_restart (key : string) (control : ControlState) :
  restart_requested (on_key key control) = true
  ↔ restart_requested control = true ∨ key = "r" ∨ key = "R".
Proof.
  unfold on_key. destruct (decide (key = "p" ∨ key = "P")) as [Hp|Hp].
  - simpl. split; [by left|].
    intros [Hset|[Hk|Hk]]; [done|subst key..]; by destruct Hp.
  - destruct (decide (key = "r" ∨ key = "R")) as [Hr|Hr].
    + simpl. split; [by right|done].
    + repeat case_decide; simpl; (split; [by left|]); by intros [Hset|Hk].
Qed.

Lemma on_key_quit (key : string) (control : ControlState) :
  quit_requested (on_key key control) = true
  ↔ quit_requested control = true ∨ key = "q" ∨ key = "Q".
Proof.
  unfold on_key. destruct (decide (key = "p" ∨ key = "P")) as [Hp|Hp].
  - simpl. split; [by left|].
    intros [Hset|[Hk|Hk]]; [done|subst key..]; by destruct Hp.
  - destruct (decide (key = "r" ∨ key = "R")) as [Hr|Hr].
    + simpl. split; [by left|].
      intros [Hset|[Hk|Hk]]; [done|subst key..]; by destruct Hr.
    + destruct (decide (key = "q" ∨ key = "Q")) as [Hq|Hq].
      * simpl. split; [by right|done].
      * repeat case_decide; simpl; (split; [by left|]); by intros [Hset|Hk].
Qed.

Lemma on_key_confirmed (key : string) (control : ControlState) :
  confirmed_quit (on_key key control) = confirmed_quit control.
Proof. unfold on_key. repeat case_decide; done. Qed.

(** X8.  The pause flag after a list of keys is the flag before it when
    [p] or [P] was pressed an even number of times, and its negation
    otherwise; no other key touches it. *)
Theorem pause_toggles (keys : list string) (control : ControlState) :
  paused (on_keys keys control)
  = if Nat.even (length (filter (fun key => key = "p" ∨ key = "P") keys))
    then paused control else negb (paused control).
Proof.
  revert control. induction keys as [|key keys IH]; intros control; [done|].
  rewrite on_keys_cons, IH, on_key_paused, filter_cons.
  destruct (decide (key = "p" ∨ key = "P")) as [Hp|Hp]; [|done].
  cbn [length]. rewrite Nat.even_succ, <- Nat.negb_even.
  destruct (Nat.even _); simpl; [done|]. by rewrite negb_involutive.
Qed.

(** X9.  [on_key] never clears a request: after a list of keys the
    restart flag is set exactly when it was set before or [r] or [R] is
    among the keys, the quit flag exactly when it was set before or [q] or
    [Q] is among them, and the flag of the confirmed quit is what it
    was. *)
Theorem requests_are_kept (keys : list string) (control : ControlState) :
  (restart_requested (on_keys keys control) = true
   ↔ restart_requested control = true
     ∨ Exists (fun key => key = "r" ∨ key = "R") keys)
  ∧ (quit_requested (on_keys keys control) = true
     ↔ quit_requested control = true
       ∨ Exists (fun key => key = "q" ∨ key = "Q") keys)
  ∧ confirmed_quit (on_keys keys control) = confirmed_quit control.
Proof.
  revert control. induction keys as [|key keys IH]; intros control.
  - split_and!; [|..|done]; (split; [by left|]); intros [H|H]; [done| |done|];
      by apply Exists_nil in H.
  - rewrite !on_keys_cons. destruct (IH (on_key key control)) as (Hr & Hq & Hc).
    rewrite Hr, Hq, Hc, on_key_restart, on_key_quit, on_key_confirmed.
    rewrite !Exists_cons. split_and!; [tauto|tauto|done].
Qed.

(** ** The result of the optimizer *)

Lemma build_paths_permutations (weight : nat → nat → outcome pyval) (n ants : nat)
  (all_paths : list (list nat)) (g : rng) (paths : list (list nat)) (g' : rng) :
  build_paths weight n ants all_paths g = Done (paths, g') →
  Forall (fun p => p ≡ₚ seq 0 n) all_paths →
  Forall (fun p => p ≡ₚ seq 0 n) paths ∧ length paths = length all_paths + ants.
Proof.
  revert all_paths g. induction ants as [|ants IH]; intros all_paths g.
  - intros [= <- <-] Hall. split; [done|lia].
  - cbn [build_paths]. intros ([p g1] & Hc & Hb)%bind_Done Hall.
    apply construct_within_permutation in Hc.
    apply IH in Hb as [Hperm Hlen].
    + split; [done|]. rewrite length_app in Hlen. simpl in Hlen. lia.
    + apply Forall_app. split; [done|]. by apply Forall_singleton.
Qed.

(** The edges of a tour of two nodes or more that is a permutation of
    [range(n)] join two distinct nodes of [range(n)]. *)
Lemma closed_edges_permutation (n : nat) (path : list nat) (a b : nat) :
  path ≡ₚ seq 0 n → 2 ≤ n → (a, b) ∈ closed_edges path →
  a < n ∧ b < n ∧ a ≠ b.
Proof.
  intros Hperm Hn (i & Hi & <- & <-)%closed_edges_elem.
  assert (length path = n) as Hlen
    by (apply Permutation_length in Hperm; by rewrite length_seq in Hperm).
  assert (NoDup path) as Hnd by (rewrite Hperm; apply NoDup_seq).
  assert (∀ k, k < length path → path !!! k < n) as Hlt.
  { intros k Hk. apply (list_elem_of_lookup_total_2 path) in Hk.
    apply (elem_of_Permutation_proper _ _ _ Hperm), elem_of_seq in Hk. lia. }
  assert ((i + 1) mod length path < length path) as Hi'
    by (apply Nat.mod_upper_bound; lia).
  split_and!; [by apply Hlt|by apply Hlt|].
  intros Heq. apply NoDup_lookup_total in Heq; [|done..].
  destruct (decide (i + 1 < length path)) as [Hs|Hs].
  - rewrite Nat.mod_small in Heq by done. lia.
  - replace (i + 1) with (length path) in Heq by lia.
    rewrite Nat.Div0.mod_same in Heq. lia.
Qed.

Lemma edges_length_positive (distances : gmap (nat * nat) R) (edges : list (nat * nat)) :
  (∀ e, e ∈ edges → ∃ d, distances !! e = Some d ∧ (0 < d)%R) →
  ∃ L, edges_length distances (Fin 0) edges = Fin L
       ∧ (0 <= L)%R ∧ (edges ≠ [] → (0 < L)%R).
Proof.
  induction edges as [|e edges IH]; intros Hall.
  - exists 0%R. split_and!; [done|lra|done].
  - destruct (Hall e) as (d & Hd & Hpos); [by left|].
    destruct IH as (L & HL & Hge & _); [intros e' He'; apply Hall; by right|].
    exists (d + L)%R. rewrite edges_length_cons, Hd, HL.
    split_and!; [done|lra|intros _; lra].
Qed.

Section finite_tours.
Variable distances : gmap (nat * nat) R.
Variable n : nat.
Hypothesis nodes : 2 ≤ n.
Hypothesis positive_distances :
  ∀ c v, c < n → v < n → c ≠ v → ∃ d, distances !! (c, v) = Some d ∧ (0 < d)%R.

(** On positive distances between the nodes, a permutation of
    [range(n)] has a finite, positive length. *)
Lemma permutation_length_positive (path : list nat) :
  path ≡ₚ seq 0 n →
  ∃ L, tour_length distances path = Fin L ∧ (0 < L)%R.
Proof.
  intros Hperm. rewrite tour_length_edges.
  destruct (edges_length_positive distances (closed_edges path)) as (L & HL & _ & Hpos).
  - intros [a b] He.
    destruct (closed_edges_permutation n path a b Hperm nodes He) as (Ha & Hb & Hne).
    by apply positive_distances.
  - exists L. split; [done|]. apply Hpos.
    assert (length path = n) as Hlen
      by (apply Permutation_length in Hperm; by rewrite length_seq in Hperm).
    unfold closed_edges. intros Hnil%fmap_nil_inv.
    apply (f_equal length) in Hnil. rewrite length_seq in Hnil. simpl in Hnil. lia.
Qed.
End finite_tours.

Section result_facts.
Variable distances : gmap (nat * nat) R.
Variable n : nat.
Variables (ants : Z) (alpha beta evaporation q : R).

Lemma iteration_paths (st st' : Headless.colony) :
  Headless.iteration distances n ants alpha beta evaporation q st = Done st' →
  ∃ all_paths best,
    Forall (fun p => p ≡ₚ seq 0 n) all_paths
    ∧ length all_paths = Z.to_nat ants
    ∧ first_min (Headless.compute_path_length distances) all_paths best
    ∧ (xlt (Headless.compute_path_length distances best)
         (Headless.best_length_overall st) →
       Headless.best_length_overall st' = Headless.compute_path_length distances best
       ∧ Headless.best_path_overall st' = Some best)
    ∧ (¬ xlt (Headless.compute_path_length distances best)
           (Headless.best_length_overall st) →
       Headless.best_length_overall st' = Headless.best_length_overall st
       ∧ Headless.best_path_overall st' = Headless.best_path_overall st).
Proof.
  intros (all_paths & best & Hb & Hmin & _ & Hyes & Hno)%iteration_inv.
  apply build_paths_permutations in Hb as [Hperm Hlen]; [|done].
  exists all_paths, best. split_and!; done.
Qed.

Lemma first_min_elem {A : Type} (key : A → xreal) (l : list A) (best : A) :
  first_min key l best → best ∈ l ∧ ∀ p, p ∈ l → xle (key best) (key p).
Proof.
  intros (l1 & l2 & -> & H1 & H2). split.
  - apply elem_of_app. right. by left.
  - intros p [Hp|[->|Hp]%elem_of_cons]%elem_of_app.
    + by apply xlt_xle, H1.
    + apply xle_refl.
    + by apply H2.
Qed.

Lemma iteration_consistent (st st' : Headless.colony) :
  Headless.iteration distances n ants alpha beta evaporation q st = Done st' →
  best_consistent distances n
    (Headless.best_path_overall st) (Headless.best_length_overall st) →
  best_consistent distances n
    (Headless.best_path_overall st') (Headless.best_length_overall st').
Proof.
  intros (all_paths & best & Hperm & _ & Hmin & Hyes & Hno)%iteration_paths Hinv.
  destruct (xlt_dec (Headless.compute_path_length distances best)
              (Headless.best_length_overall st)) as [Hlt|Hge].
  - destruct (Hyes Hlt) as [-> ->].
    apply first_min_elem in Hmin as [Hin _].
    rewrite Forall_forall in Hperm.
    unfold Headless.compute_path_length in *.
    destruct (tour_length distances best) as [L|] eqn:HL; [|done].
    right. exists best, L. split_and!; [done|done|done|by apply Hperm].
  - by destruct (Hno Hge) as [-> ->].
Qed.

Lemma iterate_consistent (k : nat) (st st' : Headless.colony) :
  Headless.iterate distances n ants alpha beta evaporation q k st = Done st' →
  best_consistent distances n
    (Headless.best_path_overall st) (Headless.best_length_overall st) →
  best_consistent distances n
    (Headless.best_path_overall st') (Headless.best_length_overall st').
Proof.
  revert st. induction k as [|k IH]; intros st.
  - by intros [= <-].
  - cbn [Headless.iterate]. intros (st1 & H1 & Hk)%bind_Done Hinv.
    eapply IH; [done|]. by eapply iteration_consistent.
Qed.
End result_facts.

(** X10.  Whatever the points and the parameters, a result that the
    optimizer returns is either [(None, inf)] or a tour that is a
    permutation of [0..N-1] together with the length of that very tour, a
    finite one. *)
Theorem result_is_consistent (points : list point) (iterations ants : Z)
  (alpha beta evaporation q : R) (g : rng)
  (best_path : option (list nat)) (best_length : xreal) (g' : rng) :
  Headless.ant_colony_optimization_simple points
    iterations ants alpha beta evaporation q g
  = Done (best_path, best_length, g') →
  (best_path = None ∧ best_length = PInf)
  ∨ ∃ path L,
      best_path = Some path ∧ best_length = Fin L
      ∧ Headless.compute_path_length
          (Headless.build_distance_matrix_cached points) path = Fin L
      ∧ path ≡ₚ seq 0 (length points).
Proof.
  unfold Headless.ant_colony_optimization_simple.
  intros (st & Hit & [= <- <- <-])%bind_Done.
  apply iterate_consistent in Hit; [done|]. by left.
Qed.

Section finite_best.
Variable distances : gmap (nat * nat) R.
Variable n : nat.
Variables (ants : Z) (alpha beta evaporation q : R).
Hypothesis nodes : 2 ≤ n.
Hypothesis positive_distances :
  ∀ c v, c < n → v < n → c ≠ v → ∃ d, distances !! (c, v) = Some d ∧ (0 < d)%R.

(** An iteration on positive distances leaves a finite best length. *)
Lemma iteration_finite (st st' : Headless.colony) :
  Headless.iteration distances n ants alpha beta evaporation q st = Done st' →
  ∃ L, Headless.best_length_overall st' = Fin L.
Proof.
  intros (all_paths & best & Hperm & _ & Hmin & Hyes & Hno)%iteration_paths.
  apply first_min_elem in Hmin as [Hin _].
  rewrite Forall_forall in Hperm.
  destruct (permutation_length_positive distances n nodes positive_distances best)
    as (L & HL & _); [by apply Hperm|].
  unfold Headless.compute_path_length in *. rewrite HL in Hyes, Hno.
  destruct (xlt_dec (Fin L) (Headless.best_length_overall st)) as [Hlt|Hge].
  - destruct (Hyes Hlt) as [-> _]. by exists L.
  - destruct (Hno Hge) as [-> _].
    destruct (Headless.best_length_overall st) as [L0|]; [by exists L0|].
    by destruct Hge.
Qed.

Lemma iterate_finite (k : nat) (st st' : Headless.colony) :
  1 ≤ k →
  Headless.iterate distances n ants alpha beta evaporation q k st = Done st' →
  ∃ L, Headless.best_length_overall st' = Fin L.
Proof.
  intros Hk. replace k with ((k - 1) + 1) by lia. rewrite iterate_add.
  intros (st1 & _ & H1)%bind_Done. cbn [Headless.iterate] in H1.
  apply bind_Done in H1 as (st2 & H2 & [= <-]). by eapply iteration_finite.
Qed.
End finite_best.

Lemma Rpower_two (x : R) : (0 < x)%R → Rpower x 2 = (x * x)%R.
Proof.
  intros Hx. replace 2%R with (INR 2) by (simpl; lra).
  rewrite Rpower_pow by done. simpl. ring.
Qed.

Lemma edges_length_lower (distances : gmap (nat * nat) R) (dmin : R)
  (edges : list (nat * nat)) :
  (∀ e, e ∈ edges → ∃ d, distances !! e = Some d ∧ (dmin <= d)%R) →
  ∃ L, edges_length distances (Fin 0) edges = Fin L
       ∧ (INR (length edges) * dmin <= L)%R.
Proof.
  induction edges as [|e edges IH]; intros Hall.
  - exists 0%R. split; [done|]. simpl. lra.
  - destruct (Hall e) as (d & Hd & Hge); [by left|].
    destruct IH as (L & HL & Hle); [intros e' He'; apply Hall; by right|].
    exists (d + L)%R. rewrite edges_length_cons, Hd, HL. split; [done|].
    change (length (e :: edges)) with (S (length edges)).
    rewrite S_INR, Rmult_plus_distr_r, Rmult_1_l. lra.
Qed.

(** ** Runs with the default [alpha] and [beta]

    The bounds of this section keep every number of a run within the
    range of the floats: the distances are [dmin] at least, with a square
    of the inverse that is a float, and [T] bounds the pheromone, since
    an entry of [T] at most is, after the evaporation and a deposit of
    [q / (n * dmin)] at most, [T] at most again. *)
Section default_run.
Variable distances : gmap (nat * nat) R.
Variable n : nat.
Variables (ants : Z) (evaporation q dmin T : R).
Hypothesis nodes : 2 ≤ n.
Hypothesis some_ant : (1 ≤ ants)%Z.
Hypothesis valid_evaporation : (0 <= evaporation < 1)%R.
Hypothesis valid_q : (0 <= q)%R.
Hypothesis positive_dmin : (0 < dmin)%R.
Hypothesis far_apart :
  ∀ c v, c < n → v < n → c ≠ v → ∃ d, distances !! (c, v) = Some d ∧ (dmin <= d)%R.
Hypothesis inverse_square : (1 / dmin * (1 / dmin) <= DBL_MAX)%R.
Hypothesis initial_bound : (0.1 <= T)%R.
Hypothesis T_float : (T <= DBL_MAX)%R.
Hypothesis T_stable : (T * (1 - evaporation) + q / (INR n * dmin) <= T)%R.

Lemma far_apart_positive (c v : nat) :
  c < n → v < n → c ≠ v → ∃ d, distances !! (c, v) = Some d ∧ (0 < d)%R.
Proof.
  intros Hc Hv Hne. destruct (far_apart c v Hc Hv Hne) as (d & Hd & Hge).
  exists d. split; [done|lra].
Qed.

Lemma default_weight (ph : gmap (nat * nat) R) (c v : nat) :
  bounded_table T ph → c < n → v < n →
  ∃ w, Headless.transition_weight ph distances 1 2 c v = Done (Float w).
Proof.
  intros Hb Hc Hv. destruct (decide (c = v)) as [->|Hne].
  { rewrite transition_weight_same. eauto. }
  destruct (far_apart c v Hc Hv Hne) as (d & Hd & Hge).
  rewrite (transition_weight_present _ _ _ _ _ _ d); [|done|done|lra].
  assert (0 < default 0.1%R (ph !! (c, v)) <= T)%R as Htau.
  { destruct (ph !! (c, v)) as [tau|] eqn:Hph; simpl; [by apply (Hb (c, v))|lra]. }
  assert (0 < 1 / d <= 1 / dmin)%R as Heta.
  { split; [apply Rdiv_lt_0_compat; lra|].
    unfold Rdiv. rewrite !Rmult_1_l. apply Rinv_le_contravar; lra. }
  rewrite weight_formula_pos; [eauto|lra|lra| |].
  - rewrite Rpower_1 by lra. lra.
  - rewrite Rpower_two by lra.
    apply Rle_trans with (1 / dmin * (1 / dmin))%R; [|done].
    apply Rmult_le_compat; lra.
Qed.

Lemma iteration_bounded (st st' : Headless.colony) :
  bounded_table T (Headless.pheromone st) →
  Headless.iteration distances n ants 1 2 evaporation q st = Done st' →
  bounded_table T (Headless.pheromone st').
Proof.
  intros Hb (all_paths & best & Hbp & Hmin & Hph & _)%iteration_inv.
  apply build_paths_permutations in Hbp as [Hperm _]; [|done].
  rewrite Forall_forall in Hperm.
  apply first_min_elem in Hmin as [Hin _]. apply Hperm in Hin.
  assert (NoDup best) as Hnd by (rewrite Hin; apply NoDup_seq).
  assert (length best = n) as Hlen
    by (apply Permutation_length in Hin; by rewrite length_seq in Hin).
  destruct (edges_length_lower distances dmin (closed_edges best)) as (L & HL & Hge).
  { intros [a b] He.
    destruct (closed_edges_permutation n best a b Hin nodes He) as (Ha & Hb' & Hne).
    by apply far_apart. }
  unfold closed_edges in Hge. rewrite length_fmap, length_seq, Hlen in Hge.
  assert (2 <= INR n)%R as Hn2.
  { change 2%R with (INR 2). apply le_INR. lia. }
  assert (0 < INR n * dmin)%R as Hnd0 by (apply Rmult_lt_0_compat; lra).
  assert (0 <= q / L <= q / (INR n * dmin))%R as Hdep.
  { unfold Rdiv. split.
    - apply Rmult_le_pos; [done|]. left. apply Rinv_0_lt_compat. lra.
    - apply Rmult_le_compat_l; [done|]. apply Rinv_le_contravar; lra. }
  intros k tau. rewrite Hph. unfold Headless.compute_path_length.
  rewrite tour_length_edges, HL.
  rewrite reinforce_lookup by (done || simpl; lra).
  rewrite evaporate_lookup.
  destruct (Headless.pheromone st !! k) as [tau0|] eqn:Hk; [|by case_decide].
  apply Hb in Hk.
  assert (0 < tau0 * (1 - evaporation) <= T * (1 - evaporation))%R as Hev.
  { split; [apply Rmult_lt_0_compat; lra|apply Rmult_le_compat_r; lra]. }
  case_decide; simpl; intros [= <-]; lra.
Qed.

Lemma iterate_bounded (k : nat) (st : Headless.colony) :
  bounded_table T (Headless.pheromone st) →
  ∃ st', Headless.iterate distances n ants 1 2 evaporation q k st = Done st'.
Proof.
  revert st. induction k as [|k IH]; intros st Hb; [by eexists|].
  cbn [Headless.iterate].
  destruct (iteration_done distances n ants 1 2 evaporation q) with (st := st)
    as [st1 H1]; [lia|done| |].
  { intros c v. by apply default_weight. }
  rewrite H1. cbn. apply IH. by eapply iteration_bounded.
Qed.

Lemma initial_bounded (g : rng) :
  bounded_table T (Headless.pheromone (Headless.initial n g)).
Proof.
  intros [a b] tau. unfold Headless.initial. cbn [Headless.pheromone].
  rewrite fill_table_lookup. case_decide; [|done]. intros [= <-]. lra.
Qed.

(** Within the bounds, the iterations, one at least, end with a best
    tour. *)
Lemma iterate_returns_tour (k : nat) (g : rng) :
  1 ≤ k →
  ∃ st' path L,
    Headless.iterate distances n ants 1 2 evaporation q k (Headless.initial n g)
    = Done st'
    ∧ Headless.best_path_overall st' = Some path
    ∧ Headless.best_length_overall st' = Fin L
    ∧ tour_length distances path = Fin L
    ∧ path ≡ₚ seq 0 n
    ∧ (0 < L)%R.
Proof.
  intros Hk.
  destruct (iterate_bounded k (Headless.initial n g) (initial_bounded g))
    as [st' Hst'].
  exists st'.
  pose proof Hst' as Hfin.
  apply iterate_finite in Hfin as [L HL];
    [|done|apply far_apart_positive|done].
  pose proof Hst' as Hcons. apply iterate_consistent in Hcons; [|by left].
  destruct Hcons as [[_ Hinf]|(p & L' & Hp & HL' & Hlen & Hperm)]; [congruence|].
  exists p, L'. split_and!; [done..|].
  destruct (permutation_length_positive _ _ nodes far_apart_positive p Hperm)
    as (L2 & HL2 & Hgt).
  congruence.
Qed.
End default_run.

(** A run on the two points [(0, 0, 0)] and [(1, 0, 0)] with the default
    parameters: the pheromone stays below [501]. *)
Lemma unit_pair_run (ants : Z) (k : nat) (g : rng) :
  (1 ≤ ants)%Z → 1 ≤ k →
  ∃ st' path L,
    Headless.iterate (Headless.build_distance_matrix_cached [(0, 0, 0); (1, 0, 0)]%R)
      2 ants 1 2 0.1 100 k (Headless.initial 2 g)
    = Done st'
    ∧ Headless.best_path_overall st' = Some path
    ∧ Headless.best_length_overall st' = Fin L
    ∧ tour_length (Headless.build_distance_matrix_cached [(0, 0, 0); (1, 0, 0)]%R) path
      = Fin L
    ∧ path ≡ₚ seq 0 2
    ∧ (0 < L)%R.
Proof.
  intros Hants Hk. pose proof DBL_MAX_large as Hmax.
  apply (iterate_returns_tour _ 2 ants 0.1 100 1 501); try done; try lra.
  - intros c v Hc Hv Hne. exists 1%R. split; [by apply unit_pair_distance|lra].
  - simpl. lra.
Qed.

Lemma result_is_consistent_witness :
  ∃ path L,
    Headless.compute_path_length
      (Headless.build_distance_matrix_cached [(0, 0, 0); (1, 0, 0)]%R) path = Fin L
    ∧ path ≡ₚ seq 0 (length [(0, 0, 0); (1, 0, 0)]%R).
Proof.
  destruct (unit_pair_run 20 (Z.to_nat 50) (fun _ => 0))
    as (st' & path & L & Hst' & Hp & HL & _); [lia|lia|].
  destruct (result_is_consistent [(0, 0, 0); (1, 0, 0)]%R 50 20 1 2 0.1 100
              (fun _ => 0) (Some path) (Fin L) (Headless.source st'))
    as [[H _]|(p & L' & _ & _ & Hlen & Hperm)].
  - unfold Headless.ant_colony_optimization_simple.
    change (length [(0, 0, 0); (1, 0, 0)]%R) with 2. rewrite Hst'. cbn.
    by rewrite Hp, HL.
  - done.
  - by exists p, L'.
Defined.

Lemma best_length_monotone_witness :
  ∃ sj,
    Headless.iterate (Headless.build_distance_matrix_cached [(0, 0, 0); (1, 0, 0)]%R)
      2 20 1 2 0.1 100 3 (Headless.initial 2 (fun _ => 0)) = Done sj
    ∧ xle (Headless.best_length_overall sj) PInf.
Proof.
  destruct (unit_pair_run 20 3 (fun _ => 0)) as (sj & _ & _ & Hj & _); [lia|lia|].
  exists sj. split; [done|].
  apply (best_length_monotone
           (Headless.build_distance_matrix_cached [(0, 0, 0); (1, 0, 0)]%R)
           2 20 1 2 0.1 100 (fun _ => 0) 0 3 (Headless.initial 2 (fun _ => 0)) sj);
    [lia|done|done].
Defined.

(** X11.  Called with the default [alpha] and [beta], as [main] calls
    it, on two points or more, with an iteration and an ant at least, an
    evaporation rate in [[0, 1)] and [q >= 0], the optimizer raises nothing
    and returns a tour, a permutation of [0..N-1] with its own length,
    finite and positive, when the numbers stay within the range of the
    floats: the distances are [dmin] at least and have a square that is a
    float, as is the square of [1 / dmin]; and [T] bounds the pheromone
    ([0.1 <= T] and [T * (1 - evaporation) + q / (N * dmin) <= T]) with
    [N * T / dmin ** 2] a float. *)
Theorem valid_run_returns_tour (points : list point) (iterations ants : Z)
  (evaporation q dmin T : R) (g : rng) :
  2 ≤ length points → (1 ≤ iterations)%Z → (1 ≤ ants)%Z →
  (0 <= evaporation < 1)%R → (0 <= q)%R → (0 < dmin)%R →
  (∀ i j, i < length points → j < length points → i ≠ j →
     (dmin <= euclid (points !!! i) (points !!! j))%R
     ∧ (euclid (points !!! i) (points !!! j) * euclid (points !!! i) (points !!! j)
        <= DBL_MAX)%R) →
  (1 / dmin * (1 / dmin) <= DBL_MAX)%R →
  (0.1 <= T <= DBL_MAX)%R →
  (T * (1 - evaporation) + q / (INR (length points) * dmin) <= T)%R →
  (INR (length points) * (T * (1 / dmin * (1 / dmin))) <= DBL_MAX)%R →
  ∃ path L g',
    Headless.ant_colony_optimization_simple points
      iterations ants 1 2 evaporation q g
    = Done (Some path, Fin L, g')
    ∧ path ≡ₚ seq 0 (length points)
    ∧ Headless.compute_path_length
        (Headless.build_distance_matrix_cached points) path = Fin L
    ∧ (0 < L)%R.
Proof.
  intros Hn Hit Hants Hrho Hq Hdmin Hdist Hinv [HT0 HT1] HT _.
  destruct (iterate_returns_tour (Headless.build_distance_matrix_cached points)
              (length points) ants evaporation q dmin T Hn Hants Hrho Hq Hdmin)
    with (k := Z.to_nat iterations) (g := g)
    as (st' & path & L & Hst' & Hp & HL & Hlen & Hperm & Hgt);
    [|done|done|done|done|lia|].
  { intros c v Hc Hv Hne. eexists. split.
    - rewrite build_distance_matrix_cached_lookup. by rewrite decide_True.
    - by apply Hdist. }
  unfold Headless.ant_colony_optimization_simple. rewrite Hst'. cbn.
  exists path, L, (Headless.source st'). by rewrite Hp, HL.
Qed.

Lemma valid_run_returns_tour_witness :
  ∃ path L g',
    Headless.ant_colony_optimization_simple [(0, 0, 0); (1, 0, 0)]%R
      3 20 1 2 0.1 100 (fun _ => 0)
    = Done (Some path, Fin L, g')
    ∧ path ≡ₚ seq 0 (length [(0, 0, 0); (1, 0, 0)]%R)
    ∧ Headless.compute_path_length
        (Headless.build_distance_matrix_cached [(0, 0, 0); (1, 0, 0)]%R) path = Fin L
    ∧ (0 < L)%R.
Proof.
  pose proof DBL_MAX_large as Hmax.
  apply (valid_run_returns_tour [(0, 0, 0); (1, 0, 0)]%R 3 20 0.1 100 1 501
           (fun _ => 0)).
  - simpl. lia.
  - lia.
  - lia.
  - lra.
  - lra.
  - lra.
  - intros i j Hi Hj Hne.
    assert (euclid (([(0, 0, 0); (1, 0, 0)]%R : list point) !!! i)
              (([(0, 0, 0); (1, 0, 0)]%R : list point) !!! j) = 1%R) as ->.
    { simpl in Hi, Hj. destruct i as [|[|i]], j as [|[|j]]; try lia.
      - exact euclid_unit.
      - etrans; [apply euclid_sym|exact euclid_unit]. }
    lra.
  - lra.
  - lra.
  - simpl. lra.
  - simpl. lra.
Defined.

(** ** A single point, and none *)

Lemma construct_one (weight : nat → nat → outcome pyval) (g : rng) :
  construct weight 1 g = Done ([0], (draw g).2).
Proof.
  unfold construct, construct_within, randint0. destruct (draw g) as [k g1].
  rewrite Nat.mod_1_r. unfold mbind, outcome_bind. rewrite walk_unfold.
  by rewrite decide_False by (rewrite size_singleton; lia).
Qed.

Lemma build_paths_one (weight : nat → nat → outcome pyval) (ants : nat)
  (all_paths : list (list nat)) (g : rng) :
  ∃ g', build_paths weight 1 ants all_paths g
        = Done (all_paths ++ replicate ants [0], g')
        ∧ ∀ i, g' i = g (ants + i).
Proof.
  revert all_paths g. induction ants as [|ants IH]; intros all_paths g.
  - exists g. split; [|done]. cbn [build_paths replicate]. by rewrite app_nil_r.
  - cbn [build_paths]. rewrite construct_one. cbn.
    destruct (IH (all_paths ++ [[0]]) (fun k => g (S k))) as (g' & -> & Hg').
    exists g'. split.
    + by rewrite <- app_assoc.
    + intros i. by rewrite Hg'.
Qed.

Lemma min_from_replicate {A : Type} (key : A → xreal) (x : A) (k : nat) :
  min_from key x (replicate k x) = x.
Proof.
  induction k as [|k IH]; [done|]. cbn [replicate min_from].
  by destruct (xlt_dec (key x) (key x)).
Qed.

Lemma iteration_one (distances : gmap (nat * nat) R) (ants : Z)
  (alpha beta evaporation q : R) (st : Headless.colony) :
  distances !! (0, 0) = None → (1 ≤ ants)%Z →
  ∃ st', Headless.iteration distances 1 ants alpha beta evaporation q st = Done st'
         ∧ Headless.best_path_overall st' = Headless.best_path_overall st
         ∧ Headless.best_length_overall st' = Headless.best_length_overall st
         ∧ ∀ i, Headless.source st' i = Headless.source st (Z.to_nat ants + i).
Proof.
  intros Hnone Hants. unfold Headless.iteration.
  destruct (build_paths_one
              (Headless.transition_weight (Headless.pheromone st) distances alpha beta)
              (Z.to_nat ants) [] (Headless.source st)) as (g' & -> & Hg').
  destruct (Z.to_nat ants) as [|k] eqn:Hk; [lia|].
  assert (tour_length distances [0] = PInf) as Hlen.
  { rewrite tour_length_edges. change (closed_edges [0]) with [(0, 0)].
    by rewrite edges_length_cons, Hnone. }
  cbn [replicate app]. unfold py_min, Headless.compute_path_length.
  cbn -[min_from replicate reinforce evaporate tour_length].
  rewrite min_from_replicate, Hlen. cbn.
  eexists. split; [done|]. cbn. split_and!; done.
Qed.

Lemma iterate_one (distances : gmap (nat * nat) R) (ants : Z)
  (alpha beta evaporation q : R) (k : nat) (st : Headless.colony) :
  distances !! (0, 0) = None → (1 ≤ ants)%Z →
  ∃ st', Headless.iterate distances 1 ants alpha beta evaporation q k st = Done st'
         ∧ Headless.best_path_overall st' = Headless.best_path_overall st
         ∧ Headless.best_length_overall st' = Headless.best_length_overall st
         ∧ ∀ i, Headless.source st' i = Headless.source st (k * Z.to_nat ants + i).
Proof.
  intros Hnone Hants. revert st. induction k as [|k IH]; intros st.
  - exists st. split_and!; done.
  - cbn [Headless.iterate].
    destruct (iteration_one distances ants alpha beta evaporation q st Hnone Hants)
      as (st1 & -> & Hp1 & Hl1 & Hg1).
    cbn. destruct (IH st1) as (st' & -> & Hp & Hl & Hg).
    exists st'. split_and!; [done|congruence|congruence|].
    intros i. rewrite Hg, Hg1. f_equal. lia.
Qed.

(** X12.  A single point has no tour to return: with an ant at least
    the optimizer returns [(None, inf)] whatever the other parameters, each
    ant of each iteration having drawn its start node and nothing else. *)
Theorem single_point_has_no_tour (p : point) (iterations ants : Z)
  (alpha beta evaporation q : R) (g : rng) :
  (1 ≤ ants)%Z →
  ∃ g', Headless.ant_colony_optimization_simple [p]
          iterations ants alpha beta evaporation q g
        = Done (None, PInf, g')
        ∧ ∀ i, g' i = g (Z.to_nat iterations * Z.to_nat ants + i).
Proof.
  intros Hants. unfold Headless.ant_colony_optimization_simple.
  destruct (iterate_one (Headless.build_distance_matrix_cached [p]) ants
              alpha beta evaporation q (Z.to_nat iterations)
              (Headless.initial (length [p]) g))
    as (st' & Hst' & Hp & Hl & Hg); [|done|].
  { rewrite build_distance_matrix_cached_lookup. by rewrite decide_False by lia. }
  change (length [p]) with 1 in *. rewrite Hst'. cbn.
  exists (Headless.source st'). rewrite Hp, Hl. done.
Qed.

Lemma single_point_has_no_tour_witness :
  ∃ g', Headless.ant_colony_optimization_simple [(0, 0, 0)%R]
          50 20 1 2 0.1 100 (fun k => k)
        = Done (None, PInf, g')
        ∧ ∀ i, g' i = (Z.to_nat 50 * Z.to_nat 20 + i).
Proof.
  apply (single_point_has_no_tour (0, 0, 0)%R 50 20 1 2 0.1 100 (fun k => k)). lia.
Defined.

(** X13.  Without points there is no start node to draw: with an
    iteration to run and an ant at least the optimizer raises the
    [ValueError] of [random.randint(0, -1)], and so does a pass of the
    interactive loop, which raises [ValueError] without ants as well
    ([min] of no tours). *)
Theorem no_points_raise (iterations ants : Z) (alpha beta evaporation q : R)
  (distances pheromone : gmap (nat * nat) R) (g : rng) :
  ((1 ≤ iterations)%Z → (1 ≤ ants)%Z →
   Headless.ant_colony_optimization_simple []
     iterations ants alpha beta evaporation q g
   = Raise ValueError)
  ∧ Interactive.iteration distances 0 ants pheromone g = Raise ValueError.
Proof.
  split.
  - intros Hit Hants. unfold Headless.ant_colony_optimization_simple.
    rewrite (iterate_raises _ _ _ _ _ _ _ _ _ ValueError); [done| |lia].
    by apply iteration_raises.
  - unfold Interactive.iteration.
    destruct (Z.to_nat ants) as [|k]; done.
Qed.

Lemma no_points_raise_witness :
  Headless.ant_colony_optimization_simple [] 30 15 1 2 0.1 100 (fun _ => 0)
  = Raise ValueError.
Proof.
  apply (proj1 (no_points_raise 30 15 1 2 0.1 100 ∅ ∅ (fun _ => 0))); lia.
Defined.

(** ** Two points *)

Lemma two_points_length (p0 p1 : point) (path : list nat) :
  path ≡ₚ seq 0 2 →
  (path = [0; 1] ∨ path = [1; 0])
  ∧ tour_length (Headless.build_distance_matrix_cached [p0; p1]) path
    = Fin (2 * euclid p0 p1).
Proof.
  intros Hperm.
  assert (∀ a b, a < 2 → b < 2 → a ≠ b →
            Headless.build_distance_matrix_cached [p0; p1] !! (a, b)
            = Some (euclid p0 p1)) as Hd.
  { intros a b Ha Hb Hab. rewrite build_distance_matrix_cached_lookup.
    rewrite decide_True by (simpl; lia).
    destruct a as [|[|a]], b as [|[|b]]; try lia; simpl; [done|].
    by rewrite euclid_sym. }
  symmetry in Hperm. apply Permutation_length_2_inv in Hperm.
  split; [done|]. rewrite tour_length_edges.
  destruct Hperm as [-> | ->].
  - change (closed_edges [0; 1]) with [(0, 1); (1, 0)].
    rewrite !edges_length_cons, !Hd by lia. simpl. f_equal. lra.
  - change (closed_edges [1; 0]) with [(1, 0); (0, 1)].
    rewrite !edges_length_cons, !Hd by lia. simpl. f_equal. lra.
Qed.

(** X14.  Two points have one closed tour, there and back: when a run
    with an iteration at least returns, it returns [[0; 1]] or [[1; 0]]
    and twice the distance between the two points (the square of the
    distance being a float, so that the distance is not [inf]). *)
Theorem two_points_tour (p0 p1 : point) (iterations ants : Z)
  (alpha beta evaporation q : R) (g : rng)
  (best_path : option (list nat)) (best_length : xreal) (g' : rng) :
  (1 ≤ iterations)%Z →
  (euclid p0 p1 * euclid p0 p1 <= DBL_MAX)%R →
  Headless.ant_colony_optimization_simple [p0; p1]
    iterations ants alpha beta evaporation q g
  = Done (best_path, best_length, g') →
  (best_path = Some [0; 1] ∨ best_path = Some [1; 0])
  ∧ best_length = Fin (2 * euclid p0 p1).
Proof.
  intros Hit _. unfold Headless.ant_colony_optimization_simple.
  change (length [p0; p1]) with 2.
  intros (st & Hst & [= <- <- <-])%bind_Done.
  replace (Z.to_nat iterations) with ((Z.to_nat iterations - 1) + 1) in Hst by lia.
  rewrite iterate_add in Hst. apply bind_Done in Hst as (st1 & Hst1 & Hlast).
  cbn [Headless.iterate] in Hlast.
  apply bind_Done in Hlast as (st2 & Hlast & [= <-]).
  apply iterate_consistent in Hst1; [|by left].
  apply iteration_paths in Hlast
    as (all_paths & best & Hperm & _ & Hmin & Hyes & Hno).
  apply first_min_elem in Hmin as [Hin _].
  rewrite Forall_forall in Hperm. apply Hperm in Hin.
  destruct (two_points_length p0 p1 best Hin) as [Hbest Hlen].
  unfold Headless.compute_path_length in *. rewrite Hlen in Hyes, Hno.
  destruct (xlt_dec (Fin (2 * euclid p0 p1)) (Headless.best_length_overall st1))
    as [Hlt|Hge].
  - destruct (Hyes Hlt) as [-> ->]. split; [|done].
    destruct Hbest as [-> | ->]; auto.
  - destruct (Hno Hge) as [-> ->].
    destruct Hst1 as [[_ Hinf]|(p & L & -> & HL & Hp & Hpp)].
    { rewrite Hinf in Hge. by destruct Hge. }
    destruct (two_points_length p0 p1 p Hpp) as [Hp01 Hlenp].
    rewrite HL. split; [destruct Hp01 as [-> | ->]; auto|congruence].
Qed.

Lemma two_points_tour_witness :
  ∃ path g',
    Headless.ant_colony_optimization_simple [(0, 0, 0); (1, 0, 0)]%R
      50 20 1 2 0.1 100 (fun _ => 0)
    = Done (Some path, Fin (2 * euclid (0, 0, 0)%R (1, 0, 0)%R), g')
    ∧ (path = [0; 1] ∨ path = [1; 0]).
Proof.
  destruct (unit_pair_run 20 (Z.to_nat 50) (fun _ => 0))
    as (st' & path & L & Hst' & Hp & HL & _); [lia|lia|].
  assert (Headless.ant_colony_optimization_simple [(0, 0, 0); (1, 0, 0)]%R
            50 20 1 2 0.1 100 (fun _ => 0)
          = Done (Some path, Fin L, Headless.source st')) as Hrun.
  { unfold Headless.ant_colony_optimization_simple.
    change (length [(0, 0, 0); (1, 0, 0)]%R) with 2. rewrite Hst'. cbn.
    by rewrite Hp, HL. }
  destruct (two_points_tour (0, 0, 0)%R (1, 0, 0)%R 50 20 1 2 0.1 100 (fun _ => 0)
              (Some path) (Fin L) (Headless.source st')) as [Hpath HL2];
    [lia| |done|].
  { rewrite euclid_unit. pose proof DBL_MAX_large. lra. }
  exists path, (Headless.source st'). rewrite Hrun, HL2. split; [done|].
  destruct Hpath as [[= ->]|[= ->]]; auto.
Defined.

(** ** The best length and the tours of an iteration *)

(** X15.  After an iteration of the optimizer the best length overall
    is at most the length of each of the [ants] tours of that iteration,
    every one a permutation of [0..n-1]; and the best tour overall is the
    one of before or, when the length has gone down, a tour of this
    iteration with the new best length. *)
Theorem best_length_bounds_tours (distances : gmap (nat * nat) R) (n : nat) (ants : Z)
  (alpha beta evaporation q : R) (st st' : Headless.colony) :
  Headless.iteration distances n ants alpha beta evaporation q st = Done st' →
  ∃ all_paths,
    build_paths (Headless.transition_weight (Headless.pheromone st) distances alpha beta)
      n (Z.to_nat ants) [] (Headless.source st)
    = Done (all_paths, Headless.source st')
    ∧ length all_paths = Z.to_nat ants
    ∧ (∀ p, p ∈ all_paths →
         p ≡ₚ seq 0 n
         ∧ xle (Headless.best_length_overall st')
             (Headless.compute_path_length distances p))
    ∧ ((Headless.best_path_overall st' = Headless.best_path_overall st
        ∧ Headless.best_length_overall st' = Headless.best_length_overall st)
       ∨ ∃ p, p ∈ all_paths
              ∧ Headless.best_path_overall st' = Some p
              ∧ Headless.best_length_overall st'
                = Headless.compute_path_length distances p
              ∧ xlt (Headless.best_length_overall st')
                  (Headless.best_length_overall st)).
Proof.
  intros (all_paths & best & Hb & Hmin & _ & Hyes & Hno)%iteration_inv.
  exists all_paths. split; [done|].
  apply build_paths_permutations in Hb as [Hperm Hlen]; [|done].
  rewrite Forall_forall in Hperm.
  apply first_min_elem in Hmin as [Hin Hle].
  destruct (xlt_dec (Headless.compute_path_length distances best)
              (Headless.best_length_overall st)) as [Hlt|Hge].
  - destruct (Hyes Hlt) as [HL HP]. rewrite HL, HP.
    split_and!; [done| |].
    + intros p Hp. split; [by apply Hperm|by apply Hle].
    + right. by exists best.
  - destruct (Hno Hge) as [HL HP]. rewrite HL, HP.
    split_and!; [done| |by left].
    intros p Hp. split; [by apply Hperm|].
    eapply xle_trans; [by apply not_xlt_xle|by apply Hle].
Qed.

Lemma best_length_bounds_tours_witness :
  ∃ all_paths : list (list nat), length all_paths = Z.to_nat 20.
Proof.
  destruct (iteration_done (Headless.build_distance_matrix_cached [(0, 0, 0); (1, 0, 0)]%R)
              2 20 1 2 0.1 100) with (st := Headless.initial 2 (fun _ => 0))
    as [st' Hst'].
  - lia.
  - lia.
  - apply unit_pair_initial_weight.
  - destruct (best_length_bounds_tours _ _ _ _ _ _ _ _ _ Hst')
      as (all_paths & _ & Hlen & _).
    by exists all_paths.
Defined.

(** ** The average edge of the best tour *)

Lemma point_at_lt (points : list point) (i : nat) :
  i < length points → point_at points i = Done (points !!! i).
Proof.
  intros Hi. unfold point_at.
  by rewrite (list_lookup_lookup_total_lt points i Hi).
Qed.

Lemma edges_length_infinite (distances : gmap (nat * nat) R) (edges : list (nat * nat)) :
  edges_length distances PInf edges = PInf.
Proof. by rewrite edges_length_start. Qed.

Lemma edges_length_step (distances : gmap (nat * nat) R) (total : xreal)
  (e : nat * nat) (edges : list (nat * nat)) :
  edges_length distances total (e :: edges)
  = edges_length distances
      (xadd total (from_option Fin PInf (distances !! e))) edges.
Proof. done. Qed.

(** The loop of [main] computes from the coordinates what
    [compute_path_length] reads in the table, when the latter is finite. *)
Lemma total_distance_from_table (points : list point) (best_path : list nat)
  (indices : list nat) (total L : R) :
  edges_length (Headless.build_distance_matrix_cached points) (Fin total)
    ((fun i => (best_path !!! i, best_path !!! ((i + 1) mod length best_path)))
       <$> indices)
  = Fin L →
  total_distance_from points best_path indices total = Done L.
Proof.
  revert total. induction indices as [|i indices IH]; intros total.
  - by intros [= <-].
  - rewrite fmap_cons, edges_length_step, build_distance_matrix_cached_lookup.
    cbn [total_distance_from]. case_decide as Hin.
    + destruct Hin as (Ha & Hb & _). cbn [from_option xadd].
      rewrite !point_at_lt by done. cbn. apply IH.
    + cbn [from_option xadd]. by rewrite edges_length_infinite.
Qed.

(** X16.  The average edge length that [main] computes from the
    coordinates of the points is [0.0] without a tour and for the empty
    tour; for a tour of finite length [L] in the distance table of the
    points it is [L] over the number of its nodes; and a tour whose first
    node is no index of the points raises [IndexError]. *)
Theorem average_edge_length_agrees (points : list point) (path : list nat) :
  avg_edge_length points None = Done 0%R
  ∧ avg_edge_length points (Some []) = Done 0%R
  ∧ (∀ L, path ≠ [] →
       Headless.compute_path_length
         (Headless.build_distance_matrix_cached points) path = Fin L →
       avg_edge_length points (Some path) = Done (L / INR (length path))%R)
  ∧ (∀ a, path !! 0 = Some a → length points ≤ a →
       avg_edge_length points (Some path) = Raise IndexError).
Proof.
  split_and!; [done|done| |].
  - intros L Hne Hlen. destruct path as [|a path]; [done|].
    unfold avg_edge_length.
    rewrite (total_distance_from_table points (a :: path) _ 0 L); [done|].
    exact Hlen.
  - intros a Ha Hout. destruct path as [|a' path]; [done|].
    injection Ha as ->. unfold avg_edge_length.
    cbn [length seq total_distance_from].
    change ((a :: path) !!! 0) with a.
    assert (point_at points a = Raise IndexError) as ->; [|done].
    unfold point_at. by rewrite lookup_ge_None_2 by lia.
Qed.

Lemma average_edge_length_agrees_witness :
  avg_edge_length [(0, 0, 0); (3, 4, 0)]%R (Some [0; 1])
  = Done ((0 + euclid (0, 0, 0)%R (3, 4, 0)%R + euclid (3, 4, 0)%R (0, 0, 0)%R)
          / INR (length [0; 1]))%R.
Proof.
  destruct (average_edge_length_agrees [(0, 0, 0); (3, 4, 0)]%R [0; 1])
    as (_ & _ & H & _).
  apply H; [done|].
  unfold Headless.compute_path_length. rewrite tour_length_edges.
  change (closed_edges [0; 1]) with [(0, 1); (1, 0)].
  rewrite !edges_length_step, !build_distance_matrix_cached_lookup.
  rewrite !decide_True by (simpl; lia). reflexivity.
Defined.

(** X18.  Whatever the optimizer returns, [main] computes from it the
    average edge [0.0] for [(None, inf)] and otherwise the returned best
    length over the number of points: the two columns of its summary
    agree. *)
Theorem average_edge_of_result (points : list point) (iterations ants : Z)
  (alpha beta evaporation q : R) (g : rng)
  (best_path : option (list nat)) (best_length : xreal) (g' : rng) :
  Headless.ant_colony_optimization_simple points
    iterations ants alpha beta evaporation q g
  = Done (best_path, best_length, g') →
  avg_edge_length points best_path
  = Done match best_length with
         | Fin L => (L / INR (length points))%R
         | PInf => 0%R
         end.
Proof.
  unfold Headless.ant_colony_optimization_simple.
  intros (st & Hit & [= <- <- <-])%bind_Done.
  apply iterate_consistent in Hit; [|by left].
  destruct Hit as [[-> ->]|(p & L & -> & -> & Hlen & Hperm)]; [done|].
  assert (length p = length points) as Hn
    by (apply Permutation_length in Hperm; by rewrite length_seq in Hperm).
  destruct p as [|a p].
  - simpl in Hn. rewrite <- Hn. injection Hlen as <-. simpl.
    do 2 f_equal. unfold Rdiv. by rewrite Rmult_0_l.
  - rewrite <- Hn. unfold avg_edge_length.
    rewrite (total_distance_from_table points (a :: p) _ 0 L); [done|].
    exact Hlen.
Qed.

Lemma average_edge_of_result_witness :
  ∃ path L,
    avg_edge_length [(0, 0, 0); (1, 0, 0)]%R (Some path)
    = Done (L / INR (length [(0, 0, 0); (1, 0, 0)]%R))%R.
Proof.
  destruct (unit_pair_run 15 (Z.to_nat 30) (fun _ => 0))
    as (st' & path & L & Hst' & Hp & HL & _); [lia|lia|].
  exists path, L.
  apply (average_edge_of_result [(0, 0, 0); (1, 0, 0)]%R 30 15 1 2 0.1 100
           (fun _ => 0) (Some path) (Fin L) (Headless.source st')).
  unfold Headless.ant_colony_optimization_simple.
  change (length [(0, 0, 0); (1, 0, 0)]%R) with 2. rewrite Hst'. cbn.
  by rewrite Hp, HL.
Defined.

(** ** A pass of the interactive loop *)

Lemma update_pheromones_dom (pheromone : gmap (nat * nat) R) (best_path : list nat)
  (distances : gmap (nat * nat) R) (evaporation q : R) :
  dom (Interactive.update_pheromones pheromone best_path distances evaporation q)
  = dom pheromone.
Proof.
  unfold Interactive.update_pheromones. cbv zeta.
  apply set_eq. intros k. rewrite !elem_of_dom.
  rewrite reinforce_is_Some, evaporate_lookup. apply fmap_is_Some.
Qed.

(** X17.  On positive distances between [n >= 2] nodes, [n] of which do
    not overflow, with an ant at least and weights within the range of the
    floats ([float_weight]), a pass of the interactive loop raises nothing:
    its best tour is a permutation of [0..n-1] and the length it reports is
    the length of that tour, finite and positive; the updated table has the
    keys of the old one, and positive entries if the old one had. *)
Theorem interactive_pass_returns_tour (distances : gmap (nat * nat) R) (n : nat)
  (ants : Z) (pheromone : gmap (nat * nat) R) (g : rng) :
  2 ≤ n → (1 ≤ ants)%Z →
  (∀ c v, c < n → v < n → c ≠ v →
     ∃ d, distances !! (c, v) = Some d ∧ (0 < d)%R ∧ (INR n * d <= DBL_MAX)%R) →
  (∀ c v, c < n → v < n →
     float_weight n
       (Interactive.calculate_transition_prob pheromone distances c v 1 2)) →
  ∃ pheromone' best_path L g',
    Interactive.iteration distances n ants pheromone g
    = Done (pheromone', best_path, Fin L, g')
    ∧ best_path ≡ₚ seq 0 n
    ∧ Interactive.path_length best_path distances = Fin L
    ∧ (0 < L)%R
    ∧ dom pheromone' = dom pheromone
    ∧ (positive_table pheromone → positive_table pheromone').
Proof.
  intros Hn Hants Hdist Hw. unfold Interactive.iteration.
  assert (∀ c v, c < n → v < n → c ≠ v →
            ∃ d, distances !! (c, v) = Some d ∧ (0 < d)%R) as Hpos.
  { intros c v Hc Hv Hne. destruct (Hdist c v Hc Hv Hne) as (d & Hd & Hgt & _).
    eauto. }
  destruct (build_paths_done
              (fun c v => Interactive.calculate_transition_prob pheromone distances c v 1 2)
              n (Z.to_nat ants) [] g) as (paths & g' & Hb & Hlen).
  { intros g0. apply construct_within_done; [|lia|lia].
    intros c v Hc Hv. destruct (Hw c v Hc Hv) as (w & Hw' & _). eauto. }
  rewrite Hb. cbn.
  apply build_paths_permutations in Hb as [Hperm _]; [|done].
  rewrite Forall_forall in Hperm.
  destruct paths as [|p paths]; [simpl in Hlen; lia|].
  destruct (py_min (fun p0 => Interactive.path_length p0 distances) (p :: paths))
    as [best| |] eqn:Hmin; [|done..].
  apply py_min_first_min, first_min_elem in Hmin as [Hin _].
  destruct (permutation_length_positive distances n Hn Hpos best (Hperm best Hin))
    as (L & HL & Hgt).
  cbn. fold (Interactive.path_length best distances) in HL.
  exists (Interactive.update_pheromones pheromone best distances 0.1 100), best, L, g'.
  rewrite HL. split_and!; [done|by apply Hperm|done|done| |].
  - apply update_pheromones_dom.
  - intros Hph. unfold Interactive.update_pheromones. cbv zeta.
    apply reinforce_positive; [lra|]. apply evaporate_positive; [lra|done].
Qed.

Lemma interactive_pass_returns_tour_witness :
  ∃ pheromone' best_path L g',
    Interactive.iteration
      (Interactive.distance_table [(0, 0, 0); (1, 0, 0)]%R) 2 20
      (Interactive.initialize_pheromones 2) (fun _ => 0)
    = Done (pheromone', best_path, Fin L, g')
    ∧ best_path ≡ₚ seq 0 2
    ∧ Interactive.path_length best_path
        (Interactive.distance_table [(0, 0, 0); (1, 0, 0)]%R) = Fin L
    ∧ (0 < L)%R
    ∧ dom pheromone' = dom (Interactive.initialize_pheromones 2)
    ∧ (positive_table (Interactive.initialize_pheromones 2) →
       positive_table pheromone').
Proof.
  pose proof DBL_MAX_large as Hmax.
  apply (interactive_pass_returns_tour
           (Interactive.distance_table [(0, 0, 0); (1, 0, 0)]%R) 2 20
           (Interactive.initialize_pheromones 2) (fun _ => 0)).
  - lia.
  - lia.
  - intros c v Hc Hv Hne. rewrite distance_table_fill. exists 1%R.
    split_and!; [by apply unit_pair_distance|lra|simpl; lra].
  - intros c v Hc Hv. rewrite distance_table_fill.
    destruct (decide (c = v)) as [->|Hne].
    { rewrite calculate_transition_prob_same. apply float_weight_zero. }
    rewrite (calculate_transition_prob_present _ _ _ _ _ _ 0.1%R 1%R);
      [|done| |by apply unit_pair_distance|lra].
    2:{ rewrite initialize_pheromones_lookup. by rewrite decide_True. }
    rewrite weight_formula_pos; [|lra|lra| |].
    + exists (Rpower 0.1 1 * Rpower (1 / 1) 2)%R.
      replace (1 / 1)%R with 1%R by lra.
      rewrite Rpower_1, Rpower_base_1 by lra.
      split_and!; [done|lra|simpl; lra].
    + rewrite Rpower_1 by lra. lra.
    + replace (1 / 1)%R with 1%R by lra. rewrite Rpower_base_1. lra.
Defined.

(** ** The two variants *)

Lemma transition_weights_ext (w1 w2 : nat → nat → outcome pyval) (current : nat)
  (unvisited : list nat) (probs : list pyval) (total : pyval) :
  (∀ v, v ∈ unvisited → w1 current v = w2 current v) →
  transition_weights w1 current unvisited probs total
  = transition_weights w2 current unvisited probs total.
Proof.
  revert probs total. induction unvisited as [|node rest IH]; intros probs total Hw.
  - done.
  - cbn [transition_weights]. rewrite (Hw node) by (by left).
    destruct (w2 current node) as [w| |]; [|done..]. cbn.
    apply IH. intros v Hv. apply Hw. by right.
Qed.

Lemma next_node_ext (w1 w2 : nat → nat → outcome pyval) (current : nat)
  (unvisited : list nat) (g : rng) :
  (∀ v, v ∈ unvisited → w1 current v = w2 current v) →
  next_node w1 current unvisited g = next_node w2 current unvisited g.
Proof.
  intros Hw. unfold next_node. by rewrite (transition_weights_ext w1 w2).
Qed.

(** The walk asks for the weights between nodes of [range(n)] only. *)
Lemma walk_ext (w1 w2 : nat → nat → outcome pyval) (n fuel : nat) (visited : gset nat)
  (path : list nat) (current : nat) (g : rng) :
  (∀ c v, c < n → v < n → w1 c v = w2 c v) → current < n →
  walk w1 n fuel visited path current g = walk w2 n fuel visited path current g.
Proof.
  intros Hw. revert visited path current g.
  induction fuel as [|fuel IH]; intros visited path current g Hc;
    rewrite (walk_unfold w1), (walk_unfold w2).
  - done.
  - case_decide; [|done].
    destruct (unvisited_of n visited) as [|x unvisited] eqn:Hu; [done|].
    rewrite (next_node_ext w1 w2).
    2:{ intros v Hv. apply Hw; [done|].
        rewrite <- Hu in Hv. by apply unvisited_of_elem in Hv as [Hv _]. }
    destruct (next_node w2 current (x :: unvisited) g) as [[next g1]| |] eqn:Hnext;
      [|done..].
    cbn. apply IH. apply next_node_elem in Hnext.
    rewrite <- Hu in Hnext. by apply unvisited_of_elem in Hnext as [Hnext _].
Qed.

Lemma construct_ext (w1 w2 : nat → nat → outcome pyval) (n : nat) (g : rng) :
  (∀ c v, c < n → v < n → w1 c v = w2 c v) →
  construct w1 n g = construct w2 n g.
Proof.
  intros Hw. unfold construct, construct_within.
  destruct (randint0 n g) as [[current g1]| |] eqn:Hr; [|done..].
  cbn. apply walk_ext; [done|]. by apply randint0_lt in Hr.
Qed.

Lemma build_paths_ext (w1 w2 : nat → nat → outcome pyval) (n ants : nat)
  (all_paths : list (list nat)) (g : rng) :
  (∀ c v, c < n → v < n → w1 c v = w2 c v) →
  build_paths w1 n ants all_paths g = build_paths w2 n ants all_paths g.
Proof.
  intros Hw. revert all_paths g.
  induction ants as [|ants IH]; intros all_paths g; [done|].
  cbn [build_paths]. rewrite (construct_ext w1 w2) by done.
  destruct (construct w2 n g) as [[p g1]| |]; [|done..]. cbn. apply IH.
Qed.

(** On a pair that both tables have, the two variants compute the same
    weight, or raise the same exception. *)
Lemma weights_agree (pheromone distances : gmap (nat * nat) R) (alpha beta : R)
  (c v : nat) :
  (c ≠ v → is_Some (pheromone !! (c, v)) ∧ is_Some (distances !! (c, v))) →
  Interactive.calculate_transition_prob pheromone distances c v alpha beta
  = Headless.transition_weight pheromone distances alpha beta c v.
Proof.
  intros Hboth. destruct (decide (c = v)) as [->|Hne].
  { by rewrite calculate_transition_prob_same, transition_weight_same. }
  destruct (Hboth Hne) as [[tau Htau] [d Hd]].
  destruct (Req_dec_T d 0) as [->|Hnz].
  - rewrite (calculate_transition_prob_zero _ _ _ _ _ _ tau) by done.
    by rewrite transition_weight_zero.
  - rewrite (calculate_transition_prob_present _ _ _ _ _ _ tau d) by done.
    rewrite (transition_weight_present _ _ _ _ _ _ d) by done.
    by rewrite Htau.
Qed.

(** X19.  With its default parameters ([alpha=1.0], [beta=2.0],
    [evaporation=0.1], [q=100.0]) the body of the loop of the headless
    optimizer does what a pass of the interactive loop does, when the two
    tables have every pair of distinct nodes: from the same random source
    they build the same tours, choose the same best tour and write the same
    pheromone table, or raise the same exception; the headless one keeps the
    best overall besides. *)
Theorem variants_agree (distances : gmap (nat * nat) R) (n : nat) (ants : Z)
  (st : Headless.colony) :
  (∀ c v, c < n → v < n → c ≠ v →
     is_Some (Headless.pheromone st !! (c, v)) ∧ is_Some (distances !! (c, v))) →
  Headless.iteration distances n ants 1 2 0.1 100 st
  = '(pheromone', best_path, best_len, g') ←
      Interactive.iteration distances n ants (Headless.pheromone st) (Headless.source st);
    mret (if xlt_dec best_len (Headless.best_length_overall st)
          then Headless.Colony pheromone' (Some best_path) best_len g'
          else Headless.Colony pheromone' (Headless.best_path_overall st)
                 (Headless.best_length_overall st) g').
Proof.
  intros Hboth. unfold Headless.iteration, Interactive.iteration.
  rewrite (build_paths_ext
             (Headless.transition_weight (Headless.pheromone st) distances 1 2)
             (fun c v => Interactive.calculate_transition_prob
                           (Headless.pheromone st) distances c v 1 2)).
  2:{ intros c v Hc Hv. symmetry. apply weights_agree. intros Hne. by apply Hboth. }
  destruct (build_paths _ n (Z.to_nat ants) [] (Headless.source st))
    as [[paths g']| |]; [|done..].
  cbn. unfold Headless.compute_path_length, Interactive.path_length.
  destruct (py_min (fun p => tour_length distances p) paths) as [best| |]; [|done..].
  cbn. unfold Interactive.update_pheromones, Interactive.path_length. cbv zeta.
  by destruct (xlt_dec (tour_length distances best) (Headless.best_length_overall st)).
Qed.

Lemma variants_agree_witness :
  Headless.iteration (Headless.build_distance_matrix_cached [(0, 0, 0); (1, 0, 0)]%R)
    2 20 1 2 0.1 100 (Headless.initial 2 (fun _ => 0))
  = '(pheromone', best_path, best_len, g') ←
      Interactive.iteration
        (Headless.build_distance_matrix_cached [(0, 0, 0); (1, 0, 0)]%R) 2 20
        (Headless.pheromone (Headless.initial 2 (fun _ => 0)))
        (Headless.source (Headless.initial 2 (fun _ => 0)));
    mret (if xlt_dec best_len
               (Headless.best_length_overall (Headless.initial 2 (fun _ => 0)))
          then Headless.Colony pheromone' (Some best_path) best_len g'
          else Headless.Colony pheromone'
                 (Headless.best_path_overall (Headless.initial 2 (fun _ => 0)))
                 (Headless.best_length_overall (Headless.initial 2 (fun _ => 0))) g').
Proof.
  apply (variants_agree
           (Headless.build_distance_matrix_cached [(0, 0, 0); (1, 0, 0)]%R) 2 20
           (Headless.initial 2 (fun _ => 0))).
  intros c v Hc Hv Hne. split.
  - unfold Headless.initial. cbn [Headless.pheromone].
    rewrite fill_table_lookup. by rewrite decide_True.
  - rewrite build_distance_matrix_cached_lookup. by rewrite decide_True.
Defined.
